(** * jerarquia-de-operaciones: lexer, parser and expression tree

    A shallow embedding of [src/number/util.ts], [src/number/lexer.ts],
    [src/number/number.ts] and [src/number/parser.ts], with the text of
    [Group] of [src/components/group.tsx], and the properties of the
    arithmetic front end proved over it.

    Conventions.
    - A JavaScript string is a [string]; a character is one [ascii], read as
      a UTF-16 code unit below 256.
    - A JavaScript number is a primitive binary64 [float]; the kernel knows
      a single NaN, as JavaScript programs do.
    - A [throw] is the result [Throw msg]; loops and recursion of the parser
      run on fuel, and [Timeout] is the result of running out of it. *)

From Stdlib Require Import ZArith List Bool Ascii String Lia.
From Stdlib Require Import PrimFloat SpecFloat FloatOps.
From Stdlib Require FloatAxioms.
Import ListNotations.

Local Open Scope string_scope.
Local Open Scope Z_scope.

(** * The program *)

(** ** The JavaScript built-ins the sources call *)

Module JS.

(** [StrWhiteSpaceChar] of ECMA-262 (WhiteSpace and LineTerminator), on the
    code units below 256: TAB, LF, VT, FF, CR, SP and NBSP. *)
Definition isWhiteSpace (c : ascii) : bool :=
  let n := N_of_ascii c in
  (N.leb 9 n && N.leb n 13) || N.eqb n 32 || N.eqb n 160.

Definition digitValue (radix : Z) (c : ascii) : option Z :=
  let n := Z.of_N (N_of_ascii c) in
  let v := if (48 <=? n) && (n <=? 57) then n - 48
           else if (97 <=? n) && (n <=? 102) then n - 87
           else if (65 <=? n) && (n <=? 70) then n - 55
           else radix in
  if v <? radix then Some v else None.

(** The longest prefix of digits in [radix], most significant first, as the
    number it denotes together with its length, and what follows it. *)
Fixpoint spanDigits (radix : Z) (acc : Z) (len : nat) (cs : list ascii)
  : Z * nat * list ascii :=
  match cs with
  | c :: cs' =>
      match digitValue radix c with
      | Some d => spanDigits radix (acc * radix + d) (S len) cs'
      | None => (acc, len, cs)
      end
  | [] => (acc, len, [])
  end.

Fixpoint dropWhile {A} (p : A -> bool) (l : list A) : list A :=
  match l with
  | x :: l' => if p x then dropWhile p l' else l
  | [] => []
  end.

Definition trim (cs : list ascii) : list ascii :=
  rev (dropWhile isWhiteSpace (rev (dropWhile isWhiteSpace cs))).

Definition signed (neg : bool) (x : float) : float :=
  if neg then PrimFloat.opp x else x.

(** The float nearest to the integer [z] (ties to even). *)
Definition ofZ (z : Z) : float :=
  SF2Prim (binary_normalize prec emax z 0 false).

(** The float nearest to [m * 10^e], for [0 <= m]: the quotient is taken
    with at least 64 significant bits and a sticky last bit, which the final
    rounding to 53 bits turns into the nearest float. *)
Definition ofDecimal (neg : bool) (m e : Z) : float :=
  if m =? 0 then signed neg zero
  else if 0 <=? e then
    if 400 <? e then signed neg infinity
    else signed neg (ofZ (m * 10 ^ e))
  else
    if Z.log2 m + 1 + 3 * e <? - 1100 then signed neg zero
    else
      let d := 10 ^ (- e) in
      let k := Z.max 0 (66 + Z.log2 d - Z.log2 m) in
      let q := (m * 2 ^ k) / d in
      let r := (m * 2 ^ k) mod d in
      let m' := 2 * q + (if r =? 0 then 0 else 1) in
      signed neg (SF2Prim (binary_normalize prec emax m' (- k - 1) false)).

Definition isChar (c : ascii) (s : string) : bool :=
  String.eqb (String c EmptyString) s.

(** [StrUnsignedDecimalLiteral]: Infinity, or digits with an optional
    fraction and an optional exponent. *)
Definition unsignedDecimal (neg : bool) (cs : list ascii) : option float :=
  if String.eqb (string_of_list_ascii cs) "Infinity" then
    Some (signed neg infinity)
  else
    let '(ip, ilen, r1) := spanDigits 10 0 0%nat cs in
    let '(m, flen, r2, dot) :=
      match r1 with
      | c :: r =>
          if isChar c "." then
            let '(m, flen, r2) := spanDigits 10 ip 0%nat r in
            (m, flen, r2, true)
          else (ip, 0%nat, r1, false)
      | [] => (ip, 0%nat, r1, false)
      end in
    if Nat.eqb (ilen + flen) 0 then None
    else
      match r2 with
      | [] => Some (ofDecimal neg m (- Z.of_nat flen))
      | c :: r3 =>
          if isChar c "e" || isChar c "E" then
            let '(eneg, r4) :=
              match r3 with
              | s :: r => if isChar s "-" then (true, r)
                          else if isChar s "+" then (false, r)
                          else (false, r3)
              | [] => (false, r3)
              end in
            match spanDigits 10 0 0%nat r4 with
            | (ev, S _, []) =>
                Some (ofDecimal neg m
                        ((if eneg then - ev else ev) - Z.of_nat flen))
            | _ => None
            end
          else None
      end.

(** [NonDecimalIntegerLiteral]: 0x, 0o and 0b prefixes, never signed. *)
Definition nonDecimal (cs : list ascii) : option float :=
  match cs with
  | z :: p :: r =>
      if isChar z "0" then
        let radix :=
          if isChar p "x" || isChar p "X" then 16
          else if isChar p "o" || isChar p "O" then 8
          else if isChar p "b" || isChar p "B" then 2
          else 0 in
        match spanDigits radix 0 0%nat r with
        | (v, S _, []) => if radix =? 0 then None else Some (ofZ v)
        | _ => None
        end
      else None
  | _ => None
  end.

(** [Number(v)] on a string: the abstract operation StringToNumber. *)
Definition Number (v : string) : float :=
  match trim (list_ascii_of_string v) with
  | [] => zero
  | (c :: r) as cs =>
      match nonDecimal cs with
      | Some x => x
      | None =>
          let res :=
            if isChar c "-" then unsignedDecimal true r
            else if isChar c "+" then unsignedDecimal false r
            else unsignedDecimal false cs in
          match res with
          | Some x => x
          | None => nan
          end
      end
  end.

Definition isNaN (x : float) : bool := PrimFloat.is_nan x.

Definition digitChar (d : Z) : ascii := ascii_of_N (Z.to_N (48 + d)).

Fixpoint decimalDigits (fuel : nat) (n : Z) (acc : list ascii) : list ascii :=
  match fuel with
  | O => acc
  | S fuel' =>
      let acc' := digitChar (n mod 10) :: acc in
      if n <? 10 then acc' else decimalDigits fuel' (n / 10) acc'
  end.

(** The decimal digits of [0 <= n]. *)
Definition digitsOf (n : Z) : list ascii :=
  decimalDigits (S (Z.to_nat (Z.log2 n))) n [].

(** The [t] with [10^t <= vn / vd < 10^(t+1)], for positive [vn], [vd]. *)
Fixpoint floorLog10 (fuel : nat) (vn vd t : Z) : Z :=
  match fuel with
  | O => t
  | S fuel' =>
      if vn <? vd then floorLog10 fuel' (vn * 10) vd (t - 1)
      else if vn <? vd * 10 then t
      else floorLog10 fuel' vn (vd * 10) (t + 1)
  end.

(** Number::toString, step 5: the least [k] for which a [k]-digit [s] has
    [s * 10^(n-k)] round to [x], the closest such [s] (the even one on a
    tie), and [n].  [vn / vd] is the exact value of [x] and [t] its decimal
    exponent. *)
Fixpoint shortest (fuel : nat) (x : float) (vn vd t k : Z) : Z * Z * Z :=
  let q := t + 1 - k in
  let P := vn * (if q <? 0 then 10 ^ (- q) else 1) in
  let Q := vd * (if q <? 0 then 1 else 10 ^ q) in
  let lo := P / Q in
  let r := P mod Q in
  let hi := lo + 1 in
  let okLo := PrimFloat.eqb (ofDecimal false lo q) x in
  let okHi := PrimFloat.eqb (ofDecimal false hi q) x in
  let pick s := if s =? 10 ^ k then (10 ^ (k - 1), k, q + 1 + k)
                else (s, k, q + k) in
  match fuel with
  | O => pick lo
  | S fuel' =>
      if okLo && okHi then
        if 2 * r <? Q then pick lo
        else if Q <? 2 * r then pick hi
        else if Z.even lo then pick lo else pick hi
      else if okLo then pick lo
      else if okHi then pick hi
      else shortest fuel' x vn vd t (k + 1)
  end.

Definition zeros (n : Z) : list ascii := repeat "0"%char (Z.to_nat n).

(** Number::toString, steps 6 to 10: the layout of the digits. *)
Definition layout (s k n : Z) : list ascii :=
  let ds := digitsOf s in
  let dot := "."%char in
  if (k <=? n) && (n <=? 21) then ds ++ zeros (n - k)
  else if (0 <? n) && (n <=? 21) then
    firstn (Z.to_nat n) ds ++ dot :: skipn (Z.to_nat n) ds
  else if (-6 <? n) && (n <=? 0) then
    "0"%char :: dot :: zeros (- n) ++ ds
  else
    let e := n - 1 in
    let ex := (if e <? 0 then "-"%char else "+"%char)
              :: digitsOf (Z.abs e) in
    if k =? 1 then ds ++ "e"%char :: ex
    else firstn 1 ds ++ dot :: skipn 1 ds ++ "e"%char :: ex.

(** [`${a}`] on a number: Number::toString in radix 10. *)
Definition toString (x : float) : string :=
  match Prim2SF x with
  | S754_nan => "NaN"
  | S754_zero _ => "0"
  | S754_infinity s => if s then "-Infinity" else "Infinity"
  | S754_finite sg m e =>
      let vn := Zpos m * (if e <? 0 then 1 else 2 ^ e) in
      let vd := if e <? 0 then 2 ^ (- e) else 1 in
      let t := floorLog10 700 vn vd 0 in
      let '(s, k, n) := shortest 17 (PrimFloat.abs x) vn vd t 1 in
      (if sg then "-" else "") ++ string_of_list_ascii (layout s k n)
  end.

End JS.

(** ** src/number/util.ts *)

(** [isNumber(v)]: [!Number.isNaN(Number(v)) && v !== ''].  A string of
    white space converts to 0, so a white-space character is a number here
    just as a digit is. *)
Definition isNumber (v : string) : bool :=
  negb (JS.isNaN (JS.Number v)) && negb (String.eqb v "").

(** ** src/number/lexer.ts *)

Module TokenType.

Inductive t : Set :=
| Illegal | EOF
| StartParenthesis | StartBracket | StartBrace
| EndParenthesis | EndBracket | EndBrace
| Number
| Sum | Sub | Mul | Div
| Equal | EqualOrGreaterThan | EqualOrLessThan | LessThan | GreaterThan
| Similar.

(** The string value of each member of the enum. *)
Definition value (k : t) : string :=
  match k with
  | Illegal => "Illegal" | EOF => "EOF"
  | StartParenthesis => "(" | StartBracket => "[" | StartBrace => "{"
  | EndParenthesis => ")" | EndBracket => "]" | EndBrace => "}"
  | Number => "Number"
  | Sum => "+" | Sub => "-" | Mul => "*" | Div => "/"
  | Equal => "=" | EqualOrGreaterThan => ">=" | EqualOrLessThan => "<="
  | LessThan => "<" | GreaterThan => ">" | Similar => "~"
  end.

Definition eqb (a b : t) : bool := String.eqb (value a) (value b).

End TokenType.

(** [Map.get] on a map written as the list of its entries. *)
Fixpoint mapGet {K V} (eqb : K -> K -> bool) (m : list (K * V)) (k : K)
  : option V :=
  match m with
  | (k', v) :: m' => if eqb k' k then Some v else mapGet eqb m' k
  | [] => None
  end.

Definition TokenString : list (string * TokenType.t) :=
  [ ("EOF", TokenType.EOF);
    ("(", TokenType.StartParenthesis);
    ("[", TokenType.StartBracket);
    ("{", TokenType.StartBrace);
    (")", TokenType.EndParenthesis);
    ("]", TokenType.EndBracket);
    ("}", TokenType.EndBrace);
    ("+", TokenType.Sum);
    ("-", TokenType.Sub);
    ("*", TokenType.Mul);
    ("/", TokenType.Div);
    ("=", TokenType.Equal);
    ("<", TokenType.LessThan);
    (">", TokenType.GreaterThan);
    ("<=", TokenType.EqualOrLessThan);
    (">=", TokenType.EqualOrGreaterThan);
    ("~", TokenType.Similar) ].

Definition ComparationSymbols : list TokenType.t :=
  [ TokenType.Equal; TokenType.LessThan; TokenType.GreaterThan;
    TokenType.Similar ].

Definition includes (l : list TokenType.t) (k : TokenType.t) : bool :=
  existsb (TokenType.eqb k) l.

Definition Token : Set := TokenType.t * string.

Definition newToken (type : TokenType.t) (value : string) : Token :=
  (type, value).

(** [String.fromCharCode(0)]. *)
Definition NUL : string := String Ascii.zero EmptyString.

(** [s.charAt(i)]: the empty string outside of [s]. *)
Definition charAt (s : string) (i : nat) : string :=
  match String.get i s with
  | Some c => String c EmptyString
  | None => EmptyString
  end.

(** [s.slice(a, b)] for [0 <= a] and [0 <= b]. *)
Definition slice (s : string) (a b : nat) : string :=
  String.substring a (b - a) s.

Record Lexer : Set := mkLexer {
  input : string;
  position : nat;
  readPosition : nat;
  char : string;
  line : nat
}.

Definition readChar (l : Lexer) : Lexer :=
  {| input := input l;
     position := readPosition l;
     readPosition := S (readPosition l);
     char := if Nat.leb (String.length (input l)) (readPosition l)
             then TokenType.value TokenType.EOF
             else charAt (input l) (readPosition l);
     line := line l |}.

Definition newLexer (expression : string) : Lexer :=
  readChar {| input := expression; position := 0; readPosition := 0;
              char := NUL; line := 0 |}.

Definition peekChar (l : Lexer) : string :=
  if Nat.leb (String.length (input l)) (readPosition l)
  then TokenType.value TokenType.EOF
  else charAt (input l) (readPosition l).

Definition lastChar (l : Lexer) : string :=
  if Nat.eqb (position l) 0 then NUL
  else charAt (input l) (position l - 1).

Definition isComparation (c : string) : bool :=
  match mapGet String.eqb TokenString c with
  | Some k => includes ComparationSymbols k
  | None => false
  end.

(** The [while] of [readComparation]; every turn reads one character of the
    input, so the length of the input bounds the turns. *)
Fixpoint readComparationLoop (fuel : nat) (l : Lexer) : Lexer :=
  match fuel with
  | O => l
  | S fuel' =>
      if isComparation (peekChar l)
      then readComparationLoop fuel' (readChar l)
      else l
  end.

Definition readComparation (l : Lexer) : string * Lexer :=
  let start := position l in
  let l' := readComparationLoop (String.length (input l)) l in
  (slice (input l') start (readPosition l'), l').

Definition isSignedNumber (l : Lexer) : bool :=
  (String.eqb (char l) "+" || String.eqb (char l) "-")
  && isNumber (peekChar l)
  && negb (isNumber (lastChar l)).

Fixpoint readNumberLoop (fuel : nat) (l : Lexer) : Lexer :=
  match fuel with
  | O => l
  | S fuel' =>
      if isNumber (peekChar l)
      then readNumberLoop fuel' (readChar l)
      else l
  end.

Definition readNumber (l : Lexer) : string * Lexer :=
  let start := position l in
  let l' := readNumberLoop (String.length (input l)) l in
  (slice (input l') start (readPosition l'), l').

Definition readTokenType (l : Lexer) : string * Lexer :=
  if isSignedNumber l then readNumber l else (char l, l).

Definition isSkipped (c : string) : bool :=
  String.eqb c " " || String.eqb c (String "010" EmptyString)
  || String.eqb c (String "009" EmptyString)
  || String.eqb c (String "013" EmptyString).

Fixpoint skipWhitespaceLoop (fuel : nat) (l : Lexer) : Lexer :=
  match fuel with
  | O => l
  | S fuel' =>
      if isSkipped (char l) then
        let l1 :=
          if String.eqb (char l) (String "010" EmptyString)
          then {| input := input l; position := position l;
                  readPosition := readPosition l; char := char l;
                  line := S (line l) |}
          else l in
        skipWhitespaceLoop fuel' (readChar l1)
      else l
  end.

Definition skipWhitespace (l : Lexer) : Lexer :=
  skipWhitespaceLoop (String.length (input l)) l.

Definition orIllegal (k : option TokenType.t) : TokenType.t :=
  match k with Some k' => k' | None => TokenType.Illegal end.

Definition nextToken (l0 : Lexer) : Token * Lexer :=
  let l := skipWhitespace l0 in
  let tokenType := mapGet String.eqb TokenString (char l) in
  let '(tokenType, value, l) :=
    match tokenType with
    | Some k =>
        if includes ComparationSymbols k then
          let '(value, l) := readComparation l in
          (mapGet String.eqb TokenString value, value, l)
        else
          let tokenType :=
            if isSignedNumber l then Some TokenType.Number
            else tokenType in
          let '(value, l) := readTokenType l in
          (tokenType, value, l)
    | None =>
        if isNumber (char l) then
          let '(value, l) := readNumber l in
          (Some (if String.eqb value "" then TokenType.Illegal
                 else TokenType.Number), value, l)
        else (tokenType, char l, l)
    end in
  let l := readChar l in
  (newToken (orIllegal tokenType) value, l).

Definition getLine (l : Lexer) : nat := line l.

(** The first [n] tokens of a lexer. *)
Fixpoint tokens (n : nat) (l : Lexer) : list Token :=
  match n with
  | O => []
  | S n' => let '(t, l') := nextToken l in t :: tokens n' l'
  end.

(** ** src/number/number.ts *)

(** An [Operation] is the tuple [[apply, symbol, priority]]. *)
Record Operation : Set := mkOperation {
  apply : float -> float -> float;
  symbol : string -> string -> string;
  priority : Z
}.

(** A [Number] is the tuple [[number, string, operationPriority, left,
    right]]; the two closures of a tuple are determined by the constructor
    that built it, [identity] or [compound], and are the functions [get] and
    [numToString] below. *)
Inductive Number : Set :=
| identity (a : float)
| compound (a : Number) (o : Operation) (b : Number).

(** [num[2]], [num[3]] and [num[4]]. *)
Definition operationPriority (num : Number) : Z :=
  match num with
  | identity _ => -1
  | compound _ o _ => priority o
  end.

Definition left (num : Number) : option Number :=
  match num with
  | identity _ => None
  | compound a _ _ => Some a
  end.

Definition right (num : Number) : option Number :=
  match num with
  | identity _ => None
  | compound _ _ b => Some b
  end.

Fixpoint get (num : Number) : float :=
  match num with
  | identity a => a
  | compound a o b => apply o (get a) (get b)
  end.

Definition parens (s : string) : string := "(" ++ s ++ ")".

Fixpoint numToString (num : Number) : string :=
  match num with
  | identity a => JS.toString a
  | compound a o b =>
      if negb (operationPriority b =? -1)
         && (operationPriority b <? priority o)
      then symbol o (numToString a) (parens (numToString b))
      else if negb (operationPriority a =? -1)
              && (operationPriority a <? priority o)
      then symbol o (parens (numToString a)) (numToString b)
      else symbol o (numToString a) (numToString b)
  end.

Fixpoint levelOf (num : Number) (level : Z) : list Number :=
  if level <=? 0 then [num]
  else match num with
       | identity _ => [] ++ []
       | compound a _ b => levelOf a (level - 1) ++ levelOf b (level - 1)
       end.

(** [getLevel(num, level)], [num] being a [Number] or [null]. *)
Definition getLevel (num : option Number) (level : Z) : list Number :=
  match num with
  | None => []
  | Some n => levelOf n level
  end.

Fixpoint depthOf (num : Number) (level : Z) : Z :=
  match num with
  | identity _ => Z.max (level + 1) (level + 1)
  | compound a _ b => Z.max (depthOf a (level + 1)) (depthOf b (level + 1))
  end.

(** [getDepth(num, level)]; [getDepth(num)] is [getDepth num (-1)]. *)
Definition getDepth (num : option Number) (level : Z) : Z :=
  match num with
  | None => level
  | Some n => depthOf n level
  end.

Definition compoundFromValues (a : float) (o : Operation) (b : float)
  : Number :=
  compound (identity a) o (identity b).

Definition sum : Operation :=
  mkOperation PrimFloat.add (fun a b => a ++ " + " ++ b) 0.

Definition sub : Operation :=
  mkOperation PrimFloat.sub (fun a b => a ++ " - " ++ b) 0.

Definition mul : Operation :=
  mkOperation PrimFloat.mul (fun a b => a ++ " * " ++ b) 1.

Definition div : Operation :=
  mkOperation PrimFloat.div (fun a b => a ++ " / " ++ b) 1.

(** ** src/number/parser.ts *)

Definition Operations : list (TokenType.t * Operation) :=
  [ (TokenType.Sum, sum); (TokenType.Sub, sub);
    (TokenType.Mul, mul); (TokenType.Div, div) ].

Definition GroupDelimiters : list (string * string) :=
  [ ("(", ")"); ("[", "]"); ("{", "}") ].

(** [Array.from(GroupDelimiters.keys()).includes(v)]. *)
Definition isGroupStart (v : string) : bool :=
  existsb (String.eqb v) (map fst GroupDelimiters).

(** The interface the parser asks of its lexer. *)
Class ILexer (L : Type) := { lexerNextToken : L -> Token * L }.

#[export] Instance Lexer_ILexer : ILexer Lexer :=
  {| lexerNextToken := nextToken |}.

(** What a method of the parser ends in. *)
Inductive Result (A : Type) : Type :=
| Ok (a : A)
| Throw (msg : string)
| Timeout.

Arguments Ok {A} a.

Arguments Throw {A} msg.

Arguments Timeout {A}.

Definition bind {A B} (r : Result A) (k : A -> Result B) : Result B :=
  match r with
  | Ok a => k a
  | Throw msg => Throw msg
  | Timeout => Timeout
  end.

Notation "' pat <- r ;; k" := (bind r (fun x => let 'pat := x in k))
  (at level 61, pat pattern, r at next level, right associativity).

Section Parser.
Context {L : Type} `{ILexer L}.

Record Parser : Type := mkParser {
  lexer : L;
  last : option Number;
  token : Token;
  peekToken : Token
}.

Definition newParser (lx : L) : Parser :=
  let '(t, l1) := lexerNextToken lx in
  let '(pk, l2) := lexerNextToken l1 in
  {| lexer := l2; last := None; token := t; peekToken := pk |}.

Definition parserNextToken (p : Parser) : Parser :=
  let '(t, l) := lexerNextToken (lexer p) in
  {| lexer := l; last := last p; token := peekToken p; peekToken := t |}.

Definition setLast (v : Number) (p : Parser) : Parser :=
  {| lexer := lexer p; last := Some v; token := token p;
     peekToken := peekToken p |}.

Definition parseNumber (p : Parser) : Number :=
  identity (JS.Number (snd (token p))).

Fixpoint parseExpression (fuel : nat) (last : option Number) (p : Parser)
  : Result (Number * Parser) :=
  match fuel with
  | O => Timeout
  | S fuel' =>
      match last with
      | None => Ok (parseNumber p, p)
      | Some last =>
          match mapGet TokenType.eqb Operations (fst (token p)) with
          | None =>
              Throw ("expected an operation got: "
                       ++ TokenType.value (fst (token p)))
          | Some operation =>
              let p := parserNextToken p in
              if isGroupStart (snd (token p)) then
                '(g, p) <- parseGroup fuel' p ;;
                Ok (compound last operation g, p)
              else
                '(nextNum, p) <- parseExpression fuel' None p ;;
                match mapGet TokenType.eqb Operations (fst (peekToken p))
                with
                | Some nextOperation =>
                    if priority operation <? priority nextOperation then
                      let p := parserNextToken p in
                      '(r, p) <- parseExpression fuel' (Some nextNum) p ;;
                      Ok (compound last operation r, p)
                    else Ok (compound last operation (parseNumber p), p)
                | None => Ok (compound last operation (parseNumber p), p)
                end
          end
      end
  end
with parseGroup (fuel : nat) (p : Parser) : Result (Number * Parser) :=
  match fuel with
  | O => Timeout
  | S fuel' =>
      match mapGet String.eqb GroupDelimiters (snd (token p)) with
      | None =>
          Throw ("could not parse group, unknown symbol: "
                   ++ snd (token p))
      | Some delimiter =>
          let p := parserNextToken p in
          '(groupNum, p) <- parseGroupLoop fuel' delimiter None p ;;
          match groupNum with
          | None => Throw "could not parse group: undefined result"
          | Some groupNum => Ok (groupNum, p)
          end
      end
  end
with parseGroupLoop (fuel : nat) (delimiter : string)
       (groupNum : option Number) (p : Parser)
  : Result (option Number * Parser) :=
  match fuel with
  | O => Timeout
  | S fuel' =>
      if String.eqb (snd (token p)) delimiter then Ok (groupNum, p)
      else
        '(g, p) <- parseExpression fuel' groupNum p ;;
        parseGroupLoop fuel' delimiter (Some g) (parserNextToken p)
  end.

Definition parseValue (fuel : nat) (p : Parser) : Result (Number * Parser) :=
  if isGroupStart (snd (token p)) then parseGroup fuel p
  else parseExpression fuel (last p) p.

Fixpoint parseLoop (fuel : nat) (p : Parser) : Result Parser :=
  match fuel with
  | O => Timeout
  | S fuel' =>
      if TokenType.eqb (fst (token p)) TokenType.EOF then Ok p
      else
        '(v, p) <- parseValue fuel' p ;;
        parseLoop fuel' (parserNextToken (setLast v p))
  end.

Definition parse (fuel : nat) (p : Parser) : Result Number :=
  ' p <- parseLoop fuel p ;;
  match last p with
  | None => Throw "could not parse input: result is undefined"
  | Some last => Ok last
  end.

End Parser.

Arguments Parser L : clear implicits.

(** [new Parser(new Lexer(input)).parse()], on fuel that never runs out
    (see [parseText_terminates]). *)
Definition parseText (input : string) : Result Number :=
  parse (2 * String.length input + 3) (newParser (newLexer input)).

Definition evaluate (input : string) : Result float :=
  ' t <- parseText input ;; Ok (get t).

(** ** src/components/group.tsx *)

Module Delimiter.

Inductive t : Set :=
| Parenthesis
| Bracket
| Braces.

Definition eqb (a b : t) : bool :=
  match a, b with
  | Parenthesis, Parenthesis | Bracket, Bracket | Braces, Braces => true
  | _, _ => false
  end.

End Delimiter.

Definition DelimiterStart : list (Delimiter.t * string) :=
  [ (Delimiter.Parenthesis, "("); (Delimiter.Bracket, "[");
    (Delimiter.Braces, "{") ]%list.

Definition DelimiterEnd : list (Delimiter.t * string) :=
  [ (Delimiter.Parenthesis, ")"); (Delimiter.Bracket, "]");
    (Delimiter.Braces, "}") ]%list.

(** The text of [{x}] in a fragment, [x] being a string, [false] or
    [undefined]: the string, or nothing. *)
Definition rendersAs (x : option string) : string :=
  match x with
  | Some s => s
  | None => ""
  end.

(** The text of what [Group] renders around the text [children]:
    [active && DelimiterStart.get(delimiter)], the children, and
    [active && DelimiterEnd.get(delimiter)].  The defaults of the
    component are [Delimiter.Parenthesis] and [false]. *)
Definition Group (children : string) (delimiter : Delimiter.t)
    (active : bool) : string :=
  rendersAs (if active then mapGet Delimiter.eqb DelimiterStart delimiter
             else None)
  ++ children
  ++ rendersAs (if active then mapGet Delimiter.eqb DelimiterEnd delimiter
                else None).

(** * The notions the theorems are stated with *)

(** ** The token stream seen by the parser *)

Section ParserStream.
Context {L : Type} `{ILexer L}.

(** The [k]-th token a lexer will produce. *)
Fixpoint lexerToken (k : nat) (l : L) : Token :=
  match k with
  | O => fst (lexerNextToken l)
  | S k' => lexerToken k' (snd (lexerNextToken l))
  end.

(** The [k]-th token ahead of the parser: the current one, the lookahead,
    then those of its lexer. *)
Definition upcoming (p : Parser L) (k : nat) : Token :=
  match k with
  | O => token p
  | S O => peekToken p
  | S (S k') => lexerToken k' (lexer p)
  end.

(** [c] calls of the parser's [nextToken]. *)
Fixpoint advance (c : nat) (p : Parser L) : Parser L :=
  match c with
  | O => p
  | S c' => advance c' (parserNextToken p)
  end.

Definition eofToken : Token := (TokenType.EOF, "EOF").

(** From the [n]-th token on, the parser sees the end of the input. *)
Definition quiet (n : nat) (p : Parser L) : Prop :=
  forall k : nat, (n <= k)%nat -> upcoming p k = eofToken.

End ParserStream.

Local Open Scope list_scope.

(** ** Tree utilities: depth and levels *)

(** The number of [compound] levels above the deepest leaf of a tree. *)
Fixpoint compoundLevels (num : Number) : Z :=
  match num with
  | identity _ => 0
  | compound a _ b => 1 + Z.max (compoundLevels a) (compoundLevels b)
  end.

(** A path from the root: [false] goes left, [true] goes right. *)
Fixpoint subtree (path : list bool) (num : Number) : option Number :=
  match path with
  | [] => Some num
  | d :: path' =>
      match num with
      | identity _ => None
      | compound a _ b => subtree path' (if d then b else a)
      end
  end.

(** The paths of [n] edges, from the leftmost to the rightmost. *)
Fixpoint paths (n : nat) : list (list bool) :=
  match n with
  | O => [[]]
  | S n' => map (cons false) (paths n') ++ map (cons true) (paths n')
  end.

Definition toList {A} (o : option A) : list A :=
  match o with Some x => [x] | None => [] end.

(** The nodes [n] edges below the root, from left to right. *)
Definition nodesBelow (n : nat) (num : Number) : list Number :=
  flat_map (fun path => toList (subtree path num)) (paths n).

(** ** The lexer reaches the end of its input and stays there *)

(** The state in which every method of the lexer leaves it: [char] is the
    character at [position], or the end-of-input mark, and [readPosition]
    is one further. *)
Definition wfLexer (l : Lexer) : Prop :=
  readPosition l = S (position l)
  /\ char l = if Nat.leb (String.length (input l)) (position l)
              then "EOF"%string
              else charAt (input l) (position l).

(** [l'] is [l] some characters further. *)
Definition lexerStep (l l' : Lexer) : Prop :=
  input l' = input l /\ (readPosition l <= readPosition l')%nat
  /\ (wfLexer l -> wfLexer l').

(** ** Groups that are never closed *)






Section ParserWindow.
Context {L : Type} `{ILexer L}.



End ParserWindow.

(** ** Blank input *)

(** The four characters [skipWhitespace] skips. *)
Definition isBlank (c : ascii) : bool :=
  isSkipped (String c EmptyString).

(** ** Signs and operators *)

(** A one-character string that is a decimal digit. *)
Definition isDigitChar (v : string) : bool :=
  match v with
  | String c EmptyString =>
      let n := N_of_ascii c in N.leb 48 n && N.leb n 57
  | _ => false
  end.

(** A one-character string that is white space for [Number]. *)
Definition isWhiteSpaceChar (v : string) : bool :=
  match v with
  | String c EmptyString => JS.isWhiteSpace c
  | _ => false
  end.

Definition isSign (v : string) : bool :=
  String.eqb v "+" || String.eqb v "-".

(** ** Parentheses in the rendering *)

(** A child is wrapped when it is a [compound] that binds less tightly than
    the operation above it. *)
Definition bindsLooser (child : Number) (o : Operation) : bool :=
  negb (operationPriority child =? -1)
  && (operationPriority child <? priority o).

Local Open Scope string_scope.

(** ** The lexer on a known input *)

(** The lexer stands between [pre], which it has read, and [suf]. *)
Definition lexAt (l : Lexer) (pre suf : string) : Prop :=
  wfLexer l /\ input l = pre ++ suf /\ position l = String.length pre.

Definition headChar (s : string) : string :=
  match s with
  | String c _ => String c ""
  | "" => "EOF"
  end.

Definition tail (s : string) : string :=
  match s with
  | String _ s' => s'
  | "" => ""
  end.

(** Every character of the string is one [isNumber] accepts. *)
Definition allNumeric (s : string) : bool :=
  forallb (fun c => isNumber (String c "")) (list_ascii_of_string s).

(** ** Digits and operators: the lexer *)

(** The four operations, by name. *)
Inductive OpName : Set := OSum | OSub | OMul | ODiv.

Definition operationOf (k : OpName) : Operation :=
  match k with OSum => sum | OSub => sub | OMul => mul | ODiv => div end.

Definition opChar (k : OpName) : ascii :=
  match k with
  | OSum => "+"%char | OSub => "-"%char | OMul => "*"%char | ODiv => "/"%char
  end.

Definition opToken (k : OpName) : Token :=
  (match k with
   | OSum => TokenType.Sum | OSub => TokenType.Sub
   | OMul => TokenType.Mul | ODiv => TokenType.Div
   end, String (opChar k) "").

(** A non-empty string of decimal digits. *)
Definition isDigits (s : string) : bool :=
  negb (String.eqb s "")
  && forallb (fun c => isDigitChar (String c "")) (list_ascii_of_string s).

(** ** Rendering and parsing back *)

(** A leaf the renderer writes in decimal digits and [Number] reads back:
    a non-negative integer in plain notation. *)
Definition plainLeaf (a : float) : Prop :=
  isDigits (JS.toString a) = true /\ JS.Number (JS.toString a) = a.

(** A left operand that is a [compound] binds at least as tightly as the
    operation above it: the renderer leaves it bare. *)
Definition keepsOrder (t : Number) (k : OpName) : Prop :=
  match t with
  | identity _ => True
  | compound _ o _ => (priority (operationOf k) <= priority o)%Z
  end.

Ltac plain_leaf := split; vm_compute; reflexivity.

(** ** Expressions with parentheses: the lexer *)

(** What the renderer writes: numbers, operators, and the two
    parentheses. *)
Inductive Lexeme : Set :=
| LNum (ds : string)
| LOp (k : OpName)
| LOpen
| LClose.

(** The space the renderer puts before an operator. *)
Definition space (r : list Lexeme) : string :=
  match r with
  | LOp _ :: _ => " "
  | _ => ""
  end.

(** The text of a list of lexemes, from its first lexeme on: no space
    but around the operators. *)
Fixpoint spell (ls : list Lexeme) : string :=
  match ls with
  | [] => ""
  | LNum ds :: r => ds ++ space r ++ spell r
  | LOp k :: r => String (opChar k) (" " ++ spell r)
  | LOpen :: r => "(" ++ spell r
  | LClose :: r => ")" ++ space r ++ spell r
  end.

(** The token of a lexeme: the one of a number takes the space before an
    operator with it. *)
Definition lexemeToken (x : Lexeme) (r : list Lexeme) : Token :=
  match x with
  | LNum ds => newToken TokenType.Number (ds ++ space r)
  | LOp k => opToken k
  | LOpen => newToken TokenType.StartParenthesis "("
  | LClose => newToken TokenType.EndParenthesis ")"
  end.

Fixpoint lexTokens (ls : list Lexeme) : list Token :=
  match ls with
  | [] => []
  | x :: r => lexemeToken x r :: lexTokens r
  end.

(** Numbers are digits, no two numbers touch, and no operator comes right
    after an opening parenthesis. *)
Fixpoint lexable (ls : list Lexeme) : Prop :=
  match ls with
  | [] => True
  | LNum ds :: r =>
      isDigits ds = true
      /\ match r with LNum _ :: _ => False | _ => True end
      /\ lexable r
  | LOpen :: r =>
      match r with LOp _ :: _ => False | _ => True end /\ lexable r
  | _ :: r => lexable r
  end.

(** The lexer is about to read the lexemes [ls]: it stands on their text,
    or on the space before it, and a space comes before an operator. *)
Definition lexReady (l : Lexer) (ls : list Lexeme) : Prop :=
  exists pre sp : string,
    lexAt l pre (sp ++ spell ls)
    /\ (sp = "" \/ sp = " ")
    /\ match ls with
       | LOp _ :: _ => sp = " " \/ exists pre0, pre = pre0 ++ " "
       | _ => True
       end.

(** ** Expressions with parentheses: the parser *)

(** The token of a lexeme, whatever follows the lexeme. *)
Definition tokenOf (x : Lexeme) (t : Token) : Prop :=
  match x with
  | LNum ds =>
      isDigits ds = true /\ fst t = TokenType.Number
      /\ (snd t = ds \/ snd t = ds ++ " ")
  | LOp k => t = opToken k
  | LOpen => t = newToken TokenType.StartParenthesis "("
  | LClose => t = newToken TokenType.EndParenthesis ")"
  end.

(** The next token does not bind tighter than the operation [o]. *)
Definition calm (o : Operation) (t : Token) : Prop :=
  match mapGet TokenType.eqb Operations (fst t) with
  | Some o' => (priority o <? priority o')%Z = false
  | None => True
  end.

(** What may follow a tree for the parser to leave it as it is: no
    operator binding tighter than the one at its root. *)
Definition follows (t : Number) (next : Token) : Prop :=
  match t with
  | compound _ o _ => calm o next
  | identity _ => True
  end.

Section Reach.
Context {L : Type} `{ILexer L}.

(** The lexemes [ls] are what the parser sees from its [i]-th token on. *)
Fixpoint Ahead (p : Parser L) (i : nat) (ls : list Lexeme) : Prop :=
  match ls with
  | [] => True
  | x :: r => tokenOf x (upcoming p i) /\ Ahead p (S i) r
  end.

(** The parser with another value of [last]. *)
Definition withLast (g : option Number) (p : Parser L) : Parser L :=
  {| lexer := lexer p; last := g; token := token p;
     peekToken := peekToken p |}.

(** The loop of [parseGroup], on the closing parenthesis, from the group
    [g] so far and the parser [p], comes to the same end as from [g'] and
    [p']. *)
Definition GroupReach (g : option Number) (p : Parser L)
    (g' : option Number) (p' : Parser L) : Prop :=
  forall (F' : nat) (R : Result (option Number * Parser L)),
    parseGroupLoop F' ")" g' p' = R -> R <> Timeout ->
    exists F : nat, parseGroupLoop F ")" g p = R.

(** The same of the loop of [parse], the value so far being [last]. *)
Definition TopReach (g : option Number) (p : Parser L)
    (g' : option Number) (p' : Parser L) : Prop :=
  forall (F' : nat) (R : Result (Parser L)),
    parseLoop F' (withLast g' p') = R -> R <> Timeout ->
    exists F : nat, parseLoop F (withLast g p) = R.

End Reach.

(** ** Trees that are parsed back from their rendering *)

(** Where a tree stands: it is a whole expression, at the top or inside
    parentheses, or the right operand of an operation. *)
Inductive Place : Set :=
| Whole (top : bool)
| Under (k : OpName).

(** [Shape w t ls]: the tree [t], standing at [w], is rendered as the
    lexemes [ls] and parsed back from them.

    A whole expression is a leaf; a whole expression under an operation, as
    its left operand and not bound less tightly than it, with a right
    operand of the kind; or, at the top only, a whole expression in
    parentheses, bound less tightly than the operation it is the left
    operand of, with a right operand of the kind that is not in
    parentheses.

    A right operand of an operation is a leaf; a whole expression in
    parentheses, bound less tightly than the operation; or a leaf under an
    operation that binds tighter, with a right operand of the kind.

    A leaf is a non-negative integer in plain digits. *)
Inductive Shape : Place -> Number -> list Lexeme -> Prop :=
| Shape_leaf (c : bool) (a : float) :
    plainLeaf a -> Shape (Whole c) (identity a) [LNum (JS.toString a)]
| Shape_open (G : Number) (gl : list Lexeme) (k : OpName) (r : Number)
    (rl : list Lexeme) :
    Shape (Whole false) G gl -> bindsLooser G (operationOf k) = true ->
    Shape (Under k) r rl -> bindsLooser r (operationOf k) = false ->
    Shape (Whole true) (compound G (operationOf k) r)
      (LOpen :: gl ++ LClose :: LOp k :: rl)%list
| Shape_step (c : bool) (t : Number) (ls : list Lexeme) (k : OpName)
    (r : Number) (rl : list Lexeme) :
    Shape (Whole c) t ls -> keepsOrder t k -> Shape (Under k) r rl ->
    Shape (Whole c) (compound t (operationOf k) r) (ls ++ LOp k :: rl)%list
| Under_leaf (k : OpName) (b : float) :
    plainLeaf b -> Shape (Under k) (identity b) [LNum (JS.toString b)]
| Under_group (k : OpName) (G : Number) (gl : list Lexeme) :
    Shape (Whole false) G gl -> bindsLooser G (operationOf k) = true ->
    Shape (Under k) G (LOpen :: gl ++ [LClose])%list
| Under_tighter (k k' : OpName) (b : float) (r : Number)
    (rl : list Lexeme) :
    (priority (operationOf k) < priority (operationOf k'))%Z ->
    plainLeaf b -> Shape (Under k') r rl ->
    Shape (Under k) (compound (identity b) (operationOf k') r)
      (LNum (JS.toString b) :: LOp k' :: rl)%list.

(** What the renderer writes for a tree at a place. *)
Definition rendered (w : Place) (t : Number) : string :=
  match w with
  | Whole _ => numToString t
  | Under k =>
      if bindsLooser t (operationOf k) then parens (numToString t)
      else numToString t
  end.

(** The last lexeme is a number or a closing parenthesis. *)
Fixpoint closed (ls : list Lexeme) : bool :=
  match ls with
  | [] => false
  | [LNum _] | [LClose] => true
  | [_] => false
  | _ :: r => closed r
  end.

(** The first lexeme is a number or, but for a whole expression inside
    parentheses, an opening parenthesis. *)
Definition opens (w : Place) (ls : list Lexeme) : Prop :=
  match ls with
  | LNum _ :: _ => True
  | LOpen :: _ => w <> Whole false
  | _ => False
  end.

Section ShapeParser.
Context {L : Type} `{ILexer L}.

(** What the parser makes of the lexemes of a tree at a place: a whole
    expression is what the loop of [parse] has in [last] once it is past
    the lexemes, and the loop of a group as well if no parenthesis opens
    the expression; a right operand is what [parseExpression] joins to the
    value so far, ending on the last of the lexemes. *)
Definition parsedBack (w : Place) (t : Number) (ls : list Lexeme) : Prop :=
  match w with
  | Whole c =>
      forall p : Parser L,
        Ahead p 0 ls -> follows t (upcoming p (List.length ls)) ->
        TopReach None p (Some t) (advance (List.length ls) p)
        /\ (c = false ->
            GroupReach None p (Some t) (advance (List.length ls) p))
  | Under k =>
      forall (q : Parser L) (t0 : Number),
        Ahead q 0 (LOp k :: ls) ->
        calm (operationOf k) (upcoming q (S (List.length ls))) ->
        exists F : nat,
          parseExpression F (Some t0) q
          = Ok (compound t0 (operationOf k) t, advance (List.length ls) q)
  end.

End ShapeParser.

(** ** Evaluation: NaN and division by zero *)

(** A tree whose operations are the four of [number.ts]. *)
Fixpoint arithmetic (num : Number) : Prop :=
  match num with
  | identity _ => True
  | compound a o b =>
      (exists k : OpName, o = operationOf k) /\ arithmetic a /\ arithmetic b
  end.

(** A leaf of the tree holds NaN. *)
Fixpoint hasNaN (num : Number) : bool :=
  match num with
  | identity a => JS.isNaN a
  | compound a _ b => hasNaN a || hasNaN b
  end.

(** ** Levels *)

(** A [Number] built by [identity]: [num[3]] and [num[4]] are [null]. *)
Definition isIdentity (num : Number) : bool :=
  match left num, right num with
  | None, None => true
  | _, _ => false
  end.

(** ** The lexer, token by token *)

(** The lexer after [k] calls of [nextToken]. *)
Fixpoint lexerAfter (k : nat) (l : Lexer) : Lexer :=
  match k with
  | O => l
  | S k' => lexerAfter k' (snd (nextToken l))
  end.

(** The number of line feeds in a string. *)
Fixpoint newlines (s : string) : nat :=
  match s with
  | EmptyString => 0
  | String c r => ((if Ascii.eqb c "010" then 1 else 0) + newlines r)%nat
  end.

(** Every character of the string is one of the four comparison
    symbols. *)
Definition allComparation (s : string) : bool :=
  forallb (fun c => isComparation (String c "")) (list_ascii_of_string s).

(** ** The parser: errors and results *)

(** The errors of [parseExpression] and [parseGroup] on the way: an
    operation was expected, or a group has nothing in it. *)
Definition innerError (msg : string) : Prop :=
  msg = "could not parse group: undefined result"
  \/ exists k : TokenType.t,
       msg = "expected an operation got: " ++ TokenType.value k.

(** The errors of [parse]. *)
Definition parseError (msg : string) : Prop :=
  msg = "could not parse input: result is undefined" \/ innerError msg.

Section ParserLast.
Context {L : Type} `{ILexer L}.

(** The result of a method, the parser it leaves having [last] set
    to [g]. *)
Definition reLast {A : Type} (g : option Number)
    (r : Result (A * Parser L)) : Result (A * Parser L) :=
  match r with
  | Ok (v, q) => Ok (v, withLast g q)
  | Throw msg => Throw msg
  | Timeout => Timeout
  end.

End ParserLast.

(** * Theorems *)

Local Open Scope string_scope.
Local Open Scope Z_scope.
Local Open Scope list_scope.

(** ** Tree utilities: depth and levels *)

Lemma getDepth_eq (num : Number) (level : Z) :
  getDepth (Some num) level =
    Z.max (getDepth (left num) (level + 1)) (getDepth (right num) (level + 1)).
Proof. destruct num; reflexivity. Qed.

Lemma compoundLevels_nonneg (num : Number) : 0 <= compoundLevels num.
Proof. induction num; cbn [compoundLevels]; lia. Qed.

Lemma depthOf_compoundLevels (num : Number) (level : Z) :
  depthOf num level = level + 1 + compoundLevels num.
Proof.
  revert level; induction num as [a | a IHa o b IHb]; intros level;
    cbn [depthOf compoundLevels].
  - lia.
  - rewrite IHa, IHb. lia.
Qed.

Lemma flat_map_map {A B C} (f : A -> B) (g : B -> list C) (l : list A) :
  flat_map g (map f l) = flat_map (fun x => g (f x)) l.
Proof. induction l; simpl; congruence. Qed.

Lemma nodesBelow_S (n : nat) (num : Number) :
  nodesBelow (S n) num =
    match num with
    | identity _ => []
    | compound a _ b => nodesBelow n a ++ nodesBelow n b
    end.
Proof.
  unfold nodesBelow; simpl. rewrite flat_map_app, !flat_map_map.
  destruct num; simpl; [|reflexivity].
  induction (paths n); simpl; auto.
Qed.

Lemma levelOf_nodesBelow (n : nat) (num : Number) :
  levelOf num (Z.of_nat n) = nodesBelow n num.
Proof.
  revert num; induction n as [|n IH]; intros num.
  - destruct num; reflexivity.
  - rewrite nodesBelow_S.
    replace (Z.of_nat (S n)) with (Z.of_nat n + 1) by lia.
    destruct num as [a | a o b]; cbn [levelOf];
      destruct (Z.leb_spec (Z.of_nat n + 1) 0); try lia; [reflexivity|].
    replace (Z.of_nat n + 1 - 1) with (Z.of_nat n) by lia.
    now rewrite !IH.
Qed.

Lemma levelOf_beyond (num : Number) (level : Z) :
  compoundLevels num < level -> levelOf num level = [].
Proof.
  revert level; induction num as [a | a IHa o b IHb]; intros level Hlt;
    cbn [levelOf compoundLevels] in *.
  - destruct (Z.leb_spec level 0); [lia | reflexivity].
  - pose proof (compoundLevels_nonneg a); pose proof (compoundLevels_nonneg b).
    destruct (Z.leb_spec level 0); [lia|].
    rewrite IHa, IHb by lia. reflexivity.
Qed.

(** C8.  For a level that is at least 0, [getLevel] returns exactly the
    nodes that many edges below the root, from left to right (the root
    itself at level 0); it returns the empty list for [null] and for a level
    beyond the depth of the tree; and on the tree of the test it returns the
    four leaves at level 3. *)
Theorem getLevel_exact :
  (forall (num : Number) (level : Z), 0 <= level ->
     getLevel (Some num) level = nodesBelow (Z.to_nat level) num)
  /\ (forall num : Number, getLevel (Some num) 0 = [num])
  /\ (forall level : Z, getLevel None level = [])
  /\ (forall (num : Number) (level : Z),
        getDepth (Some num) (-1) < level -> getLevel (Some num) level = [])
  /\ (forall (X a b c d : float),
        getLevel
          (Some (compound (identity X) mul
                   (compound (compoundFromValues a sum b) div
                      (compoundFromValues c sub d)))) 3
        = [identity a; identity b; identity c; identity d]).
Proof.
  repeat split.
  - intros num level Hle. simpl.
    rewrite <- levelOf_nodesBelow, Z2Nat.id by assumption. reflexivity.
  - intros num. destruct num; reflexivity.
  - intros num level Hlt. cbn [getLevel getDepth] in *.
    rewrite depthOf_compoundLevels in Hlt.
    apply levelOf_beyond. lia.
Qed.

Lemma getLevel_exact_witness :
  0 <= 1
  /\ getLevel (Some (compoundFromValues 1 sum 2)) 1
     = nodesBelow (Z.to_nat 1) (compoundFromValues 1 sum 2).
Proof. split; [lia | apply (proj1 getLevel_exact); lia]. Defined.

(** C9.  [getDepth] of [null] is the base; of a node it is the larger of the
    depths of its two children taken from the base plus one; from the
    default base -1 it is the number of [compound] levels above the deepest
    leaf, so 0 for a lone leaf and 3 for the tree of the test. *)
Theorem getDepth_compoundLevels :
  (forall base : Z, getDepth None base = base)
  /\ (forall (num : Number) (base : Z),
        getDepth (Some num) base =
          Z.max (getDepth (left num) (base + 1))
                (getDepth (right num) (base + 1)))
  /\ (forall num : Number, getDepth (Some num) (-1) = compoundLevels num)
  /\ (forall a : float, getDepth (Some (identity a)) (-1) = 0)
  /\ (forall (X a b c d : float),
        getDepth
          (Some (compound (identity X) mul
                   (compound (compoundFromValues a sum b) div
                      (compoundFromValues c sub d)))) (-1) = 3).
Proof.
  repeat split.
  - intros num base. apply getDepth_eq.
  - intros num. cbn [getDepth]. rewrite depthOf_compoundLevels. lia.
Qed.

(** ** The parser consumes its tokens and terminates *)

Section ParserFacts.
Context {L : Type} `{ILexer L}.

Lemma upcoming_next (p : Parser L) (k : nat) :
  upcoming (parserNextToken p) k = upcoming p (S k).
Proof.
  unfold parserNextToken.
  destruct (lexerNextToken (lexer p)) as [t l] eqn:E.
  destruct k as [|[|k]]; simpl; rewrite ?E; reflexivity.
Qed.

Lemma upcoming_advance (c : nat) (p : Parser L) (k : nat) :
  upcoming (advance c p) k = upcoming p (k + c).
Proof.
  revert p k; induction c as [|c IH]; intros p k; simpl.
  - now rewrite Nat.add_0_r.
  - rewrite IH, upcoming_next. f_equal. lia.
Qed.

Lemma advance_add (a b : nat) (p : Parser L) :
  advance (a + b) p = advance b (advance a p).
Proof. revert p; induction a; intros p; simpl; auto. Qed.

Lemma advance_next (c : nat) (p : Parser L) :
  parserNextToken (advance c p) = advance (S c) p.
Proof.
  replace (S c) with (c + 1)%nat by lia. now rewrite advance_add.
Qed.

Lemma quiet_advance (n c : nat) (p : Parser L) :
  quiet n p -> quiet (n - c) (advance c p).
Proof. intros Hq k Hk. rewrite upcoming_advance. apply Hq. lia. Qed.

Lemma quiet_next (n : nat) (p : Parser L) :
  quiet n p -> quiet (n - 1) (parserNextToken p).
Proof. intros Hq. apply (quiet_advance n 1 p Hq). Qed.

Lemma quiet_operation (n k : nat) (p : Parser L) (o : Operation) :
  quiet n p ->
  mapGet TokenType.eqb Operations (fst (upcoming p k)) = Some o ->
  (k < n)%nat.
Proof.
  intros Hq Ho. destruct (Nat.lt_ge_cases k n) as [|Hge]; [assumption|].
  rewrite (Hq k Hge) in Ho. discriminate.
Qed.

Lemma GroupDelimiters_not_EOF (v d : string) :
  mapGet String.eqb GroupDelimiters v = Some d -> d <> "EOF"%string.
Proof.
  unfold GroupDelimiters; cbn [mapGet].
  repeat match goal with
         | |- context [if ?b then _ else _] =>
             destruct b; [intros [= <-]; discriminate|]
         end.
  intros [=].
Qed.

(** The three mutually recursive methods, one turn unfolded. *)
Lemma parseExpression_S (fuel : nat) (last : option Number) (p : Parser L) :
  parseExpression (S fuel) last p =
    match last with
    | None => Ok (parseNumber p, p)
    | Some last =>
        match mapGet TokenType.eqb Operations (fst (token p)) with
        | None =>
            Throw ("expected an operation got: "
                     ++ TokenType.value (fst (token p)))%string
        | Some operation =>
            let p := parserNextToken p in
            if isGroupStart (snd (token p)) then
              '(g, p) <- parseGroup fuel p ;;
              Ok (compound last operation g, p)
            else
              '(nextNum, p) <- parseExpression fuel None p ;;
              match mapGet TokenType.eqb Operations (fst (peekToken p))
              with
              | Some nextOperation =>
                  if priority operation <? priority nextOperation then
                    let p := parserNextToken p in
                    '(r, p) <- parseExpression fuel (Some nextNum) p ;;
                    Ok (compound last operation r, p)
                  else Ok (compound last operation (parseNumber p), p)
              | None => Ok (compound last operation (parseNumber p), p)
              end
        end
    end.
Proof. reflexivity. Qed.

Lemma parseGroup_S (fuel : nat) (p : Parser L) :
  parseGroup (S fuel) p =
    match mapGet String.eqb GroupDelimiters (snd (token p)) with
    | None =>
        Throw ("could not parse group, unknown symbol: "
                 ++ snd (token p))%string
    | Some delimiter =>
        let p := parserNextToken p in
        '(groupNum, p) <- parseGroupLoop fuel delimiter None p ;;
        match groupNum with
        | None => Throw "could not parse group: undefined result"
        | Some groupNum => Ok (groupNum, p)
        end
    end.
Proof. reflexivity. Qed.

Lemma parseGroupLoop_S (fuel : nat) (d : string) (g : option Number)
    (p : Parser L) :
  parseGroupLoop (S fuel) d g p =
    if String.eqb (snd (token p)) d then Ok (g, p)
    else
      '(g, p) <- parseExpression fuel g p ;;
      parseGroupLoop fuel d (Some g) (parserNextToken p).
Proof. reflexivity. Qed.

(** What a successful call leaves behind: the parser it was given, some
    tokens further, at least one further when a left operand came in, and
    on the closing delimiter at the end of a group. *)
Lemma parser_advances (fuel : nat) :
  (forall last p v p',
      parseExpression fuel last p = Ok (v, p') ->
      exists c, p' = advance c p
        /\ (last <> None ->
            (1 <= c)%nat
            /\ mapGet TokenType.eqb Operations (fst (token p)) <> None))
  /\ (forall p v p',
        parseGroup fuel p = Ok (v, p') ->
        exists c, p' = advance c p /\ (1 <= c)%nat)
  /\ (forall d g p g' p',
        parseGroupLoop fuel d g p = Ok (g', p') ->
        exists c, p' = advance c p /\ snd (token p') = d).
Proof.
  induction fuel as [|fuel (IHe & IHg & IHl)]; [repeat split; discriminate|].
  repeat split.
  - (* parseExpression *)
    intros last p v p'. rewrite parseExpression_S.
    destruct last as [last|]; [|intros [= <- <-]; exists 0%nat; now split].
    destruct (mapGet TokenType.eqb Operations (fst (token p)))
      as [operation|]; [|discriminate].
    cbv zeta.
    destruct (isGroupStart (snd (token (parserNextToken p)))).
    + destruct (parseGroup fuel (parserNextToken p)) as [[g p1]| |] eqn:Eg;
        try discriminate.
      simpl. intros [= <- <-].
      apply IHg in Eg as (c & -> & Hc).
      exists (S c). split; [reflexivity | intros; split; [lia|discriminate]].
    + destruct (parseExpression fuel None (parserNextToken p))
        as [[nextNum p1]| |] eqn:En; try discriminate.
      apply IHe in En as (c1 & -> & _). cbn [bind].
      destruct (mapGet TokenType.eqb Operations _) as [nextOperation|].
      * destruct (_ <? _).
        -- destruct (parseExpression fuel (Some nextNum) _)
             as [[r p2]| |] eqn:Er; try discriminate.
           cbn [bind]. intros [= <- <-].
           apply IHe in Er as (c2 & -> & _).
           rewrite advance_next.
           exists (S (S c1 + c2)).
           split; [|intros; split; [lia|discriminate]].
           change (advance (S (S c1 + c2)) p)
             with (advance (S c1 + c2) (parserNextToken p)).
           now rewrite advance_add.
        -- intros [= <- <-]. exists (S c1).
           split; [reflexivity|intros; split; [lia|discriminate]].
      * intros [= <- <-]. exists (S c1).
        split; [reflexivity|intros; split; [lia|discriminate]].
  - (* parseGroup *)
    intros p v p'. rewrite parseGroup_S.
    destruct (mapGet String.eqb GroupDelimiters _) as [d|]; [|discriminate].
    cbv zeta.
    destruct (parseGroupLoop fuel d None _) as [[[g|] p1]| |] eqn:El;
      try discriminate.
    cbn [bind]. intros [= <- <-].
    apply IHl in El as (c & -> & _).
    exists (S c). split; [reflexivity | lia].
  - (* parseGroupLoop *)
    intros d g p g' p'. rewrite parseGroupLoop_S.
    destruct (String.eqb _ d) eqn:Ed.
    + intros [= <- <-]. exists 0%nat. split; [reflexivity|].
      now apply String.eqb_eq.
    + destruct (parseExpression fuel g p) as [[g1 p1]| |] eqn:Ee;
        try discriminate.
      cbn [bind]. intros El.
      apply IHe in Ee as (c1 & -> & _).
      apply IHl in El as (c2 & -> & Hd).
      rewrite advance_next in *.
      exists (S c1 + c2)%nat. split; [|assumption].
      now rewrite advance_add.
Qed.

Lemma quiet_delimiter (n k : nat) (p : Parser L) (d : string) :
  quiet n p ->
  mapGet String.eqb GroupDelimiters (snd (upcoming p k)) = Some d ->
  (k < n)%nat.
Proof.
  intros Hq Hd. destruct (Nat.lt_ge_cases k n) as [|Hge]; [assumption|].
  rewrite (Hq k Hge) in Hd. discriminate.
Qed.

Lemma quiet_not_EOF (n : nat) (p : Parser L) :
  quiet n p -> TokenType.eqb (fst (token p)) TokenType.EOF = false ->
  (0 < n)%nat.
Proof.
  intros Hq Hne. destruct n; [|lia].
  rewrite (Hq 0%nat (Nat.le_refl _) : token p = _) in Hne. discriminate.
Qed.

Lemma bind_not_Timeout {A B} (r : Result A) (k : A -> Result B) :
  r <> Timeout -> (forall a, r = Ok a -> k a <> Timeout) ->
  bind r k <> Timeout.
Proof. destruct r; simpl; intros Hr Hk; auto; discriminate. Qed.

(** Fuel that is enough: when all but the next [n] tokens are the end of
    the input, twice [n] and a little more never runs out. *)
Lemma parser_total (fuel : nat) :
  (forall n last p,
      quiet n p -> (2 * n + 1 <= fuel)%nat ->
      parseExpression fuel last p <> Timeout)
  /\ (forall n p,
        quiet n p -> (2 * n + 2 <= fuel)%nat ->
        parseGroup fuel p <> Timeout)
  /\ (forall n d g p,
        d <> "EOF"%string -> quiet n p ->
        (2 * n + match g with Some _ => 2 | None => 3 end <= fuel)%nat ->
        parseGroupLoop fuel d g p <> Timeout).
Proof.
  induction fuel as [|fuel (IHe & IHg & IHl)].
  { repeat split; intros; try (destruct g); lia. }
  repeat split.
  - (* parseExpression *)
    intros n last p Hq Hf. rewrite parseExpression_S.
    destruct last as [last|]; [|discriminate].
    destruct (mapGet TokenType.eqb Operations (fst (token p)))
      as [operation|] eqn:Eo; [|discriminate].
    pose proof (quiet_operation n 0 p operation Hq Eo) as Hn.
    pose proof (quiet_next n p Hq) as Hq1.
    cbv zeta.
    destruct (isGroupStart (snd (token (parserNextToken p)))).
    + apply bind_not_Timeout.
      * apply (IHg (n - 1)%nat); [assumption | lia].
      * intros [g p1] _. discriminate.
    + apply bind_not_Timeout.
      * apply (IHe (n - 1)%nat); [assumption | lia].
      * intros [nextNum p1] En.
        apply (proj1 (parser_advances fuel)) in En as (c1 & -> & _).
        pose proof (quiet_advance _ c1 _ Hq1) as Hq2.
        destruct (mapGet TokenType.eqb Operations
                    (fst (peekToken (advance c1 (parserNextToken p)))))
          as [nextOperation|] eqn:En; [|discriminate].
        destruct (_ <? _); [|discriminate].
        pose proof (quiet_operation _ 1 _ _ Hq2 En) as Hn2.
        cbv zeta. apply bind_not_Timeout.
        -- apply (IHe (n - 1 - c1 - 1)%nat); [|lia].
           now apply quiet_next.
        -- intros [r p2] _. discriminate.
  - (* parseGroup *)
    intros n p Hq Hf. rewrite parseGroup_S.
    destruct (mapGet String.eqb GroupDelimiters (snd (token p)))
      as [d|] eqn:Ed; [|discriminate].
    pose proof (quiet_delimiter n 0 p d Hq Ed) as Hn.
    cbv zeta. apply bind_not_Timeout.
    + apply (IHl (n - 1)%nat).
      * now apply GroupDelimiters_not_EOF in Ed.
      * now apply quiet_next.
      * lia.
    + intros [[g|] p1] _; discriminate.
  - (* parseGroupLoop *)
    intros n d g p Hd Hq Hf. rewrite parseGroupLoop_S.
    destruct (String.eqb (snd (token p)) d); [discriminate|].
    apply bind_not_Timeout.
    + apply (IHe n); [assumption | destruct g; lia].
    + intros [g1 p1] Ee.
      apply (proj1 (parser_advances fuel)) in Ee as (c & -> & Hc).
      rewrite advance_next.
      apply (IHl (n - S c)%nat); [assumption | now apply quiet_advance |].
      destruct g as [g|].
      * destruct Hc as [Hc Ho]; [discriminate|].
        destruct (mapGet TokenType.eqb Operations (fst (token p)))
          as [o|] eqn:Eo; [|contradiction].
        pose proof (quiet_operation n 0 p o Hq Eo). lia.
      * lia.
Qed.

Lemma upcoming_setLast (v : Number) (p : Parser L) (k : nat) :
  upcoming (setLast v p) k = upcoming p k.
Proof. destruct k as [|[|k]]; reflexivity. Qed.

Lemma parseLoop_total (fuel n : nat) (p : Parser L) :
  quiet n p -> (2 * n + 3 <= fuel)%nat -> parseLoop fuel p <> Timeout.
Proof.
  revert n p; induction fuel as [|fuel IH]; intros n p Hq Hf; [lia|].
  cbn [parseLoop].
  destruct (TokenType.eqb (fst (token p)) TokenType.EOF) eqn:Et;
    [discriminate|].
  pose proof (quiet_not_EOF n p Hq Et) as Hn.
  destruct (parser_total fuel) as (He & Hg & _).
  destruct (parser_advances fuel) as (Ae & Ag & _).
  assert (Hv : forall v p1, parseValue fuel p = Ok (v, p1) ->
                            exists c, p1 = advance c p).
  { unfold parseValue. intros v p1.
    destruct (isGroupStart _); intros E.
    - apply Ag in E as (c & -> & _). now exists c.
    - apply Ae in E as (c & -> & _). now exists c. }
  apply bind_not_Timeout.
  - unfold parseValue. destruct (isGroupStart _).
    + apply (Hg n); [assumption | lia].
    + apply (He n); [assumption | lia].
  - intros [v p1] Ev. apply Hv in Ev as (c & ->).
    apply (IH (n - S c)%nat); [|lia].
    intros k Hk. rewrite upcoming_next, upcoming_setLast, upcoming_advance.
    apply Hq. lia.
Qed.

Lemma parse_total (fuel n : nat) (p : Parser L) :
  quiet n p -> (2 * n + 3 <= fuel)%nat -> parse fuel p <> Timeout.
Proof.
  intros Hq Hf. unfold parse. apply bind_not_Timeout.
  - now apply (parseLoop_total fuel n).
  - intros p1 _. destruct (last p1); discriminate.
Qed.

End ParserFacts.

(** ** The lexer reaches the end of its input and stays there *)

Lemma lexerStep_refl (l : Lexer) : lexerStep l l.
Proof. split; [reflexivity | split; [lia | auto]]. Qed.

Lemma lexerStep_trans (l1 l2 l3 : Lexer) :
  lexerStep l1 l2 -> lexerStep l2 l3 -> lexerStep l1 l3.
Proof.
  intros (Hi1 & Hp1 & Hw1) (Hi2 & Hp2 & Hw2).
  split; [congruence | split; [lia | auto]].
Qed.

Lemma readChar_wf (l : Lexer) : wfLexer (readChar l).
Proof. split; reflexivity. Qed.

Lemma readChar_step (l : Lexer) : lexerStep l (readChar l).
Proof.
  split; [reflexivity | split; [simpl; lia | intros _; apply readChar_wf]].
Qed.

Lemma newLexer_wf (s : string) : wfLexer (newLexer s).
Proof. apply readChar_wf. Qed.

Lemma readNumberLoop_step (fuel : nat) (l : Lexer) :
  lexerStep l (readNumberLoop fuel l).
Proof.
  revert l; induction fuel as [|fuel IH]; intros l; simpl.
  - apply lexerStep_refl.
  - destruct (isNumber (peekChar l)); [|apply lexerStep_refl].
    eapply lexerStep_trans; [apply readChar_step | apply IH].
Qed.

Lemma readComparationLoop_step (fuel : nat) (l : Lexer) :
  lexerStep l (readComparationLoop fuel l).
Proof.
  revert l; induction fuel as [|fuel IH]; intros l; simpl.
  - apply lexerStep_refl.
  - destruct (isComparation (peekChar l)); [|apply lexerStep_refl].
    eapply lexerStep_trans; [apply readChar_step | apply IH].
Qed.

Lemma skipWhitespaceLoop_step (fuel : nat) (l : Lexer) :
  lexerStep l (skipWhitespaceLoop fuel l).
Proof.
  revert l; induction fuel as [|fuel IH]; intros l; simpl.
  - apply lexerStep_refl.
  - destruct (isSkipped (char l)); [|apply lexerStep_refl].
    eapply lexerStep_trans; [|apply IH].
    destruct (String.eqb (char l) _); [|apply readChar_step].
    split; [reflexivity | split; [simpl; lia | intros _; apply readChar_wf]].
Qed.

(** [nextToken] keeps the input, leaves a well-formed lexer, and moves
    [position] to where [readPosition] was, or further. *)
Lemma nextToken_step (l : Lexer) :
  let l' := snd (nextToken l) in
  input l' = input l /\ wfLexer l'
  /\ (readPosition l <= position l')%nat.
Proof.
  unfold nextToken, skipWhitespace.
  pose proof (skipWhitespaceLoop_step (String.length (input l)) l) as Hs.
  set (l1 := skipWhitespaceLoop _ l) in *.
  assert (Hfin : forall (k : option TokenType.t) (v : string) (l2 : Lexer),
             lexerStep l1 l2 ->
             let l' := snd (newToken (orIllegal k) v, readChar l2) in
             input l' = input l /\ wfLexer l'
             /\ (readPosition l <= position l')%nat).
  { intros k v l2 H2. destruct (lexerStep_trans _ _ _ Hs H2) as (Hi & Hp & _).
    split; [exact Hi | split; [apply readChar_wf | exact Hp]]. }
  destruct (mapGet String.eqb TokenString (char l1)) as [k|].
  - destruct (includes ComparationSymbols k).
    + unfold readComparation. apply Hfin, readComparationLoop_step.
    + unfold readTokenType, readNumber.
      destruct (isSignedNumber l1); apply Hfin;
        [apply readNumberLoop_step | apply lexerStep_refl].
  - destruct (isNumber (char l1)).
    + unfold readNumber. apply Hfin, readNumberLoop_step.
    + apply Hfin, lexerStep_refl.
Qed.

(** At the end of the input the token is the end-of-input token. *)
Lemma nextToken_atEnd (l : Lexer) :
  wfLexer l -> (String.length (input l) <= position l)%nat ->
  fst (nextToken l) = eofToken.
Proof.
  intros [_ Hc] Hlen.
  apply Nat.leb_le in Hlen. rewrite Hlen in Hc.
  unfold nextToken, skipWhitespace.
  assert (Hs : skipWhitespaceLoop (String.length (input l)) l = l).
  { destruct (String.length (input l)); simpl; [reflexivity|].
    now rewrite Hc. }
  rewrite Hs, Hc. cbn [mapGet TokenString String.eqb].
  unfold readTokenType, isSignedNumber. rewrite Hc. reflexivity.
Qed.

Lemma lexerToken_atEnd (k : nat) (l : Lexer) :
  wfLexer l -> (String.length (input l) <= position l + k)%nat ->
  lexerToken k l = eofToken.
Proof.
  revert l; induction k as [|k IH]; intros l Hw Hlen; simpl.
  - apply nextToken_atEnd; [assumption | lia].
  - destruct (nextToken_step l) as (Hi & Hw' & Hp).
    apply IH; [assumption|]. rewrite Hi. destruct Hw as [Hr _]. lia.
Qed.

Lemma upcoming_newParser {L : Type} `{ILexer L} (lx : L) (k : nat) :
  upcoming (newParser lx) k = lexerToken k lx.
Proof.
  unfold newParser.
  destruct (lexerNextToken lx) as [t l1] eqn:E1.
  destruct (lexerNextToken l1) as [pk l2] eqn:E2.
  destruct k as [|[|k]]; simpl; rewrite ?E1; simpl; rewrite ?E2; reflexivity.
Qed.

Lemma newParser_quiet (s : string) :
  quiet (String.length s) (newParser (newLexer s)).
Proof.
  intros k Hk. rewrite upcoming_newParser.
  apply lexerToken_atEnd; [apply newLexer_wf | simpl; lia].
Qed.

(** The fuel [parseText] gives the parser is enough for every input: the
    parser ends, in a tree or in an error. *)
Theorem parseText_terminates (s : string) : parseText s <> Timeout.
Proof.
  unfold parseText.
  apply (parse_total _ (String.length s)); [apply newParser_quiet | lia].
Qed.

(** ** Blank input *)

(** The loop of [skipWhitespace] ends on a character it does not skip: the
    fuel it runs on is never what stops it. *)
Lemma skipWhitespaceLoop_done (fuel : nat) (l : Lexer) :
  wfLexer l -> (String.length (input l) - position l <= fuel)%nat ->
  isSkipped (char (skipWhitespaceLoop fuel l)) = false.
Proof.
  revert l; induction fuel as [|fuel IH]; intros l Hw Hf; simpl.
  - destruct Hw as [_ Hc]. rewrite Hc.
    replace (Nat.leb _ _) with true; [reflexivity|].
    symmetry. apply Nat.leb_le. lia.
  - destruct (isSkipped (char l)) eqn:Es; [|assumption].
    destruct Hw as [Hr Hc].
    destruct (String.eqb (char l) _); apply IH;
      try apply readChar_wf; simpl; lia.
Qed.

Lemma skipWhitespaceLoop_stable (fuel : nat) (l : Lexer) :
  isSkipped (char l) = false -> skipWhitespaceLoop fuel l = l.
Proof. intros Hs. destruct fuel; simpl; [|rewrite Hs]; reflexivity. Qed.

Lemma charAt_blank (s : string) (i : nat) :
  forallb isBlank (list_ascii_of_string s) = true ->
  (i < String.length s)%nat -> isSkipped (charAt s i) = true.
Proof.
  unfold charAt. revert i; induction s as [|c s IH]; intros i; simpl.
  - lia.
  - intros [Hc Hs]%andb_prop Hi. destruct i as [|i]; simpl.
    + exact Hc.
    + apply IH; [assumption | lia].
Qed.

Lemma skipWhitespaceLoop_blank (fuel : nat) (l : Lexer) :
  wfLexer l -> forallb isBlank (list_ascii_of_string (input l)) = true ->
  (String.length (input l) - position l <= fuel)%nat ->
  (String.length (input l) <= position (skipWhitespaceLoop fuel l))%nat.
Proof.
  revert l; induction fuel as [|fuel IH]; intros l Hw Hb Hf; simpl.
  - lia.
  - destruct (Nat.le_gt_cases (String.length (input l)) (position l))
      as [Hend | Hin].
    + destruct Hw as [_ Hc]. apply Nat.leb_le in Hend as Hend'.
      rewrite Hend' in Hc. rewrite Hc. exact Hend.
    + destruct Hw as [Hr Hc].
      replace (Nat.leb _ _) with false in Hc
        by (symmetry; apply Nat.leb_gt; lia).
      rewrite Hc, (charAt_blank _ _ Hb Hin).
      destruct (String.eqb _ _);
        match goal with
        | |- (_ <= position (skipWhitespaceLoop fuel ?l'))%nat =>
            change (input l) with (input l'); apply IH
        end;
        try apply readChar_wf; simpl; try assumption; lia.
Qed.

Lemma nextToken_blank (s : string) :
  forallb isBlank (list_ascii_of_string s) = true ->
  fst (nextToken (newLexer s)) = eofToken.
Proof.
  intros Hb.
  pose proof (newLexer_wf s) as Hw.
  set (l := newLexer s) in *.
  assert (Hi : input l = s) by reflexivity.
  destruct (skipWhitespaceLoop_step (String.length (input l)) l)
    as (Hi1 & _ & Hw1). specialize (Hw1 Hw).
  assert (Hend := skipWhitespaceLoop_blank (String.length (input l)) l Hw).
  rewrite Hi in Hend at 1. specialize (Hend Hb ltac:(lia)).
  pose proof (nextToken_atEnd _ Hw1) as Hn.
  rewrite Hi1 in Hn. specialize (Hn Hend).
  unfold nextToken, skipWhitespace in *.
  rewrite Hi1, skipWhitespaceLoop_stable in Hn; [exact Hn|].
  apply skipWhitespaceLoop_done; [assumption | lia].
Qed.

(** C7.  On the empty string and on every string of spaces, tabs, new
    lines and carriage returns, [parse] ends, always in the same error. *)
Theorem blank_input_throws (s : string) :
  forallb isBlank (list_ascii_of_string s) = true ->
  parseText s = Throw "could not parse input: result is undefined".
Proof.
  intros Hb. unfold parseText, parse.
  replace (2 * String.length s + 3)%nat
    with (S (2 * String.length s + 2)) by lia.
  cbn [parseLoop].
  change (token (newParser (newLexer s)))
    with (upcoming (newParser (newLexer s)) 0).
  rewrite upcoming_newParser. cbn [lexerToken lexerNextToken Lexer_ILexer].
  rewrite (nextToken_blank s Hb). cbn [bind fst eofToken].
  change (TokenType.eqb TokenType.EOF TokenType.EOF) with true. cbv iota.
  unfold newParser. cbn [lexerNextToken Lexer_ILexer].
  destruct (nextToken (newLexer s)) as [t l1].
  destruct (nextToken l1) as [pk l2]. reflexivity.
Qed.

Lemma blank_input_throws_witness :
  let s := (" " ++ String "009" (String "010" (String "013" "")))%string in
  forallb isBlank (list_ascii_of_string (s ++ s ++ s)) = true
  /\ parseText (s ++ s ++ s)
     = Throw "could not parse input: result is undefined".
Proof.
  split; [reflexivity | apply blank_input_throws; reflexivity].
Defined.

(** ** Signs and operators *)

(** What [isNumber] accepts among the characters: the digits and the white
    space. *)
Lemma isNumber_char (c : ascii) :
  isNumber (String c EmptyString)
  = isDigitChar (String c EmptyString)
    || isWhiteSpaceChar (String c EmptyString).
Proof.
  destruct c as [[] [] [] [] [] [] [] []]; vm_compute; reflexivity.
Qed.

(** [nextToken] on a lexer that stands on a sign. *)
Lemma nextToken_sign (l : Lexer) :
  isSign (char l) = true ->
  nextToken l =
    if isNumber (peekChar l) && negb (isNumber (lastChar l))
    then (newToken TokenType.Number (fst (readNumber l)),
          readChar (snd (readNumber l)))
    else (newToken (if String.eqb (char l) "+" then TokenType.Sum
                    else TokenType.Sub) (char l),
          readChar l).
Proof.
  intros Hs. unfold nextToken, skipWhitespace.
  assert (Hc : char l = "+"%string \/ char l = "-"%string).
  { unfold isSign in Hs. apply orb_prop in Hs as [H|H];
      apply String.eqb_eq in H; auto. }
  rewrite skipWhitespaceLoop_stable by (destruct Hc as [-> | ->]; reflexivity).
  unfold readTokenType, isSignedNumber.
  destruct Hc as [Hc | Hc]; rewrite Hc; cbn [mapGet TokenString String.eqb];
    simpl;
    destruct (isNumber (peekChar l) && negb (isNumber (lastChar l)));
    simpl; destruct (readNumber l); reflexivity.
Qed.


(** C6.  White space is numeric for [isNumber], which refuses the empty
    string only.  So a sign that has white space before it is an operator
    token, whatever follows it: in "10 + -10" the lexer returns the tokens
    "10 ", "+", "-" and "10", and [parse] throws, and " -5" begins with the
    operator "-"; the number literal of "1 + 2" is "1 " and not "1".  Of
    the claim, "10 + (-10)" evaluates to 0. *)
Theorem sign_after_space_is_not_folded :
  isNumber " " = true
  /\ (forall l : Lexer,
        isSign (char l) = true -> isWhiteSpaceChar (lastChar l) = true ->
        fst (nextToken l)
        = newToken (if String.eqb (char l) "+" then TokenType.Sum
                    else TokenType.Sub) (char l))
  /\ tokens 5 (newLexer "10 + -10")
     = [newToken TokenType.Number "10 "; newToken TokenType.Sum "+";
        newToken TokenType.Sub "-"; newToken TokenType.Number "10";
        eofToken]
  /\ parseText "10 + -10" = Throw "expected an operation got: Number"
  /\ tokens 3 (newLexer " -5")
     = [newToken TokenType.Sub "-"; newToken TokenType.Number "5";
        eofToken]
  /\ tokens 4 (newLexer "1 + 2")
     = [newToken TokenType.Number "1 "; newToken TokenType.Sum "+";
        newToken TokenType.Number "2"; eofToken]
  /\ evaluate "10 + (-10)" = Ok 0%float.
Proof.
  split; [vm_compute; reflexivity|].
  split; [|repeat split; vm_compute; reflexivity].
  intros l Hs Hw. rewrite (nextToken_sign l Hs).
  replace (isNumber (lastChar l)) with true;
    [now rewrite andb_false_r|].
  destruct (lastChar l) as [|c [|]]; try discriminate.
  rewrite isNumber_char, Hw. now rewrite orb_true_r.
Qed.

(** C10.  In "10 -5" the sign has a space before it, which is numeric for
    [isNumber]: the lexer returns the number literal "10 ", the operator
    "-" and the number literal "5", not two number literals, and [parse]
    returns the subtraction, which is 5, where the claim has an error. *)
Theorem sign_after_number_and_space :
  tokens 4 (newLexer "10 -5")
  = [newToken TokenType.Number "10 "; newToken TokenType.Sub "-";
     newToken TokenType.Number "5"; eofToken]
  /\ parseText "10 -5"
     = Ok (compound (identity 10%float) sub (identity 5%float))
  /\ evaluate "10 -5" = Ok 5%float
  /\ (forall msg : string, parseText "10 -5" <> Throw msg).
Proof.
  vm_compute. repeat split. intros msg. discriminate.
Qed.

(** ** Operator priority *)

Lemma Operations_priority (k : TokenType.t) (o : Operation) :
  mapGet TokenType.eqb Operations k = Some o -> 0 <= priority o <= 1.
Proof.
  destruct k; cbn; intros [= <-]; cbn; lia.
Qed.

Section Lookahead.
Context {L : Type} `{ILexer L}.

(** The operand after an operator, when the operator after that does not
    bind tighter: the two operands are combined at once. *)
Lemma parseExpression_combine (fuel : nat) (p : Parser L) (left : Number)
    (o : Operation) :
  mapGet TokenType.eqb Operations (fst (token p)) = Some o ->
  isGroupStart (snd (upcoming p 1)) = false ->
  match mapGet TokenType.eqb Operations (fst (upcoming p 2)) with
  | Some o' => (priority o <? priority o') = false
  | None => True
  end ->
  parseExpression (S (S fuel)) (Some left) p
  = Ok (compound left o (identity (JS.Number (snd (upcoming p 1)))),
        advance 1 p).
Proof.
  intros Ho Hg Hn. rewrite parseExpression_S, Ho. cbv zeta.
  change (token (parserNextToken p)) with (upcoming (parserNextToken p) 0).
  rewrite upcoming_next, Hg, parseExpression_S. cbn [bind].
  change (peekToken (parserNextToken p))
    with (upcoming (parserNextToken p) 1).
  rewrite upcoming_next.
  unfold parseNumber.
  change (token (parserNextToken p)) with (upcoming (parserNextToken p) 0).
  rewrite upcoming_next.
  destruct (mapGet TokenType.eqb Operations (fst (upcoming p 2)));
    [rewrite Hn|]; reflexivity.
Qed.

(** The operand after an operator, when the operator after that binds
    tighter: that operator takes the operand and the one after it first. *)
Lemma parseExpression_lookahead (fuel : nat) (p : Parser L) (left : Number)
    (o o' : Operation) :
  mapGet TokenType.eqb Operations (fst (token p)) = Some o ->
  isGroupStart (snd (upcoming p 1)) = false ->
  mapGet TokenType.eqb Operations (fst (upcoming p 2)) = Some o' ->
  (priority o <? priority o') = true ->
  isGroupStart (snd (upcoming p 3)) = false ->
  parseExpression (S (S (S fuel))) (Some left) p
  = Ok (compound left o
          (compound (identity (JS.Number (snd (upcoming p 1)))) o'
             (identity (JS.Number (snd (upcoming p 3))))),
        advance 3 p).
Proof.
  intros Ho Hg Ho' Hlt Hg'. rewrite parseExpression_S, Ho. cbv zeta.
  change (token (parserNextToken p)) with (upcoming (parserNextToken p) 0).
  rewrite upcoming_next, Hg, parseExpression_S. cbn [bind].
  change (peekToken (parserNextToken p))
    with (upcoming (parserNextToken p) 1).
  rewrite upcoming_next, Ho', Hlt. cbv zeta.
  rewrite (parseExpression_combine fuel _ _ o').
  - cbn [bind]. unfold parseNumber.
    change (token (parserNextToken p)) with (upcoming (parserNextToken p) 0).
    rewrite !upcoming_next. reflexivity.
  - change (token (parserNextToken (parserNextToken p)))
      with (upcoming (advance 2 p) 0).
    now rewrite upcoming_advance.
  - now rewrite !upcoming_next.
  - rewrite !upcoming_next.
    destruct (mapGet TokenType.eqb Operations (fst (upcoming p 4)))
      as [o''|] eqn:Eo; [|exact I].
    apply Operations_priority in Eo. apply Operations_priority in Ho'.
    apply Operations_priority in Ho. apply Z.ltb_lt in Hlt.
    apply Z.ltb_ge. lia.
Qed.

End Lookahead.

(** C5.  The parser respects the priorities in the two expressions of the
    claim, and loses them further on.  After a number it looks at the next
    operator, and one of strictly greater priority takes that number and
    the next one first.  After a group it looks at no operator at all: the
    group is the right operand, whatever follows, so that "1 + (2 + 3) * 4"
    is (1 + (2 + 3)) * 4 = 24 and not 21.  And the operator taken first
    takes one operand only: in "1 + 2 * 3 * 4" the second product has the
    whole sum to its left, which gives (1 + 2 * 3) * 4 = 28 and not 25. *)
Theorem priority_is_lost :
  evaluate "12 * 199 - 5" = Ok 2383%float
  /\ evaluate "111 - 156 * 2" = Ok (-201)%float
  /\ (forall (L : Type) (IL : ILexer L) (fuel : nat) (p : Parser L)
             (left : Number) (o o' : Operation),
         mapGet TokenType.eqb Operations (fst (token p)) = Some o ->
         isGroupStart (snd (upcoming p 1)) = false ->
         mapGet TokenType.eqb Operations (fst (upcoming p 2)) = Some o' ->
         (priority o <? priority o')%Z = true ->
         isGroupStart (snd (upcoming p 3)) = false ->
         parseExpression (S (S (S fuel))) (Some left) p
         = Ok (compound left o
                 (compound (identity (JS.Number (snd (upcoming p 1)))) o'
                    (identity (JS.Number (snd (upcoming p 3))))),
               advance 3 p))
  /\ (forall (L : Type) (IL : ILexer L) (fuel : nat) (p : Parser L)
             (left : Number) (o : Operation),
         mapGet TokenType.eqb Operations (fst (token p)) = Some o ->
         isGroupStart (snd (upcoming p 1)) = true ->
         parseExpression (S fuel) (Some left) p
         = ' (g, q) <- parseGroup fuel (parserNextToken p) ;;
           Ok (compound left o g, q))
  /\ parseText "1 + (2 + 3) * 4"
     = Ok (compound
             (compound (identity 1%float) sum
                (compoundFromValues 2%float sum 3%float))
             mul (identity 4%float))
  /\ evaluate "1 + (2 + 3) * 4" = Ok 24%float
  /\ parseText "1 + 2 * 3 * 4"
     = Ok (compound
             (compound (identity 1%float) sum
                (compoundFromValues 2%float mul 3%float))
             mul (identity 4%float))
  /\ evaluate "1 + 2 * 3 * 4" = Ok 28%float.
Proof.
  do 2 (split; [vm_compute; reflexivity|]).
  split; [intros L IL fuel p left o o'; apply parseExpression_lookahead|].
  split; [|repeat split; vm_compute; reflexivity].
  intros L IL fuel p left o Ho Hg. rewrite parseExpression_S, Ho. cbv zeta.
  change (token (parserNextToken p)) with (upcoming (parserNextToken p) 0).
  now rewrite upcoming_next, Hg.
Qed.

(** ** Parentheses in the rendering *)

(** What [numToString] does with the two children: the right one is wrapped
    by the rule; the left one is wrapped by the rule only when the right one
    is not wrapped. *)
Lemma numToString_compound (a : Number) (o : Operation) (b : Number) :
  numToString (compound a o b) =
    symbol o
      (if bindsLooser a o && negb (bindsLooser b o)
       then parens (numToString a) else numToString a)
      (if bindsLooser b o then parens (numToString b) else numToString b).
Proof.
  unfold bindsLooser. cbn [numToString].
  destruct (negb (operationPriority b =? -1)
            && (operationPriority b <? priority o));
    destruct (negb (operationPriority a =? -1)
              && (operationPriority a <? priority o)); reflexivity.
Qed.

(** C2 holds of the right child, and of the left child next to a right child
    that is not wrapped, as in the two renderings of the tests; it fails
    when both children bind less tightly than their parent: the first
    [return] of the rendering leaves with the right child wrapped only, and
    (1 + 2) * (3 + 4) is rendered as "1 + 2 * (3 + 4)". *)
Theorem numToString_wraps_one_child :
  numToString
    (compound (compoundFromValues 1%float sum 2%float) mul
       (compoundFromValues 3%float sum 4%float))
  = "1 + 2 * (3 + 4)"%string
  /\ numToString
       (compound (compoundFromValues 294105%float sub 78522%float) mul
          (identity 19538%float))
     = "(294105 - 78522) * 19538"%string
  /\ numToString
       (compound (identity 19538%float) mul
          (compoundFromValues 294105%float sub 78522%float))
     = "19538 * (294105 - 78522)"%string
  /\ (forall (a : Number) (o : Operation) (b : Number),
         numToString (compound a o b) =
           symbol o
             (if bindsLooser a o && negb (bindsLooser b o)
              then parens (numToString a) else numToString a)
             (if bindsLooser b o
              then parens (numToString b) else numToString b)).
Proof.
  split; [vm_compute; reflexivity|].
  split; [vm_compute; reflexivity|].
  split; [vm_compute; reflexivity|].
  exact numToString_compound.
Qed.

Local Open Scope string_scope.

(** ** The lexer on a known input *)

Lemma length_app (a b : string) :
  String.length (a ++ b) = (String.length a + String.length b)%nat.
Proof. induction a; simpl; congruence. Qed.

Lemma length_String (c : ascii) (s : string) :
  String.length (String c s) = S (String.length s).
Proof. reflexivity. Qed.

Lemma app_assoc (a b c : string) : (a ++ b) ++ c = a ++ (b ++ c).
Proof. induction a; simpl; congruence. Qed.

Lemma app_empty_r (a : string) : a ++ "" = a.
Proof. induction a; simpl; congruence. Qed.

Lemma get_app_r (a b : string) (n : nat) :
  String.get (String.length a + n) (a ++ b) = String.get n b.
Proof. induction a; simpl; auto. Qed.

Lemma substring_app (a b c : string) :
  String.substring (String.length a) (String.length b) (a ++ b ++ c) = b.
Proof.
  induction a as [|x a IH]; simpl; [|exact IH].
  induction b as [|y b IHb]; simpl.
  - destruct c; reflexivity.
  - now rewrite IHb.
Qed.

Lemma lexAt_newLexer (s : string) : lexAt (newLexer s) "" s.
Proof. split; [apply newLexer_wf | split; reflexivity]. Qed.

Lemma lexAt_char (l : Lexer) (pre suf : string) :
  lexAt l pre suf -> char l = headChar suf.
Proof.
  intros ([_ Hc] & Hi & Hp). rewrite Hc, Hi, Hp, length_app.
  destruct suf as [|c suf]; simpl.
  - replace (Nat.leb _ _) with true; [reflexivity|].
    symmetry. apply Nat.leb_le. lia.
  - replace (Nat.leb _ _) with false
      by (symmetry; apply Nat.leb_gt; lia).
    unfold charAt.
    rewrite <- (Nat.add_0_r (String.length pre)), get_app_r. reflexivity.
Qed.

Lemma lexAt_peekChar (l : Lexer) (pre suf : string) :
  lexAt l pre suf -> peekChar l = headChar (tail suf).
Proof.
  intros ([Hr _] & Hi & Hp). unfold peekChar.
  rewrite Hr, Hi, Hp, length_app.
  destruct suf as [|c [|d suf]]; simpl.
  - replace (Nat.leb _ _) with true; [reflexivity|].
    symmetry. apply Nat.leb_le. lia.
  - replace (Nat.leb _ _) with true; [reflexivity|].
    symmetry. apply Nat.leb_le. lia.
  - replace (Nat.leb _ _) with false
      by (symmetry; apply Nat.leb_gt; lia).
    unfold charAt.
    replace (S (String.length pre)) with (String.length pre + 1)%nat by lia.
    rewrite get_app_r. reflexivity.
Qed.

Lemma lexAt_lastChar (l : Lexer) (pre suf : string) (c : ascii) :
  lexAt l (pre ++ String c "") suf -> lastChar l = String c "".
Proof.
  intros (_ & Hi & Hp). unfold lastChar.
  rewrite Hi, Hp, length_app. simpl.
  replace (Nat.eqb _ 0) with false
    by (symmetry; apply Nat.eqb_neq; lia).
  unfold charAt. rewrite app_assoc.
  replace (String.length pre + 1 - 1)%nat
    with (String.length pre + 0)%nat by lia.
  rewrite get_app_r. reflexivity.
Qed.

Lemma lexAt_readChar (l : Lexer) (pre suf : string) (c : ascii) :
  lexAt l pre (String c suf) -> lexAt (readChar l) (pre ++ String c "") suf.
Proof.
  intros ([Hr _] & Hi & Hp).
  split; [apply readChar_wf | split].
  - simpl. rewrite Hi, app_assoc. reflexivity.
  - simpl. rewrite Hr, Hp, length_app. simpl. lia.
Qed.

Lemma lexAt_atEnd (l : Lexer) (pre : string) (k : nat) :
  lexAt l pre "" -> lexerToken k l = eofToken.
Proof.
  intros (Hw & Hi & Hp). apply lexerToken_atEnd; [assumption|].
  rewrite Hi, Hp, length_app. simpl. lia.
Qed.

(** The loop of [readNumber] runs to the last numeric character. *)
Lemma readNumberLoop_run (ns : string) :
  forall (fuel : nat) (l : Lexer) (pre suf : string) (c : ascii),
    lexAt l pre (String c (ns ++ suf)) ->
    allNumeric ns = true -> isNumber (headChar suf) = false ->
    (String.length ns <= fuel)%nat ->
    exists (pre' : string) (c' : ascii),
      pre ++ String c ns = pre' ++ String c' ""
      /\ lexAt (readNumberLoop fuel l) pre' (String c' suf).
Proof.
  induction ns as [|n ns IH]; intros fuel l pre suf c Hat Hn Hs Hf.
  - cbn [append] in Hat. exists pre, c. split; [reflexivity|].
    replace (readNumberLoop fuel l) with l; [exact Hat|].
    destruct fuel; simpl; [reflexivity|].
    rewrite (lexAt_peekChar _ _ _ Hat). cbn [tail]. now rewrite Hs.
  - destruct fuel as [|fuel]; [simpl in Hf; lia|].
    apply andb_prop in Hn as [Hn0 Hn]. cbn [readNumberLoop].
    rewrite (lexAt_peekChar _ _ _ Hat). cbn [tail append headChar].
    rewrite Hn0.
    apply lexAt_readChar in Hat.
    destruct (IH fuel _ _ _ _ Hat Hn Hs ltac:(simpl in Hf; lia))
      as (pre' & c' & Heq & Hat').
    exists pre', c'. split; [|exact Hat'].
    rewrite <- Heq, app_assoc. reflexivity.
Qed.

Lemma readNumber_run (l : Lexer) (pre ns suf : string) (c : ascii) :
  lexAt l pre (String c (ns ++ suf)) ->
  allNumeric ns = true -> isNumber (headChar suf) = false ->
  fst (readNumber l) = String c ns
  /\ lexAt (readChar (snd (readNumber l))) (pre ++ String c ns) suf.
Proof.
  intros Hat Hn Hs. unfold readNumber. cbn [fst snd].
  destruct (readNumberLoop_run ns (String.length (input l)) l pre suf c
              Hat Hn Hs) as (pre' & c' & Heq & Hat').
  { destruct Hat as (_ & -> & _).
    rewrite length_app, length_String, length_app. lia. }
  split.
  - destruct Hat' as ([Hr _] & Hi & Hp). destruct Hat as (_ & Hi0 & Hp0).
    rewrite Hr, Hp, Hp0. unfold slice.
    destruct (readNumberLoop_step (String.length (input l)) l) as (-> & _).
    rewrite Hi0.
    replace (S (String.length pre') - String.length pre)%nat
      with (String.length (String c ns)).
    + apply (substring_app pre (String c ns) suf).
    + apply (f_equal String.length) in Heq.
      rewrite !length_app in Heq. cbn [String.length] in Heq |- *. lia.
  - rewrite Heq. now apply lexAt_readChar.
Qed.

(** ** Digits and operators: the lexer *)

Lemma digit_facts (c : ascii) :
  isDigitChar (String c "") = true ->
  isNumber (String c "") = true
  /\ mapGet String.eqb TokenString (String c "") = None
  /\ isSkipped (String c "") = false
  /\ JS.isWhiteSpace c = false
  /\ (forall s, isGroupStart (String c s) = false).
Proof.
  destruct c as [[] [] [] [] [] [] [] []]; try discriminate; intros _;
    repeat split; vm_compute; reflexivity.
Qed.

Lemma isDigits_cons (s : string) :
  isDigits s = true ->
  exists (d : ascii) (ds : string),
    s = String d ds /\ isDigitChar (String d "") = true
    /\ forallb (fun c => isDigitChar (String c ""))
         (list_ascii_of_string ds) = true.
Proof.
  destruct s as [|d ds]; [discriminate|].
  unfold isDigits. cbn [negb String.eqb andb list_ascii_of_string forallb].
  intros [Hd Hds]%andb_prop. now exists d, ds.
Qed.

Lemma list_ascii_app (a b : string) :
  list_ascii_of_string (a ++ b)
  = (list_ascii_of_string a ++ list_ascii_of_string b)%list.
Proof. induction a; simpl; congruence. Qed.

Lemma digits_allNumeric (ds trail : string) :
  forallb (fun c => isDigitChar (String c "")) (list_ascii_of_string ds)
  = true ->
  trail = "" \/ trail = " " ->
  allNumeric (ds ++ trail) = true.
Proof.
  intros Hds Ht. unfold allNumeric.
  rewrite list_ascii_app, forallb_app. apply andb_true_intro. split.
  - induction ds as [|d ds IH]; [reflexivity|].
    cbn [list_ascii_of_string forallb] in *.
    apply andb_prop in Hds as [Hd Hds].
    now rewrite (proj1 (digit_facts d Hd)), IH.
  - destruct Ht as [-> | ->]; reflexivity.
Qed.

(** A run of digits, with the space after it if there is one, is one
    number-literal token. *)
Lemma nextToken_number (l : Lexer) (pre ds trail suf : string) (d : ascii) :
  lexAt l pre (String d (ds ++ trail ++ suf)) ->
  isDigitChar (String d "") = true ->
  forallb (fun c => isDigitChar (String c "")) (list_ascii_of_string ds)
  = true ->
  trail = "" \/ trail = " " ->
  isNumber (headChar suf) = false ->
  fst (nextToken l) = newToken TokenType.Number (String d (ds ++ trail))
  /\ lexAt (snd (nextToken l)) (pre ++ String d (ds ++ trail)) suf.
Proof.
  intros Hat Hd Hds Ht Hs.
  destruct (digit_facts d Hd) as (Hn & Hk & Hsk & _).
  pose proof (lexAt_char _ _ _ Hat) as Hc. cbn [headChar] in Hc.
  rewrite <- app_assoc in Hat.
  destruct (readNumber_run l pre (ds ++ trail) suf d Hat
              (digits_allNumeric ds trail Hds Ht) Hs) as [Hv Hat'].
  unfold nextToken, skipWhitespace.
  rewrite skipWhitespaceLoop_stable by now rewrite Hc.
  rewrite Hc, Hk, Hn.
  destruct (readNumber l) as [v l']. cbn [fst snd] in *. subst v.
  split; [reflexivity | exact Hat'].
Qed.

(** A space before a token is skipped. *)
Lemma nextToken_space (l : Lexer) (pre suf : string) :
  lexAt l pre (String " " suf) -> isSkipped (headChar suf) = false ->
  nextToken l = nextToken (readChar l).
Proof.
  intros Hat Hs.
  pose proof (lexAt_char _ _ _ Hat) as Hc. cbn [headChar] in Hc.
  pose proof (lexAt_char _ _ _ (lexAt_readChar _ _ _ _ Hat)) as Hc'.
  assert (Hlen : exists f, String.length (input l) = S f).
  { destruct Hat as (_ & -> & _). rewrite length_app, length_String.
    eexists. rewrite Nat.add_succ_r. reflexivity. }
  destruct Hlen as [f Hf].
  unfold nextToken, skipWhitespace.
  change (input (readChar l)) with (input l). rewrite Hf.
  rewrite (skipWhitespaceLoop_stable (S f) (readChar l))
    by now rewrite Hc'.
  cbn [skipWhitespaceLoop]. rewrite Hc.
  change (isSkipped " ") with true. cbv iota.
  change (String.eqb " " (String "010" "")) with false. cbv iota.
  rewrite skipWhitespaceLoop_stable by now rewrite Hc'.
  reflexivity.
Qed.

(** An operator after a space is an operator token. *)
Lemma nextToken_operator (l : Lexer) (pre suf : string) (k : OpName) :
  lexAt l (pre ++ " ") (String (opChar k) suf) ->
  fst (nextToken l) = opToken k
  /\ lexAt (snd (nextToken l)) ((pre ++ " ") ++ String (opChar k) "") suf.
Proof.
  intros Hat.
  pose proof (lexAt_char _ _ _ Hat) as Hc. cbn [headChar] in Hc.
  pose proof (lexAt_lastChar _ _ _ _ Hat) as Hl.
  apply lexAt_readChar in Hat.
  assert (Hn : nextToken l = (opToken k, readChar l)).
  { destruct k; cbn [opChar] in Hc.
    - rewrite nextToken_sign by now rewrite Hc.
      rewrite Hl, Hc. change (isNumber " ") with true.
      now rewrite andb_false_r.
    - rewrite nextToken_sign by now rewrite Hc.
      rewrite Hl, Hc. change (isNumber " ") with true.
      now rewrite andb_false_r.
    - unfold nextToken, skipWhitespace, readTokenType, isSignedNumber.
      rewrite skipWhitespaceLoop_stable by now rewrite Hc.
      rewrite Hc. reflexivity.
    - unfold nextToken, skipWhitespace, readTokenType, isSignedNumber.
      rewrite skipWhitespaceLoop_stable by now rewrite Hc.
      rewrite Hc. reflexivity. }
  rewrite Hn. split; [reflexivity | exact Hat].
Qed.

Lemma opChar_not_number (k : OpName) :
  isNumber (String (opChar k) "") = false.
Proof. destruct k; vm_compute; reflexivity. Qed.

(** ** Digits and operators: the parser *)

(** The text of a number-literal token, the digits and the space after
    them if there is one: [Number] does not see the space, and no group
    starts with a digit. *)
Lemma digits_text (ds s : string) :
  isDigits ds = true -> s = ds \/ s = ds ++ " " ->
  JS.Number s = JS.Number ds /\ isGroupStart s = false.
Proof.
  intros (d & ds' & -> & Hd & _)%isDigits_cons Hs.
  destruct (digit_facts d Hd) as (_ & _ & _ & Hw & Hg).
  destruct Hs as [-> | ->]; (split; [|apply Hg]); [reflexivity|].
  unfold JS.Number. f_equal.
  unfold JS.trim. rewrite list_ascii_app.
  cbn [list_ascii_of_string JS.dropWhile app]. rewrite Hw.
  change (d :: (list_ascii_of_string ds' ++ [" "%char]))%list
    with ((d :: list_ascii_of_string ds') ++ [" "%char])%list.
  rewrite rev_app_distr. reflexivity.
Qed.

Lemma opToken_facts (k : OpName) :
  TokenType.eqb (fst (opToken k)) TokenType.EOF = false
  /\ isGroupStart (snd (opToken k)) = false
  /\ mapGet TokenType.eqb Operations (fst (opToken k))
     = Some (operationOf k).
Proof. destruct k; repeat split. Qed.

(** ** Rendering and parsing back *)

Lemma symbol_operationOf (k : OpName) (x y : string) :
  symbol (operationOf k) x y = x ++ " " ++ String (opChar k) (" " ++ y).
Proof. destruct k; reflexivity. Qed.

Lemma keepsOrder_bare (t : Number) (k : OpName) :
  keepsOrder t k ->
  negb (operationPriority t =? -1)%Z
  && (operationPriority t <? priority (operationOf k))%Z = false.
Proof.
  destruct t as [a | a o b]; cbn [keepsOrder operationPriority].
  - reflexivity.
  - intros Hle. apply andb_false_intro2, Z.ltb_ge, Hle.
Qed.

(** ** More fuel changes nothing *)

Section FuelMonotone.
Context {L : Type} `{ILexer L}.

Lemma bind_mono {A B} (r r' : Result A) (k k' : A -> Result B) :
  (r <> Timeout -> r' = r) ->
  (forall a, r = Ok a -> k a <> Timeout -> k' a = k a) ->
  bind r k <> Timeout -> bind r' k' = bind r k.
Proof.
  intros Hr Hk Hb. destruct r as [a|msg|].
  - rewrite Hr by discriminate. cbn [bind] in *. now apply Hk.
  - rewrite Hr by discriminate. reflexivity.
  - now contradiction Hb.
Qed.

(** A method that ended, in a value or in an error, ends the same way on
    any larger fuel. *)
Lemma parser_mono (fuel : nat) :
  (forall fuel' last p,
      (fuel <= fuel')%nat -> parseExpression fuel last p <> Timeout ->
      parseExpression fuel' last p = parseExpression fuel last p)
  /\ (forall fuel' p,
        (fuel <= fuel')%nat -> parseGroup fuel p <> Timeout ->
        parseGroup fuel' p = parseGroup fuel p)
  /\ (forall fuel' d g p,
        (fuel <= fuel')%nat -> parseGroupLoop fuel d g p <> Timeout ->
        parseGroupLoop fuel' d g p = parseGroupLoop fuel d g p).
Proof.
  induction fuel as [|fuel (IHe & IHg & IHl)].
  { repeat split; intros; now contradiction. }
  repeat split.
  - intros [|fuel'] last p Hle; [lia|]. apply le_S_n in Hle.
    rewrite !parseExpression_S.
    destruct last as [last|]; [|reflexivity].
    destruct (mapGet TokenType.eqb Operations (fst (token p)));
      [|reflexivity].
    cbv zeta. destruct (isGroupStart _).
    + apply bind_mono; [now apply IHg | reflexivity].
    + apply bind_mono; [now apply IHe|].
      intros [nextNum p1] _.
      destruct (mapGet TokenType.eqb Operations (fst (peekToken p1)));
        [|reflexivity].
      destruct (_ <? _)%Z; [|reflexivity].
      cbv zeta. apply bind_mono; [now apply IHe | reflexivity].
  - intros [|fuel'] p Hle; [lia|]. apply le_S_n in Hle.
    rewrite !parseGroup_S.
    destruct (mapGet String.eqb GroupDelimiters (snd (token p)));
      [|reflexivity].
    cbv zeta. apply bind_mono; [now apply IHl | reflexivity].
  - intros [|fuel'] d g p Hle; [lia|]. apply le_S_n in Hle.
    rewrite !parseGroupLoop_S.
    destruct (String.eqb (snd (token p)) d); [reflexivity|].
    apply bind_mono; [now apply IHe|].
    intros [g1 p1] _. now apply IHl.
Qed.

Lemma parseLoop_mono (fuel : nat) :
  forall fuel' p,
    (fuel <= fuel')%nat -> parseLoop fuel p <> Timeout ->
    parseLoop fuel' p = parseLoop fuel p.
Proof.
  induction fuel as [|fuel IH]; intros fuel' p Hle Hne;
    [now contradiction Hne|].
  destruct fuel' as [|fuel']; [lia|]. apply le_S_n in Hle.
  cbn [parseLoop] in *.
  destruct (TokenType.eqb (fst (token p)) TokenType.EOF); [reflexivity|].
  revert Hne. apply bind_mono.
  - unfold parseValue. destruct (isGroupStart _);
      now apply (parser_mono fuel).
  - intros [v p1] _. now apply IH.
Qed.

Lemma parse_mono (fuel fuel' : nat) (p : Parser L) :
  (fuel <= fuel')%nat -> parse fuel p <> Timeout ->
  parse fuel' p = parse fuel p.
Proof.
  intros Hle. unfold parse. apply bind_mono; [|reflexivity].
  now apply parseLoop_mono.
Qed.

End FuelMonotone.

(** A result [parse] reaches on some fuel is the result of [parseText]. *)
Lemma parseText_fuel (s : string) (fuel : nat) (r : Result Number) :
  parse fuel (newParser (newLexer s)) = r -> r <> Timeout ->
  parseText s = r.
Proof.
  intros Hr Hne. pose proof (parseText_terminates s) as Ht.
  unfold parseText in *.
  set (F := (2 * String.length s + 3)%nat) in *.
  rewrite <- Hr in Hne.
  rewrite <- (parse_mono F (Nat.max F fuel)) by (auto; lia).
  rewrite <- Hr. apply parse_mono; [lia | assumption].
Qed.

(** ** Expressions with parentheses: the lexer *)

Lemma lexable_tail (x : Lexeme) (r : list Lexeme) :
  lexable (x :: r) -> lexable r.
Proof. destruct x; cbn [lexable]; tauto. Qed.

Lemma spell_head (ls : list Lexeme) :
  lexable ls ->
  isSkipped (headChar (spell ls)) = false
  /\ (match ls with LNum _ :: _ => True
      | _ => isNumber (headChar (spell ls)) = false end).
Proof.
  destruct ls as [|[ds | k | |] r]; cbn [lexable spell].
  - intros _. split; reflexivity.
  - intros ((d & ds' & -> & Hd & _)%isDigits_cons & _).
    split; [|exact I]. cbn [append headChar]. apply (digit_facts d Hd).
  - intros _. cbn [headChar]. split; [|apply opChar_not_number].
    destruct k; reflexivity.
  - intros _. split; reflexivity.
  - intros _. split; reflexivity.
Qed.

Lemma nextToken_paren (l : Lexer) (pre suf : string) (c : ascii)
    (k : TokenType.t) :
  lexAt l pre (String c suf) ->
  (c = "("%char /\ k = TokenType.StartParenthesis)
  \/ (c = ")"%char /\ k = TokenType.EndParenthesis) ->
  nextToken l = (newToken k (String c ""), readChar l).
Proof.
  intros Hat Hc.
  pose proof (lexAt_char _ _ _ Hat) as Hch. cbn [headChar] in Hch.
  unfold nextToken, skipWhitespace, readTokenType, isSignedNumber.
  destruct Hc as [[-> ->] | [-> ->]];
    (rewrite skipWhitespaceLoop_stable by now rewrite Hch);
    rewrite Hch; reflexivity.
Qed.

(** The lexer standing on a space reads what it reads from after it. *)
Lemma lexReady_space (l : Lexer) (pre : string) (ls : list Lexeme) :
  lexAt l pre (" " ++ spell ls) -> lexable ls ->
  nextToken l = nextToken (readChar l)
  /\ lexAt (readChar l) (pre ++ " ") (spell ls).
Proof.
  intros Hat Hl. split.
  - apply (nextToken_space l pre _ Hat), (spell_head ls Hl).
  - now apply lexAt_readChar in Hat.
Qed.

Lemma lexReady_step (l : Lexer) (x : Lexeme) (r : list Lexeme) :
  lexReady l (x :: r) -> lexable (x :: r) ->
  fst (nextToken l) = lexemeToken x r /\ lexReady (snd (nextToken l)) r.
Proof.
  intros (pre & sp & Hat & Hsp & Hop) Hl.
  (* the space before the lexeme, if any, is skipped *)
  assert (Hgo : exists l1 pre1,
             nextToken l = nextToken l1 /\ lexAt l1 pre1 (spell (x :: r))
             /\ match x with
                | LOp _ => exists pre0, pre1 = pre0 ++ " "
                | _ => True
                end).
  { destruct Hsp as [-> | ->].
    - exists l, pre. split; [reflexivity|]. split; [exact Hat|].
      destruct x; auto. destruct Hop as [Hop | Hop]; [discriminate|auto].
    - destruct (lexReady_space l pre _ Hat Hl) as [Hn Hat1].
      exists (readChar l), (pre ++ " "). split; [exact Hn|].
      split; [exact Hat1|]. destruct x; auto. now exists pre. }
  destruct Hgo as (l1 & pre1 & -> & Hat1 & Hpre1). clear Hat Hop Hsp.
  pose proof (lexable_tail x r Hl) as Hlr.
  destruct x as [ds | k | |]; cbn [spell lexemeToken] in *.
  - (* a number *)
    destruct Hl as ((d & ds' & -> & Hd & Hds)%isDigits_cons & Hnn & _).
    assert (Hsp : space r = "" \/ space r = " ").
    { destruct r as [|[] r]; cbn [space]; auto. }
    assert (Hnum : isNumber (headChar (spell r)) = false).
    { destruct r as [|[] r]; try contradiction;
        apply (spell_head _ Hlr). }
    cbn [append] in Hat1. rewrite <- app_assoc in Hat1.
    rewrite app_assoc in Hat1.
    destruct (nextToken_number l1 pre1 ds' (space r) (spell r) d Hat1 Hd
                Hds Hsp Hnum) as [Ht Hat2].
    split; [exact Ht|].
    exists (pre1 ++ String d (ds' ++ space r)), "".
    split; [exact Hat2|]. split; [now left|].
    destruct r as [|[] r]; auto. right. cbn [space].
    exists (pre1 ++ String d ds').
    now rewrite !app_assoc.
  - (* an operator *)
    destruct Hpre1 as [pre0 ->].
    destruct (nextToken_operator l1 pre0 _ k Hat1) as [Ht Hat2].
    split; [exact Ht|].
    exists ((pre0 ++ " ") ++ String (opChar k) ""), " ".
    split; [exact Hat2|]. split; [now right|].
    destruct r as [|[] r]; auto.
  - (* an opening parenthesis *)
    rewrite (nextToken_paren l1 pre1 _ "(" TokenType.StartParenthesis Hat1)
      by (left; now split).
    split; [reflexivity|]. cbn [snd].
    exists (pre1 ++ "("), "". split; [now apply lexAt_readChar|].
    split; [now left|]. destruct Hl as [Hno _].
    destruct r as [|[] r]; auto. contradiction.
  - (* a closing parenthesis *)
    rewrite (nextToken_paren l1 pre1 _ ")" TokenType.EndParenthesis Hat1)
      by (right; now split).
    split; [reflexivity|]. cbn [snd].
    exists (pre1 ++ ")"), (space r). split; [now apply lexAt_readChar|].
    split; [destruct r as [|[] r]; cbn [space]; auto|].
    destruct r as [|[] r]; auto.
Qed.

Lemma lexReady_end (l : Lexer) (i : nat) :
  lexReady l [] -> lexerToken i l = eofToken.
Proof.
  intros (pre & sp & Hat & [-> | ->] & _); cbn [spell] in Hat.
  - now apply (lexAt_atEnd l pre).
  - destruct (lexReady_space l pre [] Hat I) as [Hn Hat1].
    cbn [spell] in Hat1.
    rewrite <- (lexAt_atEnd (readChar l) _ i Hat1).
    destruct i; cbn [lexerToken lexerNextToken Lexer_ILexer];
      now rewrite Hn.
Qed.

(** The tokens of a text are those of its lexemes. *)
Lemma lexerToken_lexemes (ls : list Lexeme) :
  forall (l : Lexer) (i : nat),
    lexReady l ls -> lexable ls ->
    lexerToken i l = nth i (lexTokens ls) eofToken.
Proof.
  induction ls as [|x r IH]; intros l i Hr Hl.
  - rewrite (lexReady_end l i Hr). now destruct i.
  - destruct (lexReady_step l x r Hr Hl) as [Ht Hr'].
    destruct i as [|i]; cbn [lexerToken lexTokens nth lexerNextToken
                               Lexer_ILexer].
    + exact Ht.
    + apply IH; [exact Hr' | exact (lexable_tail x r Hl)].
Qed.

Lemma lexReady_newLexer (ls : list Lexeme) :
  match ls with LOp _ :: _ => False | _ => True end ->
  lexReady (newLexer (spell ls)) ls.
Proof.
  intros Hs. exists "", "". split; [apply lexAt_newLexer|].
  split; [now left|]. destruct ls as [|[] r]; auto. contradiction.
Qed.

(** ** Expressions with parentheses: the parser *)

Lemma numToken_facts (ds : string) (t : Token) :
  tokenOf (LNum ds) t ->
  JS.Number (snd t) = JS.Number ds
  /\ isGroupStart (snd t) = false
  /\ String.eqb (snd t) ")" = false
  /\ TokenType.eqb (fst t) TokenType.EOF = false.
Proof.
  intros (Hd & Hk & Ht).
  destruct (digits_text ds _ Hd Ht) as [Hv Hg].
  destruct (isDigits_cons ds Hd) as (d & ds' & Eds & Hd0 & _).
  split; [exact Hv|]. split; [exact Hg|]. split; [|now rewrite Hk].
  destruct Ht as [-> | ->]; subst ds; cbn [append String.eqb];
    destruct (digit_facts d Hd0) as (_ & Hk' & _);
    destruct (Ascii.eqb_spec d ")") as [-> |]; [discriminate | reflexivity
                                               | discriminate | reflexivity].
Qed.

Lemma opToken_not_closer (k : OpName) :
  String.eqb (snd (opToken k)) ")" = false.
Proof. now destruct k. Qed.

Section ReachFacts.
Context {L : Type} `{ILexer L}.

Lemma Ahead_app (p : Parser L) (i : nat) (l1 l2 : list Lexeme) :
  Ahead p i (l1 ++ l2)%list
  <-> Ahead p i l1 /\ Ahead p (i + List.length l1) l2.
Proof.
  revert i; induction l1 as [|x l1 IH]; intros i; cbn [Ahead app List.length].
  - rewrite Nat.add_0_r. tauto.
  - rewrite IH. replace (S i + List.length l1)%nat
      with (i + S (List.length l1))%nat by lia. tauto.
Qed.

Lemma Ahead_shift (p q : Parser L) (i j : nat) (ls : list Lexeme) :
  (forall n, upcoming q (j + n) = upcoming p (i + n)) ->
  Ahead p i ls -> Ahead q j ls.
Proof.
  revert i j; induction ls as [|x r IH]; intros i j Hs; cbn [Ahead];
    [auto|].
  intros [Hx Hr]. split.
  - rewrite <- (Nat.add_0_r j), Hs, Nat.add_0_r. exact Hx.
  - apply (IH (S i) (S j)); [|exact Hr].
    intros n. cbn [Nat.add]. rewrite <- !Nat.add_succ_r. apply Hs.
Qed.

Lemma upcoming_withLast (g : option Number) (p : Parser L) (i : nat) :
  upcoming (withLast g p) i = upcoming p i.
Proof. destruct i as [|[|i]]; reflexivity. Qed.

Lemma next_withLast (g : option Number) (p : Parser L) :
  parserNextToken (withLast g p) = withLast g (parserNextToken p).
Proof.
  unfold parserNextToken, withLast. cbn [lexer last token peekToken].
  now destruct (lexerNextToken (lexer p)).
Qed.

Lemma advance_withLast (g : option Number) (c : nat) (p : Parser L) :
  advance c (withLast g p) = withLast g (advance c p).
Proof.
  revert p; induction c as [|c IH]; intros p; cbn [advance];
    [reflexivity|].
  now rewrite next_withLast, IH.
Qed.

Lemma withLast_last (p : Parser L) : withLast (last p) p = p.
Proof. now destruct p. Qed.

Lemma GroupReach_trans (g1 g2 g3 : option Number) (p1 p2 p3 : Parser L) :
  GroupReach g1 p1 g2 p2 -> GroupReach g2 p2 g3 p3 ->
  GroupReach g1 p1 g3 p3.
Proof.
  intros H12 H23 F' R HR Hne.
  destruct (H23 F' R HR Hne) as [F2 HF2]. exact (H12 F2 R HF2 Hne).
Qed.

Lemma parseExpression_more (F F' : nat) (g : option Number) (p : Parser L)
    (r : Number * Parser L) :
  parseExpression F g p = Ok r -> (F <= F')%nat ->
  parseExpression F' g p = Ok r.
Proof.
  intros Hr Hle. rewrite <- Hr.
  apply (proj1 (parser_mono F)); [assumption|]. now rewrite Hr.
Qed.

Lemma parseGroup_more (F F' : nat) (p : Parser L) (r : Number * Parser L) :
  parseGroup F p = Ok r -> (F <= F')%nat -> parseGroup F' p = Ok r.
Proof.
  intros Hr Hle. rewrite <- Hr.
  apply (proj1 (proj2 (parser_mono F))); [assumption|]. now rewrite Hr.
Qed.

(** One turn of the loop of a group. *)
Lemma GroupReach_step (F0 : nat) (g : option Number) (p q : Parser L)
    (v : Number) :
  String.eqb (snd (token p)) ")" = false ->
  parseExpression F0 g p = Ok (v, q) ->
  GroupReach g p (Some v) (parserNextToken q).
Proof.
  intros Ht He F' R HR Hne. exists (S (Nat.max F0 F')).
  rewrite parseGroupLoop_S, Ht.
  rewrite (parseExpression_more F0 _ g p _ He) by lia. cbn [bind].
  rewrite <- HR. apply (proj2 (proj2 (parser_mono F'))); [lia|].
  now rewrite HR.
Qed.

(** One turn of the loop of [parse], on a token that opens no group. *)
Lemma TopReach_step (F0 : nat) (g : option Number) (p q : Parser L)
    (v : Number) :
  TokenType.eqb (fst (token p)) TokenType.EOF = false ->
  isGroupStart (snd (token p)) = false ->
  parseExpression F0 g (withLast g p) = Ok (v, withLast g q) ->
  TopReach g p (Some v) (parserNextToken q).
Proof.
  intros Ht Hg He F' R HR Hne. exists (S (Nat.max F0 F')).
  cbn [parseLoop]. cbn [withLast token]. rewrite Ht.
  unfold parseValue. cbn [withLast token last]. rewrite Hg.
  change {| lexer := lexer p; last := g; token := token p;
            peekToken := peekToken p |} with (withLast g p).
  rewrite (parseExpression_more F0 _ g _ _ He) by lia. cbn [bind].
  replace (parserNextToken (setLast v (withLast g q)))
    with (withLast (Some v) (parserNextToken q))
    by (now rewrite <- next_withLast).
  rewrite <- HR. apply parseLoop_mono; [lia|]. now rewrite HR.
Qed.

(** One turn of the loop of [parse], on a group. *)
Lemma TopReach_group (F0 : nat) (g : option Number) (p q : Parser L)
    (v : Number) :
  TokenType.eqb (fst (token p)) TokenType.EOF = false ->
  isGroupStart (snd (token p)) = true ->
  parseGroup F0 (withLast g p) = Ok (v, withLast g q) ->
  TopReach g p (Some v) (parserNextToken q).
Proof.
  intros Ht Hg He F' R HR Hne. exists (S (Nat.max F0 F')).
  cbn [parseLoop]. cbn [withLast token]. rewrite Ht.
  unfold parseValue. cbn [withLast token last]. rewrite Hg.
  change {| lexer := lexer p; last := g; token := token p;
            peekToken := peekToken p |} with (withLast g p).
  rewrite (parseGroup_more F0 _ _ _ He) by lia. cbn [bind].
  replace (parserNextToken (setLast v (withLast g q)))
    with (withLast (Some v) (parserNextToken q))
    by (now rewrite <- next_withLast).
  rewrite <- HR. apply parseLoop_mono; [lia|]. now rewrite HR.
Qed.

Lemma TopReach_trans (g1 g2 g3 : option Number) (p1 p2 p3 : Parser L) :
  TopReach g1 p1 g2 p2 -> TopReach g2 p2 g3 p3 -> TopReach g1 p1 g3 p3.
Proof.
  intros H12 H23 F' R HR Hne.
  destruct (H23 F' R HR Hne) as [F2 HF2]. exact (H12 F2 R HF2 Hne).
Qed.

End ReachFacts.

Section Steps.
Context {L : Type} `{ILexer L}.

Lemma upcoming_0 (p : Parser L) : token p = upcoming p 0.
Proof. reflexivity. Qed.

(** An operator and the number after it, the next token not binding
    tighter. *)
Lemma step_operand (p : Parser L) (t : Number) (k : OpName) (ds : string) :
  tokenOf (LOp k) (upcoming p 0) -> tokenOf (LNum ds) (upcoming p 1) ->
  calm (operationOf k) (upcoming p 2) ->
  parseExpression 2 (Some t) p
  = Ok (compound t (operationOf k) (identity (JS.Number ds)), advance 1 p).
Proof.
  intros Hk Hn Hc. cbn [tokenOf] in Hk.
  destruct (opToken_facts k) as (_ & _ & Ho). rewrite <- Hk in Ho.
  destruct (numToken_facts ds _ Hn) as (Hv & Hg & _).
  rewrite (parseExpression_combine 0 p t (operationOf k) Ho Hg Hc).
  now rewrite Hv.
Qed.

(** A group, given what its loop comes to. *)
Lemma group_body (F : nat) (p q : Parser L) (G : Number) :
  tokenOf LOpen (upcoming p 0) ->
  parseGroupLoop F ")" None (advance 1 p) = Ok (Some G, q) ->
  parseGroup (S F) p = Ok (G, q).
Proof.
  intros Ht Hl. cbn [tokenOf] in Ht. rewrite parseGroup_S.
  rewrite upcoming_0, Ht. cbn [snd newToken mapGet GroupDelimiters].
  change (String.eqb "(" "(") with true. cbv iota zeta.
  cbn [advance] in Hl. now rewrite Hl.
Qed.

(** An operator and the group after it. *)
Lemma step_group (F : nat) (p q : Parser L) (t G : Number) (k : OpName) :
  tokenOf (LOp k) (upcoming p 0) -> tokenOf LOpen (upcoming p 1) ->
  parseGroup F (advance 1 p) = Ok (G, q) ->
  parseExpression (S F) (Some t) p
  = Ok (compound t (operationOf k) G, q).
Proof.
  intros Hk Ht Hg. cbn [tokenOf] in Hk, Ht.
  destruct (opToken_facts k) as (_ & _ & Ho). rewrite <- Hk in Ho.
  change (upcoming p 0) with (token p) in Ho.
  rewrite parseExpression_S, Ho. cbv zeta.
  rewrite (upcoming_0 (parserNextToken p)), upcoming_next, Ht.
  cbn [snd newToken]. change (isGroupStart "(") with true. cbv iota.
  cbn [advance] in Hg. now rewrite Hg.
Qed.

(** An operator, a number, an operator that binds tighter, and what that
    operator makes of the number. *)
Lemma step_tighter (F : nat) (p q : Parser L) (t r : Number) (k k' : OpName)
    (ds : string) :
  tokenOf (LOp k) (upcoming p 0) -> tokenOf (LNum ds) (upcoming p 1) ->
  tokenOf (LOp k') (upcoming p 2) ->
  (priority (operationOf k) < priority (operationOf k'))%Z ->
  parseExpression F (Some (identity (JS.Number ds))) (advance 2 p)
  = Ok (r, q) ->
  parseExpression (S F) (Some t) p = Ok (compound t (operationOf k) r, q).
Proof.
  intros Hk Hn Hk' Hlt Hr. cbn [tokenOf] in Hk, Hk'.
  destruct (opToken_facts k) as (_ & _ & Ho). rewrite <- Hk in Ho.
  destruct (opToken_facts k') as (_ & _ & Ho'). rewrite <- Hk' in Ho'.
  destruct (numToken_facts ds _ Hn) as (Hv & Hg & _).
  apply Z.ltb_lt in Hlt.
  destruct F as [|F]; [discriminate|].
  change (upcoming p 0) with (token p) in Ho.
  rewrite parseExpression_S, Ho. cbv zeta.
  rewrite (upcoming_0 (parserNextToken p)), upcoming_next, Hg.
  rewrite (parseExpression_S F None). cbn [bind].
  change (peekToken (parserNextToken p))
    with (upcoming (parserNextToken p) 1).
  rewrite upcoming_next, Ho', Hlt. cbv zeta.
  unfold parseNumber.
  rewrite (upcoming_0 (parserNextToken p)), upcoming_next, Hv.
  cbn [advance] in Hr. now rewrite Hr.
Qed.

End Steps.

(** ** Trees that are parsed back from their rendering *)

Lemma closed_app (l1 l2 : list Lexeme) :
  closed l2 = true -> closed (l1 ++ l2) = true.
Proof.
  intros H2. induction l1 as [|x l1 IH]; [exact H2|].
  cbn [app]. destruct (l1 ++ l2)%list as [|y r] eqn:E.
  - destruct l1; cbn [app] in E; [rewrite E in H2|]; discriminate.
  - destruct x; exact IH.
Qed.

Lemma spell_cons (x : Lexeme) (r : list Lexeme) :
  spell (x :: r)
  = match x with
    | LNum ds => ds ++ space r ++ spell r
    | LOp k => String (opChar k) (" " ++ spell r)
    | LOpen => "(" ++ spell r
    | LClose => ")" ++ space r ++ spell r
    end.
Proof. reflexivity. Qed.

Lemma spell_app (l1 l2 : list Lexeme) :
  closed l1 = true -> spell (l1 ++ l2) = spell l1 ++ space l2 ++ spell l2.
Proof.
  induction l1 as [|x l1 IH]; [discriminate|].
  destruct l1 as [|y r].
  - destruct x; try discriminate; intros _; cbn [app spell space];
      now rewrite ?app_empty_r.
  - intros Hc.
    assert (Hc' : closed (y :: r) = true) by (destruct x; exact Hc).
    specialize (IH Hc'). cbn [app] in *.
    destruct x; rewrite (spell_cons _ (y :: r ++ l2)), IH,
      (spell_cons _ (y :: r)); cbn [space];
      destruct y; cbn [append space]; now rewrite ?app_assoc.
Qed.

Lemma lexable_app (l1 l2 : list Lexeme) :
  lexable l1 -> lexable l2 -> closed l1 = true ->
  match l2 with LNum _ :: _ => False | _ => True end ->
  lexable (l1 ++ l2).
Proof.
  intros H1 H2 Hc Hn. induction l1 as [|x l1 IH]; [discriminate|].
  destruct l1 as [|y r].
  - destruct x; try discriminate; cbn [app lexable] in *.
    + destruct H1 as (Hd & _ & _). repeat split; auto.
    + exact H2.
  - assert (Hc' : closed (y :: r) = true) by (destruct x; exact Hc).
    pose proof (lexable_tail x _ H1) as H1'.
    specialize (IH H1' Hc'). cbn [app] in *.
    destruct x; cbn [lexable] in *; intuition auto.
Qed.

Lemma opens_app (w : Place) (l1 l2 : list Lexeme) :
  opens w l1 -> opens w (l1 ++ l2).
Proof. destruct l1 as [|[] l1]; cbn [opens app]; auto; intros []. Qed.

Lemma bindsLooser_tighter (a b : Number) (k k' : OpName) :
  (priority (operationOf k) < priority (operationOf k'))%Z ->
  bindsLooser (compound a (operationOf k') b) (operationOf k) = false.
Proof.
  intros Hlt. unfold bindsLooser. cbn [operationPriority].
  apply andb_false_intro2, Z.ltb_ge. lia.
Qed.

(** The rendering of a step: the left operand, bare, the operator between
    two spaces, and the right operand as one. *)
Lemma numToString_step (t r : Number) (k : OpName) :
  keepsOrder t k ->
  numToString (compound t (operationOf k) r)
  = numToString t ++ " " ++ String (opChar k) (" " ++ rendered (Under k) r).
Proof.
  intros Hk. rewrite numToString_compound, symbol_operationOf.
  replace (bindsLooser t (operationOf k)) with false
    by (symmetry; apply keepsOrder_bare, Hk).
  reflexivity.
Qed.

Lemma Shape_rendering (w : Place) (t : Number) (ls : list Lexeme) :
  Shape w t ls ->
  rendered w t = spell ls /\ lexable ls /\ closed ls = true /\ opens w ls.
Proof.
  induction 1 as
    [ c a Ha
    | G gl k r rl HG (IGs & IGl & IGc & IGo) HGk
        Hr (IRs & IRl & IRc & IRo) Hrk
    | c t ls k r rl Ht (IHs & IHl & IHc & IHo) Hk
        Hr (IRs & IRl & IRc & IRo)
    | k b Hb
    | k G gl HG (IGs & IGl & IGc & IGo) HGk
    | k k' b r rl Hlt Hb Hr (IRs & IRl & IRc & IRo) ].
  - (* a leaf *)
    destruct Ha as [Hd _].
    cbn [rendered numToString spell space lexable closed opens].
    rewrite !app_empty_r. auto.
  - (* a group first *)
    cbn [rendered] in *. rewrite Hrk in IRs.
    split; [|split; [|split; [|cbn [opens]; discriminate]]].
    + rewrite numToString_compound, symbol_operationOf, HGk, Hrk.
      cbn [negb andb]. rewrite IGs, IRs, spell_cons.
      rewrite (spell_app gl _ IGc), spell_cons, spell_cons.
      cbn [space append]. unfold parens.
      now rewrite ?app_empty_r, ?app_assoc.
    + cbn [lexable]. split; [destruct gl as [|[] gl]; cbn in IGo |- *; auto|].
      apply lexable_app; auto.
    + change (LOpen :: gl ++ LClose :: LOp k :: rl)%list
        with ([LOpen] ++ gl ++ [LClose; LOp k] ++ rl)%list.
      now do 3 apply closed_app.
  - (* a step *)
    cbn [rendered] in IHs |- *.
    split; [|split; [|split]].
    + rewrite (numToString_step t _ k Hk), IHs, IRs.
      rewrite (spell_app ls _ IHc), spell_cons. now cbn [space].
    + apply lexable_app; auto.
    + change (ls ++ LOp k :: rl)%list with (ls ++ [LOp k] ++ rl)%list.
      now do 2 apply closed_app.
    + now apply opens_app.
  - (* a leaf as right operand *)
    destruct Hb as [Hd _].
    cbn [rendered numToString spell space lexable closed opens].
    change (bindsLooser (identity b) (operationOf k)) with false.
    cbv iota. rewrite !app_empty_r. auto.
  - (* a group as right operand *)
    cbn [rendered] in *. rewrite HGk.
    split; [|split; [|split; [|cbn [opens]; discriminate]]].
    + rewrite IGs, spell_cons, (spell_app gl _ IGc).
      cbn [space spell append]. unfold parens.
      now rewrite ?app_empty_r, ?app_assoc.
    + cbn [lexable]. split; [destruct gl as [|[] gl]; cbn in IGo |- *; auto|].
      apply lexable_app; cbn [lexable]; auto.
    + change (LOpen :: gl ++ [LClose])%list
        with ([LOpen] ++ gl ++ [LClose])%list.
      now do 2 apply closed_app.
  - (* a tighter operation as right operand *)
    cbn [rendered]. rewrite (bindsLooser_tighter _ _ k k' Hlt).
    split; [|split; [|split; [|exact I]]].
    + rewrite (numToString_step (identity b) _ k' I), IRs.
      rewrite spell_cons, spell_cons. now cbn [space numToString].
    + destruct Hb as [Hd _]. cbn [lexable]. auto.
    + change (LNum (JS.toString b) :: LOp k' :: rl)%list
        with ([LNum (JS.toString b); LOp k'] ++ rl)%list.
      now apply closed_app.
Qed.

Lemma calm_mono (o o' : Operation) (next : Token) :
  (priority o <= priority o')%Z -> calm o next -> calm o' next.
Proof.
  unfold calm. destruct (mapGet TokenType.eqb Operations (fst next)); auto.
  rewrite !Z.ltb_ge. lia.
Qed.

Lemma keepsOrder_follows (t : Number) (k : OpName) (next : Token) :
  keepsOrder t k -> tokenOf (LOp k) next -> follows t next.
Proof.
  intros Hk Hn. cbn [tokenOf] in Hn. subst next.
  destruct t as [a | a o b]; cbn [follows keepsOrder] in *; [exact I|].
  unfold calm. destruct (opToken_facts k) as (_ & _ & ->).
  now apply Z.ltb_ge.
Qed.

Lemma closer_facts (next : Token) :
  tokenOf LClose next ->
  String.eqb (snd next) ")" = true /\ forall t, follows t next.
Proof.
  cbn [tokenOf]. intros ->. split; [reflexivity|].
  now intros [a | a o b].
Qed.

Section ShapeParser.
Context {L : Type} `{ILexer L}.

(** A right operand, read by a parser that stands [i] tokens further. *)
Lemma Under_shift (k : OpName) (r : Number) (rl : list Lexeme)
    (p q : Parser L) (i : nat) (t0 : Number) :
  parsedBack (Under k) r rl ->
  (forall n, upcoming q n = upcoming p (i + n)) ->
  Ahead p i (LOp k :: rl) ->
  calm (operationOf k) (upcoming p (i + S (List.length rl))) ->
  exists F : nat,
    parseExpression F (Some t0) q
    = Ok (compound t0 (operationOf k) r, advance (List.length rl) q).
Proof.
  intros HU Hs Ha Hc. apply HU.
  - apply (Ahead_shift p q i 0); [exact Hs | exact Ha].
  - now rewrite Hs.
Qed.

(** A group, from its opening parenthesis to its closing one. *)
Lemma group_parsed (G : Number) (gl : list Lexeme) (p q : Parser L)
    (i : nat) :
  parsedBack (Whole false) G gl ->
  (forall n, upcoming q n = upcoming p (i + n)) ->
  Ahead p i (LOpen :: gl ++ [LClose]) ->
  exists F : nat,
    parseGroup F q = Ok (G, advance (S (List.length gl)) q).
Proof.
  intros HG Hs Ha. cbn [Ahead] in Ha. destruct Ha as [Ho Ha].
  apply Ahead_app in Ha. destruct Ha as [Hg [Hc _]].
  assert (Hs1 : forall n, upcoming (advance 1 q) n = upcoming p (S i + n)).
  { intros n. rewrite upcoming_advance, Hs. f_equal. lia. }
  destruct (closer_facts _ Hc) as [Hc1 Hc2].
  destruct (HG (advance 1 q)) as [_ HR].
  - apply (Ahead_shift p _ (S i) 0); [exact Hs1 | exact Hg].
  - rewrite Hs1. apply Hc2.
  - destruct (HR eq_refl 1%nat
                (Ok (Some G, advance (List.length gl) (advance 1 q))))
      as [F HF].
    + cbn [parseGroupLoop].
      rewrite (upcoming_0 (advance _ _)), upcoming_advance, Hs1.
      cbn [Nat.add] in Hc1 |- *. now rewrite Hc1.
    + discriminate.
    + exists (S F). rewrite <- advance_add in HF.
      apply group_body; [|exact HF].
      rewrite Hs, Nat.add_0_r. exact Ho.
Qed.

(** A right operand after a whole expression, in the loop of [parse]. *)
Lemma top_step (g : option Number) (p : Parser L) (t r : Number)
    (k : OpName) (rl : list Lexeme) (i : nat) :
  parsedBack (Under k) r rl ->
  TopReach g p (Some t) (advance i p) ->
  Ahead p i (LOp k :: rl) ->
  calm (operationOf k) (upcoming p (i + S (List.length rl))) ->
  TopReach g p (Some (compound t (operationOf k) r))
    (advance (i + S (List.length rl)) p).
Proof.
  intros HU Ht Ha Hc.
  destruct (Under_shift k r rl p (withLast (Some t) (advance i p)) i t
              HU) as [F HF]; auto.
  { intros n. rewrite upcoming_withLast, upcoming_advance. f_equal. lia. }
  rewrite advance_withLast in HF.
  apply (TopReach_trans _ _ _ _ _ _ Ht).
  replace (advance (i + S (List.length rl)) p)
    with (parserNextToken (advance (List.length rl) (advance i p)))
    by (rewrite advance_next, <- advance_add; f_equal; lia).
  destruct Ha as [Ho _]. cbn [tokenOf] in Ho.
  destruct (opToken_facts k) as (He & Hg & _).
  apply (TopReach_step F); [| |exact HF];
    rewrite (upcoming_0 (advance i p)), upcoming_advance; cbn [Nat.add];
    now rewrite Ho.
Qed.

(** The same in the loop of a group. *)
Lemma inner_step (g : option Number) (p : Parser L) (t r : Number)
    (k : OpName) (rl : list Lexeme) (i : nat) :
  parsedBack (Under k) r rl ->
  GroupReach g p (Some t) (advance i p) ->
  Ahead p i (LOp k :: rl) ->
  calm (operationOf k) (upcoming p (i + S (List.length rl))) ->
  GroupReach g p (Some (compound t (operationOf k) r))
    (advance (i + S (List.length rl)) p).
Proof.
  intros HU Ht Ha Hc.
  destruct (Under_shift k r rl p (advance i p) i t HU) as [F HF]; auto.
  { intros n. rewrite upcoming_advance. f_equal. lia. }
  apply (GroupReach_trans _ _ _ _ _ _ Ht).
  replace (advance (i + S (List.length rl)) p)
    with (parserNextToken (advance (List.length rl) (advance i p)))
    by (rewrite advance_next, <- advance_add; f_equal; lia).
  destruct Ha as [Ho _]. cbn [tokenOf] in Ho.
  apply (GroupReach_step F); [|exact HF].
  rewrite (upcoming_0 (advance i p)), upcoming_advance; cbn [Nat.add].
  rewrite Ho. apply opToken_not_closer.
Qed.

End ShapeParser.

Section ShapeParsed.
Context {L : Type} `{ILexer L}.

Lemma Shape_parsedBack (w : Place) (t : Number) (ls : list Lexeme) :
  Shape w t ls -> parsedBack (L := L) w t ls.
Proof.
  induction 1 as
    [ c a Ha
    | G gl k r rl HG IG HGk Hr IR Hrk
    | c t ls k r rl Ht IH Hk Hr IR
    | k b Hb
    | k G gl HG IG HGk
    | k k' b r rl Hlt Hb Hr IR ].
  - (* a leaf *)
    intros p [Hn _] _. destruct Ha as [_ Ha].
    destruct (numToken_facts _ _ Hn) as (Hv & Hg & Hc & He).
    change (upcoming p 0) with (token p) in Hv, Hg, Hc, He.
    assert (Hp : forall g, parseExpression 1 None (withLast g p)
                           = Ok (identity a, withLast g p)).
    { intros g. cbn [parseExpression]. unfold parseNumber.
      cbn [withLast token]. now rewrite Hv, Ha. }
    split.
    + exact (TopReach_step 1 None p p _ He Hg (Hp None)).
    + intros _. apply (GroupReach_step 1 None p p _ Hc).
      specialize (Hp (last p)). now rewrite withLast_last in Hp.
  - (* a group first *)
    intros p Ha Hf. split; [|discriminate].
    assert (El : (LOpen :: gl ++ LClose :: LOp k :: rl
                  = (LOpen :: gl ++ [LClose]) ++ LOp k :: rl)%list)
      by (cbn [app]; now rewrite <- List.app_assoc).
    rewrite El in Ha, Hf |- *. clear El.
    rewrite List.length_app in Hf |- *. cbn [follows] in Hf.
    apply Ahead_app in Ha. destruct Ha as [Hg Hr'].
    cbn [Nat.add] in Hr'.
    assert (Hlen : List.length (LOpen :: gl ++ [LClose])
                   = S (S (List.length gl)))
      by (cbn [List.length]; rewrite List.length_app; cbn [List.length]; lia).
    rewrite Hlen in *. cbn [List.length] in Hf |- *.
    apply top_step; [exact IR| |exact Hr'|exact Hf].
    destruct (group_parsed G gl p (withLast None p) 0 IG) as [F HF];
      [intros n; apply upcoming_withLast | exact Hg |].
    rewrite advance_withLast in HF.
    rewrite <- advance_next.
    destruct Hg as [Ho _]. cbn [tokenOf] in Ho.
    change (upcoming p 0) with (token p) in Ho.
    apply (TopReach_group F); [now rewrite Ho | now rewrite Ho | exact HF].
  - (* a step *)
    intros p Ha Hf. rewrite List.length_app in Hf |- *.
    cbn [List.length follows] in Hf |- *.
    apply Ahead_app in Ha. destruct Ha as [Hl Hr']. cbn [Nat.add] in Hr'.
    destruct (IH p Hl) as [IHt IHg].
    { apply (keepsOrder_follows t k _ Hk). exact (proj1 Hr'). }
    split.
    + now apply top_step.
    + intros Hc. now apply inner_step; [| apply IHg | |].
  - (* a leaf as right operand *)
    intros q t0 (Ho & Hn & _) Hc. destruct Hb as [_ Hb]. exists 2%nat.
    rewrite (step_operand q t0 k _ Ho Hn Hc). now rewrite Hb.
  - (* a group as right operand *)
    intros q t0 [Ho Hg] _.
    destruct (group_parsed G gl q (advance 1 q) 1 IG) as [F HF];
      [intros n; rewrite upcoming_advance; f_equal; lia | exact Hg |].
    exists (S F).
    rewrite (step_group F q _ t0 G k Ho (proj1 Hg) HF).
    rewrite <- advance_add. cbn [List.length].
    rewrite List.length_app. cbn [List.length]. repeat f_equal; lia.
  - (* a tighter operation as right operand *)
    intros q t0 (Ho & Hn & Hr') Hc. destruct Hb as [_ Hb].
    cbn [List.length] in Hc |- *.
    destruct (Under_shift k' r rl q (advance 2 q) 2
                (identity (JS.Number (JS.toString b))) IR) as [F HF].
    + intros n. rewrite upcoming_advance. f_equal. lia.
    + exact Hr'.
    + apply (calm_mono (operationOf k)); [lia | exact Hc].
    + exists (S F).
      rewrite (step_tighter F q _ t0 _ k k' _ Ho Hn (proj1 Hr') Hlt HF).
      rewrite Hb, <- advance_add. repeat f_equal; lia.
Qed.

End ShapeParsed.

Lemma newParser_last {L : Type} `{ILexer L} (lx : L) :
  last (newParser lx) = None.
Proof.
  unfold newParser. destruct (lexerNextToken lx) as [t l1].
  now destruct (lexerNextToken l1).
Qed.

Lemma tokenOf_lexemeToken (x : Lexeme) (r : list Lexeme) :
  lexable (x :: r) -> tokenOf x (lexemeToken x r).
Proof.
  destruct x; cbn [tokenOf lexemeToken lexable]; auto.
  intros (Hd & _ & _). split; [exact Hd|]. split; [reflexivity|].
  destruct r as [|[] r]; cbn [space newToken snd]; rewrite ?app_empty_r;
    auto.
Qed.

Lemma Ahead_lexTokens {L : Type} `{ILexer L} (p : Parser L)
    (ls : list Lexeme) (j : nat) :
  lexable ls ->
  (forall i, upcoming p (j + i) = nth i (lexTokens ls) eofToken) ->
  Ahead p j ls.
Proof.
  revert j; induction ls as [|x r IH]; intros j Hl Hu; cbn [Ahead];
    [exact I|].
  split.
  - rewrite <- (Nat.add_0_r j), Hu. cbn [lexTokens nth].
    now apply tokenOf_lexemeToken.
  - apply IH; [exact (lexable_tail x r Hl)|].
    intros i.
    change (nth i (lexTokens r) eofToken)
      with (nth (S i) (lexTokens (x :: r)) eofToken).
    rewrite <- (Hu (S i)). f_equal. lia.
Qed.

Lemma nth_lexTokens_end (ls : list Lexeme) :
  nth (List.length ls) (lexTokens ls) eofToken = eofToken.
Proof. induction ls as [|x r IH]; [reflexivity | exact IH]. Qed.

(** C1, as the code has it, parentheses included.  For a tree of the class
    [Shape (Whole true)] (leaves that are non-negative integers in plain
    digits; left operands not bound less tightly than the operation above
    them, but for a parenthesized one at the very beginning of the
    expression whose right neighbour is not parenthesized; right operands
    that are a leaf, a parenthesized tree of the class bound less tightly
    than the operation, or a leaf under a tighter operation with such a
    right operand), parsing the rendering returns the tree itself, so that
    evaluating it gives the very number the tree evaluates to. *)
Theorem round_trip_of_shapes (t : Number) (ls : list Lexeme) :
  Shape (Whole true) t ls ->
  numToString t = spell ls
  /\ parseText (numToString t) = Ok t
  /\ evaluate (numToString t) = Ok (get t).
Proof.
  intros Hs.
  destruct (Shape_rendering _ _ _ Hs) as (Hr & Hl & _ & Ho).
  cbn [rendered] in Hr.
  assert (Hp : parseText (numToString t) = Ok t).
  { rewrite Hr. set (p0 := newParser (newLexer (spell ls))).
    assert (Hu : forall i, upcoming p0 (0 + i)
                           = nth i (lexTokens ls) eofToken).
    { intros i. unfold p0. cbn [Nat.add]. rewrite upcoming_newParser.
      apply lexerToken_lexemes; [|exact Hl].
      apply lexReady_newLexer. destruct ls as [|[] r]; auto. }
    destruct (Shape_parsedBack (L := Lexer) _ _ _ Hs p0) as [Ht _].
    - now apply Ahead_lexTokens.
    - change (List.length ls) with (0 + List.length ls)%nat.
      rewrite (Hu (List.length ls)), nth_lexTokens_end.
      now destruct t as [a | a o b].
    - destruct (Ht 1%nat
                  (Ok (withLast (Some t) (advance (List.length ls) p0))))
        as [F HF].
      + cbn [parseLoop withLast token].
        rewrite (upcoming_0 (advance _ _)), upcoming_advance.
        now rewrite Hu, nth_lexTokens_end.
      + discriminate.
      + apply (parseText_fuel _ F); [|discriminate].
        unfold parse. fold p0. rewrite <- (withLast_last p0).
        unfold p0 at 1. rewrite newParser_last. fold p0. now rewrite HF. }
  split; [exact Hr|]. split; [exact Hp|]. unfold evaluate. now rewrite Hp.
Qed.

Lemma round_trip_of_shapes_witness :
  let t :=
    compound
      (compound (compoundFromValues 1%float sum 2%float) mul
         (identity 3%float))
      sub
      (compound (identity 4%float) mul
         (compoundFromValues 5%float sum 6%float)) in
  numToString t = "(1 + 2) * 3 - 4 * (5 + 6)"
  /\ parseText "(1 + 2) * 3 - 4 * (5 + 6)" = Ok t
  /\ evaluate "(1 + 2) * 3 - 4 * (5 + 6)" = Ok (-35)%float.
Proof.
  intros t.
  assert (Hg1 : Shape (Whole false) (compoundFromValues 1%float sum 2%float)
                  ([LNum (JS.toString 1%float)]
                     ++ LOp OSum :: [LNum (JS.toString 2%float)])%list).
  { apply (Shape_step false (identity 1%float) _ OSum (identity 2%float)).
    - apply Shape_leaf. plain_leaf.
    - exact I.
    - apply Under_leaf. plain_leaf. }
  assert (Hg2 : Shape (Whole false) (compoundFromValues 5%float sum 6%float)
                  ([LNum (JS.toString 5%float)]
                     ++ LOp OSum :: [LNum (JS.toString 6%float)])%list).
  { apply (Shape_step false (identity 5%float) _ OSum (identity 6%float)).
    - apply Shape_leaf. plain_leaf.
    - exact I.
    - apply Under_leaf. plain_leaf. }
  eassert (Hl : Shape (Whole true)
                  (compound (compoundFromValues 1%float sum 2%float) mul
                     (identity 3%float)) _).
  { eapply (Shape_open _ _ OMul (identity 3%float) _ Hg1).
    - vm_compute; reflexivity.
    - apply Under_leaf. plain_leaf.
    - vm_compute; reflexivity. }
  eassert (Hr : Shape (Under OSub)
                  (compound (identity 4%float) mul
                     (compoundFromValues 5%float sum 6%float)) _).
  { eapply (Under_tighter OSub OMul 4%float).
    - vm_compute; reflexivity.
    - plain_leaf.
    - apply (Under_group OMul _ _ Hg2). vm_compute; reflexivity. }
  eassert (Hs : Shape (Whole true) t _).
  { eapply (Shape_step true _ _ OSub _ _ Hl); [|exact Hr].
    cbn [keepsOrder]. vm_compute. discriminate. }
  destruct (round_trip_of_shapes t _ Hs) as (_ & Hp & He).
  assert (Hn : numToString t = "(1 + 2) * 3 - 4 * (5 + 6)")
    by (vm_compute; reflexivity).
  rewrite Hn in Hp, He.
  split; [exact Hn|]. split; [exact Hp|].
  rewrite He. vm_compute; reflexivity.
Defined.

(** C1, as the claim has it, fails.  The tree 1 - (2 - 3) evaluates to 2;
    its rendering is "1 - 2 - 3", a child of equal priority never being
    parenthesized, which is parsed as (1 - 2) - 3 and evaluates to -4.  And
    the leaf 0.5 is rendered as "0.5", which the parser refuses, the lexer
    knowing no decimal point. *)
Lemma round_trip_fails :
  get (compound (identity 1%float) sub (compoundFromValues 2%float sub 3%float))
  = 2%float
  /\ numToString
       (compound (identity 1%float) sub
          (compoundFromValues 2%float sub 3%float))
     = "1 - 2 - 3"
  /\ parseText "1 - 2 - 3"
     = Ok (compound (compoundFromValues 1%float sub 2%float) sub
             (identity 3%float))
  /\ evaluate "1 - 2 - 3" = Ok (-4)%float
  /\ get (identity 0.5%float) = 0.5%float
  /\ numToString (identity 0.5%float) = "0.5"
  /\ parseText "0.5" = Throw "expected an operation got: Illegal".
Proof.
  do 6 (split; [vm_compute; reflexivity|]). vm_compute; reflexivity.
Qed.

(** * More properties of the program *)

(** ** Evaluation: NaN and division by zero *)

Lemma SFeqb_refl (x : spec_float) :
  SFeqb x x = match x with S754_nan => false | _ => true end.
Proof.
  destruct x as [s | s | | s m e]; try reflexivity; try (now destruct s).
  unfold SFeqb, SFcompare. rewrite Z.compare_refl.
  assert (Hm : Pos.compare_cont Eq m m = Eq) by apply Pos.compare_refl.
  rewrite Hm. now destruct s.
Qed.

Lemma isNaN_spec (x : float) :
  JS.isNaN x = true <-> Prim2SF x = S754_nan.
Proof.
  unfold JS.isNaN, is_nan. rewrite FloatAxioms.eqb_spec, SFeqb_refl.
  destruct (Prim2SF x); split; intros [=]; reflexivity.
Qed.

Lemma apply_NaN (k : OpName) (x y : float) :
  JS.isNaN x = true \/ JS.isNaN y = true ->
  JS.isNaN (apply (operationOf k) x y) = true.
Proof.
  rewrite !isNaN_spec. intros Hxy.
  destruct k; cbn [operationOf apply sum sub mul div];
    [ rewrite FloatAxioms.add_spec | rewrite FloatAxioms.sub_spec
    | rewrite FloatAxioms.mul_spec | rewrite FloatAxioms.div_spec ];
    destruct Hxy as [-> | ->]; try reflexivity;
    now destruct (Prim2SF x).
Qed.

(** X1.  A NaN never disappears in an evaluation: a tree over [sum],
    [sub], [mul] and [div] one of whose leaves holds NaN evaluates to
    NaN. *)
Theorem NaN_propagates (num : Number) :
  arithmetic num -> hasNaN num = true -> JS.isNaN (get num) = true.
Proof.
  induction num as [a | a IHa o b IHb]; cbn [arithmetic hasNaN get].
  - intros _ Ha. exact Ha.
  - intros ([k ->] & Ha & Hb) Hn. apply apply_NaN.
    apply orb_prop in Hn. destruct Hn as [Hn | Hn]; [left | right]; auto.
Qed.

Lemma NaN_propagates_witness :
  let num := compound (compoundFromValues 1%float sum nan) mul
               (identity 3%float) in
  arithmetic num /\ hasNaN num = true /\ JS.isNaN (get num) = true.
Proof.
  intros num.
  assert (Ha : arithmetic num).
  { cbn [num arithmetic compoundFromValues].
    repeat split; [now exists OMul | now exists OSum]. }
  assert (Hn : hasNaN num = true) by (vm_compute; reflexivity).
  split; [exact Ha|]. split; [exact Hn|].
  exact (NaN_propagates num Ha Hn).
Defined.

(** X2.  A division by zero raises nothing: the quotient of [x] by [0] is
    NaN when [x] is NaN or a zero, and the infinity of the sign of [x]
    otherwise. *)
Theorem div_by_zero (x : float) :
  Prim2SF (apply div x 0%float)
  = match Prim2SF x with
    | S754_nan | S754_zero _ => S754_nan
    | S754_infinity s | S754_finite s _ _ => S754_infinity s
    end.
Proof.
  cbn [apply div]. rewrite FloatAxioms.div_spec.
  change (Prim2SF 0%float) with (S754_zero false).
  destruct (Prim2SF x) as [s | s | | s m e]; try reflexivity;
    now destruct s.
Qed.

(** ** Levels *)

Lemma levelOf_0 (num : Number) (level : Z) :
  level <= 0 -> levelOf num level = [num]%list.
Proof.
  intros Hl. destruct num; cbn [levelOf];
    now rewrite (proj2 (Z.leb_le level 0) Hl).
Qed.

Lemma levelOf_S (num : Number) (level : Z) :
  0 < level ->
  levelOf num level
  = match num with
    | identity _ => []%list
    | compound a _ b => (levelOf a (level - 1) ++ levelOf b (level - 1))%list
    end.
Proof.
  intros Hl. destruct num; cbn [levelOf];
    now rewrite (proj2 (Z.leb_gt level 0) Hl).
Qed.

(** X3.  Levels compose: the nodes [a + b] edges below the root are the
    nodes [b] edges below the nodes [a] edges below it, in the same
    order. *)
Theorem getLevel_compose (num : Number) (a b : Z) :
  0 <= a -> 0 <= b ->
  getLevel (Some num) (a + b)
  = flat_map (fun n => getLevel (Some n) b) (getLevel (Some num) a).
Proof.
  intros Ha Hb. cbn [getLevel].
  rewrite <- (Z2Nat.id a Ha). clear Ha.
  generalize (Z.to_nat a) as n. clear a. intros n.
  revert num. induction n as [|n IH]; intros num.
  - rewrite (levelOf_0 num (Z.of_nat 0)) by reflexivity.
    cbn [flat_map Z.of_nat Z.add]. now rewrite List.app_nil_r.
  - rewrite (levelOf_S num (Z.of_nat (S n))) by lia.
    rewrite (levelOf_S num (Z.of_nat (S n) + b)) by lia.
    destruct num as [x | l o r]; [reflexivity|].
    replace (Z.of_nat (S n) + b - 1) with (Z.of_nat n + b) by lia.
    replace (Z.of_nat (S n) - 1) with (Z.of_nat n) by lia.
    now rewrite flat_map_app, !IH.
Qed.

Lemma getLevel_compose_witness :
  let num := compound (compoundFromValues 1%float sum 2%float) mul
               (compoundFromValues 3%float sub 4%float) in
  0 <= 1 /\ 0 <= 1
  /\ getLevel (Some num) (1 + 1)
     = flat_map (fun n => getLevel (Some n) 1) (getLevel (Some num) 1).
Proof.
  intros num. split; [lia|]. split; [lia|].
  apply (getLevel_compose num 1 1); lia.
Defined.

(** X4.  The level [getDepth(num)] is the deepest one: it is not empty and
    holds nothing but [identity] numbers. *)
Theorem deepest_level_identities (num : Number) :
  getLevel (Some num) (getDepth (Some num) (-1)) <> []%list
  /\ forallb isIdentity (getLevel (Some num) (getDepth (Some num) (-1)))
     = true.
Proof.
  cbn [getLevel getDepth]. rewrite depthOf_compoundLevels.
  replace (-1 + 1 + compoundLevels num) with (compoundLevels num) by lia.
  induction num as [x | a [IHa1 IHa2] o b [IHb1 IHb2]].
  - split; [discriminate | reflexivity].
  - pose proof (compoundLevels_nonneg a) as Ha.
    pose proof (compoundLevels_nonneg b) as Hb.
    cbn [compoundLevels].
    rewrite levelOf_S by lia.
    replace (1 + Z.max (compoundLevels a) (compoundLevels b) - 1)
      with (Z.max (compoundLevels a) (compoundLevels b)) by lia.
    rewrite forallb_app.
    destruct (Z.max_spec (compoundLevels a) (compoundLevels b))
      as [[Hlt ->] | [Hle ->]].
    + rewrite (levelOf_beyond a) by lia. cbn [app forallb andb]. auto.
    + destruct (Z.eq_dec (compoundLevels a) (compoundLevels b)) as [E | N].
      * rewrite E in IHa1, IHa2 |- *. rewrite IHa2, IHb2.
        split; [|reflexivity].
        intros H0. apply List.app_eq_nil in H0. now destruct H0.
      * rewrite (levelOf_beyond b) by lia. rewrite List.app_nil_r.
        cbn [forallb]. rewrite andb_true_r. auto.
Qed.

(** X5.  A level is never larger than a full binary tree allows: the level
    [level] holds at most [2 ^ level] numbers. *)
Theorem getLevel_length (num : option Number) (level : Z) :
  Z.of_nat (List.length (getLevel num level)) <= 2 ^ Z.max 0 level.
Proof.
  destruct num as [num|]; cbn [getLevel];
    [|cbn [List.length]; pose proof (Z.pow_pos_nonneg 2 (Z.max 0 level));
      lia].
  destruct (Z.le_gt_cases level 0) as [Hl | Hl].
  - rewrite levelOf_0 by exact Hl. rewrite Z.max_l by lia. reflexivity.
  - rewrite Z.max_r by lia.
    rewrite <- (Z2Nat.id level) by lia.
    generalize (Z.to_nat level) as n. clear level Hl. intros n.
    revert num. induction n as [|n IH]; intros num.
    + rewrite levelOf_0 by reflexivity. reflexivity.
    + rewrite levelOf_S by lia.
      replace (Z.of_nat (S n) - 1) with (Z.of_nat n) by lia.
      replace (Z.of_nat (S n)) with (Z.of_nat n + 1) by lia.
      rewrite Z.pow_add_r by lia.
      destruct num as [x | a o b];
        [cbn [List.length]; pose proof (Z.pow_pos_nonneg 2 (Z.of_nat n));
         lia|].
      rewrite List.length_app, Nat2Z.inj_add.
      pose proof (IH a). pose proof (IH b). lia.
Qed.

(** ** The lexer, token by token *)

Lemma lexerToken_0 (l : Lexer) : lexerToken 0 l = fst (nextToken l).
Proof. reflexivity. Qed.

Lemma lexerToken_S (k : nat) (l : Lexer) :
  lexerToken (S k) l = lexerToken k (snd (nextToken l)).
Proof. reflexivity. Qed.

Lemma lexerToken_lexerAfter (k : nat) (l : Lexer) :
  lexerToken k l = fst (nextToken (lexerAfter k l)).
Proof.
  revert l; induction k as [|k IH]; intros l; [reflexivity|].
  cbn [lexerToken lexerAfter lexerNextToken Lexer_ILexer]. apply IH.
Qed.

Lemma lexerAfter_step (k : nat) (l : Lexer) :
  wfLexer l ->
  input (lexerAfter k l) = input l /\ wfLexer (lexerAfter k l)
  /\ (position l + k <= position (lexerAfter k l))%nat.
Proof.
  revert l; induction k as [|k IH]; intros l Hw; cbn [lexerAfter].
  - split; [reflexivity | split; [exact Hw | lia]].
  - destruct (nextToken_step l) as (Hi & Hw' & Hp).
    destruct (IH _ Hw') as (Hi2 & Hw2 & Hp2).
    destruct Hw as [Hr _].
    split; [now rewrite Hi2 | split; [exact Hw2 | lia]].
Qed.

(** X6.  The lexer goes forward and ends: every call of [nextToken] reads
    at least one character, so that from the [k]-th call on, [k] being the
    length of the input, every token is the end-of-input token. *)
Theorem tokens_end (s : string) (k n : nat) :
  (String.length s <= k)%nat ->
  (n <= position (lexerAfter n (newLexer s)))%nat
  /\ fst (nextToken (lexerAfter k (newLexer s))) = eofToken.
Proof.
  intros Hk. split.
  - destruct (lexerAfter_step n (newLexer s) (newLexer_wf s)) as (_ & _ & H).
    lia.
  - rewrite <- lexerToken_lexerAfter. apply lexerToken_atEnd.
    + apply newLexer_wf.
    + cbn. lia.
Qed.

Lemma tokens_end_witness :
  (String.length "12+3" <= 4)%nat
  /\ (3 <= position (lexerAfter 3 (newLexer "12+3")))%nat
  /\ fst (nextToken (lexerAfter 4 (newLexer "12+3"))) = eofToken.
Proof.
  split; [cbn; lia|]. apply (tokens_end "12+3" 4 3). cbn; lia.
Defined.

Lemma readNumberLoop_line (fuel : nat) (l : Lexer) :
  line (readNumberLoop fuel l) = line l.
Proof.
  revert l; induction fuel as [|f IH]; intros l; cbn [readNumberLoop];
    [reflexivity|].
  destruct (isNumber (peekChar l)); [|reflexivity]. now rewrite IH.
Qed.

Lemma readComparationLoop_line (fuel : nat) (l : Lexer) :
  line (readComparationLoop fuel l) = line l.
Proof.
  revert l; induction fuel as [|f IH]; intros l;
    cbn [readComparationLoop]; [reflexivity|].
  destruct (isComparation (peekChar l)); [|reflexivity]. now rewrite IH.
Qed.

(** Only [skipWhitespace] counts lines. *)
Lemma nextToken_line (l : Lexer) :
  line (snd (nextToken l)) = line (skipWhitespace l).
Proof.
  unfold nextToken. set (l1 := skipWhitespace l).
  destruct (mapGet String.eqb TokenString (char l1)) as [k|].
  - destruct (includes ComparationSymbols k).
    + unfold readComparation. cbn [snd readChar line].
      apply readComparationLoop_line.
    + unfold readTokenType, readNumber.
      destruct (isSignedNumber l1); cbn [snd readChar line];
        [apply readNumberLoop_line | reflexivity].
  - destruct (isNumber (char l1)).
    + unfold readNumber. cbn [snd readChar line]. apply readNumberLoop_line.
    + reflexivity.
Qed.

(** The white space the lexer stands on is skipped, and its line feeds
    counted. *)
Lemma skipWhitespaceLoop_run (ws : string) :
  forall (fuel : nat) (l : Lexer) (pre suf : string),
    lexAt l pre (ws ++ suf) ->
    forallb isBlank (list_ascii_of_string ws) = true ->
    isSkipped (headChar suf) = false ->
    (String.length ws <= fuel)%nat ->
    lexAt (skipWhitespaceLoop fuel l) (pre ++ ws) suf
    /\ line (skipWhitespaceLoop fuel l) = (line l + newlines ws)%nat.
Proof.
  induction ws as [|c ws IH]; intros fuel l pre suf Hat Hb Hs Hf.
  - cbn [append] in Hat. rewrite skipWhitespaceLoop_stable
      by now rewrite (lexAt_char _ _ _ Hat).
    rewrite app_empty_r. cbn [newlines]. split; [exact Hat | lia].
  - cbn [list_ascii_of_string forallb] in Hb.
    apply andb_prop in Hb. destruct Hb as [Hc Hb].
    destruct fuel as [|f]; [cbn in Hf; lia|].
    cbn [String.length] in Hf.
    change (String c ws ++ suf) with (String c (ws ++ suf)) in Hat.
    pose proof (lexAt_char _ _ _ Hat) as Hch. cbn [headChar] in Hch.
    cbn [skipWhitespaceLoop]. rewrite Hch.
    change (isSkipped (String c "")) with (isBlank c). rewrite Hc.
    set (l1 := if String.eqb (String c "") (String "010" "")
               then _ else l).
    assert (H1 : lexAt l1 pre (String c (ws ++ suf))
                  /\ line l1
                     = (line l + if Ascii.eqb c "010" then 1 else 0)%nat).
    { unfold l1. cbn [String.eqb].
      destruct (Ascii.eqb c "010"); [|split; [exact Hat | lia]].
      split; [|cbn [line]; lia].
      destruct Hat as ([Hr Hcc] & Hi & Hp).
      split; [split|split]; cbn [readPosition position char input];
        auto.
      now rewrite <- Hch. }
    destruct H1 as [Hat1 Hl1].
    destruct (IH f (readChar l1) (pre ++ String c "") suf) as [Hat2 Hl2];
      [apply lexAt_readChar, Hat1 | exact Hb | exact Hs | lia |].
    split.
    + rewrite app_assoc in Hat2. exact Hat2.
    + rewrite Hl2. cbn [readChar line newlines]. rewrite Hl1. lia.
Qed.

(** X7.  [getLine] counts the line feeds of the white space skipped before
    a token, and nothing else: a call of [nextToken] on white space [ws]
    followed by something else adds the number of line feeds of [ws]. *)
Theorem getLine_counts_skipped (l : Lexer) (pre ws suf : string) :
  lexAt l pre (ws ++ suf) ->
  forallb isBlank (list_ascii_of_string ws) = true ->
  isSkipped (headChar suf) = false ->
  getLine (snd (nextToken l)) = (getLine l + newlines ws)%nat.
Proof.
  intros Hat Hb Hs. unfold getLine. rewrite nextToken_line.
  unfold skipWhitespace.
  apply (skipWhitespaceLoop_run ws _ l pre suf Hat Hb Hs).
  destruct Hat as (_ & -> & _). rewrite !length_app. lia.
Qed.

Lemma getLine_counts_skipped_witness :
  let nl := String "010" "" in
  lexAt (newLexer (nl ++ " " ++ nl ++ "7")) "" ((nl ++ " " ++ nl) ++ "7")
  /\ forallb isBlank (list_ascii_of_string (nl ++ " " ++ nl)) = true
  /\ isSkipped (headChar "7") = false
  /\ getLine (snd (nextToken (newLexer (nl ++ " " ++ nl ++ "7"))))
     = (getLine (newLexer (nl ++ " " ++ nl ++ "7"))
        + newlines (nl ++ " " ++ nl))%nat.
Proof.
  intros nl.
  assert (Hat : lexAt (newLexer (nl ++ " " ++ nl ++ "7")) ""
                  ((nl ++ " " ++ nl) ++ "7"))
    by apply (lexAt_newLexer (nl ++ " " ++ nl ++ "7")).
  split; [exact Hat|]. split; [reflexivity|]. split; [reflexivity|].
  apply (getLine_counts_skipped _ "" (nl ++ " " ++ nl) "7" Hat);
    reflexivity.
Defined.

Lemma nextToken_line_atEnd (l : Lexer) :
  wfLexer l -> (String.length (input l) <= position l)%nat ->
  line (snd (nextToken l)) = line l.
Proof.
  intros [_ Hc] Hp. rewrite nextToken_line. unfold skipWhitespace.
  rewrite skipWhitespaceLoop_stable; [reflexivity|].
  rewrite Hc. now rewrite (proj2 (Nat.leb_le _ _) Hp).
Qed.

Lemma nextToken_past_skip (l : Lexer) :
  (readPosition (skipWhitespace l) <= position (snd (nextToken l)))%nat.
Proof.
  unfold nextToken. set (l1 := skipWhitespace l).
  assert (Hfin : forall (k : option TokenType.t) (v : string) (l2 : Lexer),
             lexerStep l1 l2 ->
             (readPosition l1
              <= position (snd (newToken (orIllegal k) v, readChar l2)))%nat).
  { intros k v l2 (_ & Hp & _). exact Hp. }
  destruct (mapGet String.eqb TokenString (char l1)) as [k|].
  - destruct (includes ComparationSymbols k).
    + unfold readComparation. apply Hfin, readComparationLoop_step.
    + unfold readTokenType, readNumber.
      destruct (isSignedNumber l1); apply Hfin;
        [apply readNumberLoop_step | apply lexerStep_refl].
  - destruct (isNumber (char l1)).
    + unfold readNumber. apply Hfin, readNumberLoop_step.
    + apply Hfin, lexerStep_refl.
Qed.

(** X8.  On an input of nothing but white space, [getLine] is the number
    of line feeds of the input after the first call of [nextToken], and
    stays so. *)
Theorem getLine_blank_input (s : string) (k : nat) :
  forallb isBlank (list_ascii_of_string s) = true ->
  getLine (lexerAfter (S k) (newLexer s)) = newlines s.
Proof.
  intros Hb. cbn [lexerAfter].
  assert (Hat : lexAt (newLexer s) "" (s ++ ""))
    by (rewrite app_empty_r; apply lexAt_newLexer).
  destruct (skipWhitespaceLoop_run s (String.length s) (newLexer s) "" ""
              Hat Hb eq_refl (le_n _)) as [Hat1 Hl1].
  change (skipWhitespaceLoop (String.length s) (newLexer s))
    with (skipWhitespace (newLexer s)) in Hat1, Hl1.
  destruct (nextToken_step (newLexer s)) as (Hi & Hw & _).
  pose proof (nextToken_past_skip (newLexer s)) as Hp.
  pose proof (nextToken_line (newLexer s)) as Hl.
  set (l1 := snd (nextToken (newLexer s))) in *.
  assert (H1 : getLine l1 = newlines s)
    by (unfold getLine; rewrite Hl, Hl1; reflexivity).
  assert (He : (String.length (input l1) <= position l1)%nat).
  { destruct Hat1 as ([Hr _] & _ & Hq). rewrite Hi.
    cbn [input newLexer readChar]. rewrite Hr, Hq in Hp.
    cbn [append] in Hp. lia. }
  clearbody l1. clear Hi Hp Hl Hat Hat1 Hl1.
  revert l1 H1 Hw He.
  induction k as [|k IH]; intros l1 H1 Hw He; cbn [lexerAfter];
    [exact H1|].
  destruct (nextToken_step l1) as (Hi' & Hw' & Hp').
  apply IH; auto.
  - unfold getLine in *. now rewrite nextToken_line_atEnd.
  - rewrite Hi'. destruct Hw as [Hr _]. lia.
Qed.

Lemma getLine_blank_input_witness :
  let s := String "010" (String "010" (String "010" "")) in
  forallb isBlank (list_ascii_of_string s) = true
  /\ getLine (lexerAfter (S 3) (newLexer s)) = newlines s.
Proof.
  intros s. split; [reflexivity|].
  apply (getLine_blank_input s 3). reflexivity.
Defined.

Lemma numeric_not_token (c : ascii) :
  isNumber (String c "") = true ->
  mapGet String.eqb TokenString (String c "") = None.
Proof.
  rewrite isNumber_char.
  destruct c as [[] [] [] [] [] [] [] []]; intros H; vm_compute in H;
    try discriminate H; reflexivity.
Qed.

(** A number literal, from its first character to the last numeric one. *)
Lemma nextToken_numeric_run (l : Lexer) (pre ns suf : string)
    (d : ascii) :
  lexAt l pre (String d (ns ++ suf)) ->
  isNumber (String d "") = true -> isSkipped (String d "") = false ->
  allNumeric ns = true -> isNumber (headChar suf) = false ->
  fst (nextToken l) = newToken TokenType.Number (String d ns)
  /\ lexAt (snd (nextToken l)) (pre ++ String d ns) suf
  /\ getLine (snd (nextToken l)) = getLine l.
Proof.
  intros Hat Hn Hsk Hns Hs.
  pose proof (numeric_not_token d Hn) as Hk.
  pose proof (lexAt_char _ _ _ Hat) as Hc. cbn [headChar] in Hc.
  destruct (readNumber_run l pre ns suf d Hat Hns Hs) as [Hv Hat'].
  assert (Hst : skipWhitespace l = l)
    by (apply skipWhitespaceLoop_stable; now rewrite Hc).
  split; [|split].
  - unfold nextToken. rewrite Hst, Hc, Hk, Hn.
    destruct (readNumber l) as [v l']. cbn [fst snd] in *. now subst v.
  - unfold nextToken. rewrite Hst, Hc, Hk, Hn.
    destruct (readNumber l) as [v l']. cbn [fst snd] in *. exact Hat'.
  - unfold getLine. now rewrite nextToken_line, Hst.
Qed.

(** X9.  A number literal is the longest run of characters [isNumber]
    accepts, white space included: begun by a digit (or by a white-space
    character [skipWhitespace] does not skip), it goes on over digits,
    spaces, tabs and line feeds alike, and its line feeds are not
    counted. *)
Theorem number_spans_numeric_run (l : Lexer) (pre ns suf : string)
    (d : ascii) :
  lexAt l pre (String d (ns ++ suf)) ->
  isNumber (String d "") = true -> isSkipped (String d "") = false ->
  allNumeric ns = true -> isNumber (headChar suf) = false ->
  fst (nextToken l) = newToken TokenType.Number (String d ns)
  /\ lexAt (snd (nextToken l)) (pre ++ String d ns) suf
  /\ getLine (snd (nextToken l)) = getLine l.
Proof. apply nextToken_numeric_run. Qed.

Lemma number_spans_numeric_run_witness :
  let s := "1" ++ String "010" ("2 3" ++ "+4") in
  lexAt (newLexer s) "" (String "1" (String "010" "2 3" ++ "+4"))
  /\ isNumber "1" = true /\ isSkipped "1" = false
  /\ allNumeric (String "010" "2 3") = true
  /\ isNumber (headChar "+4") = false
  /\ fst (nextToken (newLexer s))
     = newToken TokenType.Number (String "1" (String "010" "2 3"))
  /\ lexAt (snd (nextToken (newLexer s)))
       ("" ++ String "1" (String "010" "2 3")) "+4"
  /\ getLine (snd (nextToken (newLexer s))) = getLine (newLexer s).
Proof.
  intros s.
  assert (Hat : lexAt (newLexer s) ""
                  (String "1" (String "010" "2 3" ++ "+4")))
    by apply (lexAt_newLexer s).
  assert (Hn : isNumber "1" = true) by (vm_compute; reflexivity).
  assert (Hsk : isSkipped "1" = false) by reflexivity.
  assert (Hns : allNumeric (String "010" "2 3") = true)
    by (vm_compute; reflexivity).
  assert (Hs : isNumber (headChar "+4") = false)
    by (vm_compute; reflexivity).
  do 5 (split; [assumption|]).
  exact (number_spans_numeric_run _ _ _ _ _ Hat Hn Hsk Hns Hs).
Defined.

(** The loop of [readComparation] runs to the last comparison symbol. *)
Lemma readComparationLoop_run (cs : string) :
  forall (fuel : nat) (l : Lexer) (pre suf : string) (c : ascii),
    lexAt l pre (String c (cs ++ suf)) ->
    allComparation cs = true -> isComparation (headChar suf) = false ->
    (String.length cs <= fuel)%nat ->
    exists (pre' : string) (c' : ascii),
      pre ++ String c cs = pre' ++ String c' ""
      /\ lexAt (readComparationLoop fuel l) pre' (String c' suf).
Proof.
  induction cs as [|n cs IH]; intros fuel l pre suf c Hat Hn Hs Hf.
  - cbn [append] in Hat. exists pre, c. split; [reflexivity|].
    replace (readComparationLoop fuel l) with l; [exact Hat|].
    destruct fuel; cbn [readComparationLoop]; [reflexivity|].
    rewrite (lexAt_peekChar _ _ _ Hat). cbn [tail]. now rewrite Hs.
  - destruct fuel as [|fuel]; [cbn in Hf; lia|].
    unfold allComparation in Hn. cbn [list_ascii_of_string forallb] in Hn.
    apply andb_prop in Hn as [Hn0 Hn]. cbn [readComparationLoop].
    rewrite (lexAt_peekChar _ _ _ Hat). cbn [tail append headChar].
    rewrite Hn0.
    apply lexAt_readChar in Hat.
    destruct (IH fuel _ _ _ _ Hat Hn Hs ltac:(cbn in Hf; lia))
      as (pre' & c' & Heq & Hat').
    exists pre', c'. split; [|exact Hat'].
    rewrite <- Heq, app_assoc. reflexivity.
Qed.

Lemma readComparation_run (l : Lexer) (pre cs suf : string) (c : ascii) :
  lexAt l pre (String c (cs ++ suf)) ->
  allComparation cs = true -> isComparation (headChar suf) = false ->
  fst (readComparation l) = String c cs
  /\ lexAt (readChar (snd (readComparation l))) (pre ++ String c cs) suf.
Proof.
  intros Hat Hn Hs. unfold readComparation. cbn [fst snd].
  destruct (readComparationLoop_run cs (String.length (input l)) l pre suf
              c Hat Hn Hs) as (pre' & c' & Heq & Hat').
  { destruct Hat as (_ & -> & _).
    rewrite length_app, length_String, length_app. lia. }
  split.
  - destruct Hat' as ([Hr _] & Hi & Hp). destruct Hat as (_ & Hi0 & Hp0).
    rewrite Hr, Hp, Hp0. unfold slice.
    destruct (readComparationLoop_step (String.length (input l)) l)
      as (-> & _).
    rewrite Hi0.
    replace (S (String.length pre') - String.length pre)%nat
      with (String.length (String c cs)).
    + apply (substring_app pre (String c cs) suf).
    + apply (f_equal String.length) in Heq.
      rewrite !length_app in Heq. cbn [String.length] in Heq |- *. lia.
  - rewrite Heq. now apply lexAt_readChar.
Qed.

Lemma isComparation_char (c : ascii) :
  isComparation (String c "") = true ->
  c = "="%char \/ c = "<"%char \/ c = ">"%char \/ c = "~"%char.
Proof.
  destruct c as [[] [] [] [] [] [] [] []]; intros H; vm_compute in H;
    try discriminate H; auto.
Qed.

Lemma long_not_token (s : string) :
  (3 <= String.length s)%nat -> s <> "EOF" ->
  mapGet String.eqb TokenString s = None.
Proof.
  intros Hl Hne. unfold TokenString. cbn [mapGet].
  repeat match goal with
         | |- context [String.eqb ?k s] =>
             destruct (String.eqb_spec k s) as [E | _];
             [subst s; first [cbn in Hl; lia | now contradiction Hne]|]
         end.
  reflexivity.
Qed.

(** A comparison token, from its first symbol to the last one. *)
Lemma nextToken_comparison_run (l : Lexer) (pre cs suf : string) (c : ascii) :
  lexAt l pre (String c (cs ++ suf)) ->
  isComparation (String c "") = true ->
  allComparation cs = true -> isComparation (headChar suf) = false ->
  fst (nextToken l)
  = newToken (orIllegal (mapGet String.eqb TokenString (String c cs)))
      (String c cs)
  /\ lexAt (snd (nextToken l)) (pre ++ String c cs) suf
  /\ ((2 <= String.length cs)%nat ->
      fst (fst (nextToken l)) = TokenType.Illegal).
Proof.
  intros Hat Hc0 Hcs Hs.
  pose proof (lexAt_char _ _ _ Hat) as Hc. cbn [headChar] in Hc.
  destruct (readComparation_run l pre cs suf c Hat Hcs Hs) as [Hv Hat'].
  assert (Hst : skipWhitespace l = l).
  { apply skipWhitespaceLoop_stable. rewrite Hc.
    destruct (isComparation_char c Hc0) as [-> | [-> | [-> | ->]]];
      reflexivity. }
  assert (Ht : nextToken l
               = (newToken
                    (orIllegal
                       (mapGet String.eqb TokenString (String c cs)))
                    (String c cs),
                  readChar (snd (readComparation l)))).
  { unfold nextToken. rewrite Hst, Hc.
    unfold isComparation in Hc0.
    destruct (mapGet String.eqb TokenString (String c "")) as [k|];
      [|discriminate].
    rewrite Hc0.
    destruct (readComparation l) as [v l']. cbn [fst snd] in *.
    now subst v. }
  rewrite Ht. cbn [fst snd]. split; [reflexivity|]. split; [exact Hat'|].
  intros Hlen. cbn [newToken fst]. rewrite long_not_token; [reflexivity| |].
  - cbn [String.length]. lia.
  - destruct (isComparation_char c Hc0) as [-> | [-> | [-> | ->]]];
      discriminate.
Qed.

(** X10.  A comparison token is the longest run of the symbols [=], [<],
    [>] and [~]: its type is the one [TokenString] gives the whole run,
    [Illegal] if it gives none, as it does for every run of three symbols
    or more. *)
Theorem comparison_spans_run (l : Lexer) (pre cs suf : string) (c : ascii) :
  lexAt l pre (String c (cs ++ suf)) ->
  isComparation (String c "") = true ->
  allComparation cs = true -> isComparation (headChar suf) = false ->
  fst (nextToken l)
  = newToken (orIllegal (mapGet String.eqb TokenString (String c cs)))
      (String c cs)
  /\ lexAt (snd (nextToken l)) (pre ++ String c cs) suf
  /\ ((2 <= String.length cs)%nat ->
      fst (fst (nextToken l)) = TokenType.Illegal).
Proof. apply nextToken_comparison_run. Qed.

Lemma comparison_spans_run_witness :
  lexAt (newLexer ">=<5") "" (String ">" ("=<" ++ "5"))
  /\ isComparation ">" = true /\ allComparation "=<" = true
  /\ isComparation (headChar "5") = false
  /\ fst (nextToken (newLexer ">=<5"))
     = newToken (orIllegal (mapGet String.eqb TokenString ">=<")) ">=<"
  /\ lexAt (snd (nextToken (newLexer ">=<5"))) ("" ++ ">=<") "5"
  /\ ((2 <= String.length "=<")%nat ->
      fst (fst (nextToken (newLexer ">=<5"))) = TokenType.Illegal).
Proof.
  assert (Hat : lexAt (newLexer ">=<5") "" (String ">" ("=<" ++ "5")))
    by apply (lexAt_newLexer ">=<5").
  do 4 (split; [assumption || reflexivity|]).
  exact (comparison_spans_run _ _ _ _ _ Hat eq_refl eq_refl eq_refl).
Defined.

Lemma other_characters_alone_any (l : Lexer) :
  isSkipped (char l) = false -> isComparation (char l) = false ->
  isSign (char l) = false -> isNumber (char l) = false ->
  fst (nextToken l)
  = newToken (orIllegal (mapGet String.eqb TokenString (char l))) (char l)
  /\ snd (nextToken l) = readChar l.
Proof.
  intros Hsk Hcmp Hsg Hn.
  unfold nextToken, skipWhitespace.
  rewrite skipWhitespaceLoop_stable by exact Hsk.
  unfold isComparation in Hcmp.
  destruct (mapGet String.eqb TokenString (char l)) as [k|].
  - rewrite Hcmp. unfold readTokenType, isSignedNumber.
    unfold isSign in Hsg. rewrite Hsg. split; reflexivity.
  - rewrite Hn. split; reflexivity.
Qed.

(** X11.  Every other character is a token on its own.  A character that is
    neither skipped as white space, nor a comparison symbol, nor a sign,
    nor numeric is returned as a one-character token of the type
    [TokenString] gives it (a delimiter, [*], [/], the end of the input),
    and of the type [Illegal] if it gives none: so is every letter, and so
    is the decimal point. *)
Theorem other_characters_alone (l : Lexer) :
  isSkipped (char l) = false -> isComparation (char l) = false ->
  isSign (char l) = false -> isNumber (char l) = false ->
  nextToken l
  = (newToken (orIllegal (mapGet String.eqb TokenString (char l))) (char l),
     readChar l).
Proof.
  intros Hsk Hcmp Hsg Hn.
  destruct (other_characters_alone_any l Hsk Hcmp Hsg Hn) as [H1 H2].
  rewrite <- H1, <- H2. now destruct (nextToken l).
Qed.

Lemma other_characters_alone_witness :
  let l := readChar (readChar (newLexer "14.742")) in
  isSkipped (char l) = false /\ isComparation (char l) = false
  /\ isSign (char l) = false /\ isNumber (char l) = false
  /\ nextToken l = (newToken TokenType.Illegal ".", readChar l).
Proof.
  intros l.
  assert (H1 : isSkipped (char l) = false) by reflexivity.
  assert (H2 : isComparation (char l) = false) by reflexivity.
  assert (H3 : isSign (char l) = false) by reflexivity.
  assert (H4 : isNumber (char l) = false) by (vm_compute; reflexivity).
  do 4 (split; [assumption|]).
  exact (other_characters_alone l H1 H2 H3 H4).
Defined.

(** ** The parser: termination, errors and results *)

(** X12.  [parse] ends on every input, in a tree or in an error: the fuel
    of [parseText] is enough, and more fuel gives the same result. *)
Theorem parse_ends (s : string) (fuel : nat) :
  (2 * String.length s + 3 <= fuel)%nat ->
  parseText s <> Timeout
  /\ parse fuel (newParser (newLexer s)) = parseText s.
Proof.
  intros Hf. pose proof (parseText_terminates s) as Ht.
  split; [exact Ht|]. unfold parseText in *.
  now apply parse_mono.
Qed.

Lemma parse_ends_witness :
  (2 * String.length "(5" + 3 <= 100)%nat
  /\ parseText "(5" <> Timeout
  /\ parse 100 (newParser (newLexer "(5")) = parseText "(5".
Proof.
  split; [cbn; lia|]. apply (parse_ends "(5" 100). cbn; lia.
Defined.

Lemma isGroupStart_delimiter (v : string) :
  isGroupStart v = true ->
  exists d : string, mapGet String.eqb GroupDelimiters v = Some d.
Proof.
  unfold isGroupStart, GroupDelimiters.
  cbn [map fst existsb mapGet].
  rewrite (String.eqb_sym v "("), (String.eqb_sym v "["),
    (String.eqb_sym v "{").
  destruct (String.eqb "(" v); [now eexists|].
  destruct (String.eqb "[" v); [now eexists|].
  destruct (String.eqb "{" v); [now eexists | discriminate].
Qed.

Lemma Operations_named (k : TokenType.t) (o : Operation) :
  mapGet TokenType.eqb Operations k = Some o ->
  exists n : OpName, o = operationOf n.
Proof.
  destruct k; cbn; intros [= <-];
    [now exists OSum | now exists OSub | now exists OMul | now exists ODiv].
Qed.

Section ParserMore.
Context {L : Type} `{ILexer L}.

Lemma parser_errors (fuel : nat) :
  (forall last (p : Parser L) msg,
      parseExpression fuel last p = Throw msg -> innerError msg)
  /\ (forall (p : Parser L) msg,
        isGroupStart (snd (token p)) = true ->
        parseGroup fuel p = Throw msg -> innerError msg)
  /\ (forall d g (p : Parser L) msg,
        parseGroupLoop fuel d g p = Throw msg -> innerError msg).
Proof.
  induction fuel as [|fuel (IHe & IHg & IHl)]; [repeat split; discriminate|].
  repeat split.
  - intros last p msg. rewrite parseExpression_S.
    destruct last as [last|]; [|discriminate].
    destruct (mapGet TokenType.eqb Operations (fst (token p)))
      as [operation|].
    2:{ intros [= <-]. right. now eexists. }
    cbv zeta.
    destruct (isGroupStart (snd (token (parserNextToken p)))) eqn:Eg.
    + destruct (parseGroup fuel (parserNextToken p)) as [[g p1]| |] eqn:E;
        cbn [bind]; try discriminate.
      intros [= <-]. exact (IHg _ _ Eg E).
    + destruct (parseExpression fuel None (parserNextToken p))
        as [[nextNum p1]| |] eqn:En; cbn [bind]; try discriminate.
      2:{ intros [= <-]. exact (IHe _ _ _ En). }
      destruct (mapGet TokenType.eqb Operations _) as [nextOperation|];
        [|discriminate].
      destruct (_ <? _)%Z; [|discriminate].
      destruct (parseExpression fuel (Some nextNum) _)
        as [[r p2]| |] eqn:Er; cbn [bind]; try discriminate.
      intros [= <-]. exact (IHe _ _ _ Er).
  - intros p msg Hg. rewrite parseGroup_S.
    destruct (isGroupStart_delimiter _ Hg) as [d ->]. cbv zeta.
    destruct (parseGroupLoop fuel d None _) as [[[g|] p1]| |] eqn:El;
      cbn [bind]; try discriminate.
    + intros [= <-]. now left.
    + intros [= <-]. exact (IHl _ _ _ _ El).
  - intros d g p msg. rewrite parseGroupLoop_S.
    destruct (String.eqb _ d); [discriminate|].
    destruct (parseExpression fuel g p) as [[g1 p1]| |] eqn:Ee;
      cbn [bind]; try discriminate.
    + apply IHl.
    + intros [= <-]. exact (IHe _ _ _ Ee).
Qed.

Lemma parse_errors_any (fuel : nat) (p : Parser L) (msg : string) :
  parse fuel p = Throw msg -> parseError msg.
Proof.
  unfold parse.
  destruct (parseLoop fuel p) as [q| |] eqn:El; cbn [bind];
    try discriminate.
  - destruct (last q); [discriminate|]. intros [= <-]. now left.
  - intros [= <-]. right.
    revert p El. induction fuel as [|fuel IH]; intros p; [discriminate|].
    cbn [parseLoop].
    destruct (TokenType.eqb _ _); [discriminate|].
    destruct (parseValue fuel p) as [[v p1]| |] eqn:Ev; cbn [bind];
      try discriminate.
    + apply IH.
    + intros [= <-]. unfold parseValue in Ev.
      destruct (parser_errors fuel) as (He & Hg & _).
      destruct (isGroupStart (snd (token p))) eqn:Eg;
        [exact (Hg _ _ Eg Ev) | exact (He _ _ _ Ev)].
Qed.

End ParserMore.

(** X13.  [parse] fails in three ways only: nothing was parsed, a group
    has nothing in it, or an operation was expected where another token
    stands.  The error of [parseGroup] on an unknown symbol is never
    raised, the symbol being checked before the call. *)
Theorem parse_errors (s msg : string) :
  parseText s = Throw msg -> parseError msg.
Proof. apply parse_errors_any. Qed.

Lemma parse_errors_witness :
  parseText "( )" = Throw "could not parse group: undefined result"
  /\ parseError "could not parse group: undefined result".
Proof.
  assert (H : parseText "( )"
              = Throw "could not parse group: undefined result")
    by (vm_compute; reflexivity).
  split; [exact H | exact (parse_errors _ _ H)].
Defined.

Section ParserInvariants.
Context {L : Type} `{ILexer L}.

(** X14.  A group that is parsed ends on its own closing delimiter: when
    [parseGroup] returns, the parser has gone forward by two tokens at
    least and stands on the delimiter [GroupDelimiters] pairs with the
    one the group began with. *)
Theorem group_ends_on_closer (fuel : nat) (p p' : Parser L)
    (closer : string) (v : Number) :
  mapGet String.eqb GroupDelimiters (snd (token p)) = Some closer ->
  parseGroup fuel p = Ok (v, p') ->
  exists c : nat,
    (2 <= c)%nat /\ p' = advance c p /\ snd (token p') = closer.
Proof.
  intros Hd. destruct fuel as [|fuel]; [discriminate|].
  rewrite parseGroup_S, Hd. cbv zeta.
  destruct (parseGroupLoop fuel closer None (parserNextToken p))
    as [[[g|] p1]| |] eqn:El; cbn [bind]; try discriminate.
  intros [= <- <-].
  destruct fuel as [|fuel]; [discriminate|].
  rewrite parseGroupLoop_S in El.
  destruct (String.eqb _ closer); [discriminate|].
  destruct (parseExpression fuel None (parserNextToken p))
    as [[g1 q]| |] eqn:Ee; cbn [bind] in El; try discriminate.
  destruct (parser_advances fuel) as (Ae & _ & Al).
  apply Ae in Ee as (c1 & -> & _).
  apply Al in El as (c2 & -> & Ht).
  exists (1 + S c1 + c2)%nat. split; [lia|]. split; [|exact Ht].
  rewrite advance_next.
  change (parserNextToken p) with (advance 1 p).
  now rewrite <- !advance_add.
Qed.

Lemma parser_ignores_last (fuel : nat) :
  (forall last (p : Parser L) g,
      parseExpression fuel last (withLast g p)
      = reLast g (parseExpression fuel last p))
  /\ (forall (p : Parser L) g,
        parseGroup fuel (withLast g p) = reLast g (parseGroup fuel p))
  /\ (forall d g0 (p : Parser L) g,
        parseGroupLoop fuel d g0 (withLast g p)
        = reLast g (parseGroupLoop fuel d g0 p)).
Proof.
  induction fuel as [|fuel (IHe & IHg & IHl)]; [repeat split; reflexivity|].
  repeat split.
  - intros last p g. rewrite !parseExpression_S.
    destruct last as [last|]; [|reflexivity].
    cbn [withLast token].
    destruct (mapGet TokenType.eqb Operations (fst (token p)));
      [|reflexivity].
    cbv zeta. rewrite next_withLast. cbn [withLast token].
    destruct (isGroupStart (snd (token (parserNextToken p)))).
    + rewrite IHg.
      now destruct (parseGroup fuel (parserNextToken p)) as [[v q]| |].
    + rewrite IHe.
      destruct (parseExpression fuel None (parserNextToken p))
        as [[nextNum q]| |]; cbn [bind reLast]; try reflexivity.
      cbn [withLast peekToken].
      destruct (mapGet TokenType.eqb Operations (fst (peekToken q)));
        [|reflexivity].
      destruct (_ <? _)%Z; [|reflexivity].
      rewrite next_withLast, IHe.
      now destruct (parseExpression fuel (Some nextNum) (parserNextToken q))
        as [[r q2]| |].
  - intros p g. rewrite !parseGroup_S. cbn [withLast token].
    destruct (mapGet String.eqb GroupDelimiters (snd (token p)));
      [|reflexivity].
    cbv zeta. rewrite next_withLast, IHl.
    now destruct (parseGroupLoop fuel s None (parserNextToken p))
      as [[[v|] q]| |].
  - intros d g0 p g. rewrite !parseGroupLoop_S. cbn [withLast token].
    destruct (String.eqb (snd (token p)) d); [reflexivity|].
    rewrite IHe.
    destruct (parseExpression fuel g0 p) as [[v q]| |];
      cbn [bind reLast]; try reflexivity.
    now rewrite next_withLast, IHl.
Qed.

(** X15.  A group at the top level takes no operand from the left: when
    the loop of [parse] stands on an opening delimiter, what was parsed so
    far is dropped, and the result is what it would be had nothing been
    parsed yet. *)
Theorem top_group_forgets (fuel : nat) (p : Parser L) :
  isGroupStart (snd (token p)) = true ->
  TokenType.eqb (fst (token p)) TokenType.EOF = false ->
  parse fuel p = parse fuel (withLast None p).
Proof.
  intros Hg Ht. destruct fuel as [|fuel]; [reflexivity|].
  unfold parse. cbn [parseLoop withLast token]. rewrite Ht.
  unfold parseValue. cbn [withLast token]. rewrite Hg.
  change {| lexer := lexer p; last := None; token := token p;
            peekToken := peekToken p |} with (withLast None p).
  rewrite (proj1 (proj2 (parser_ignores_last fuel))).
  destruct (parseGroup fuel p) as [[v q]| |]; reflexivity.
Qed.

Lemma parser_arithmetic (fuel : nat) :
  (forall last (p p' : Parser L) v,
      (forall t, last = Some t -> arithmetic t) ->
      parseExpression fuel last p = Ok (v, p') -> arithmetic v)
  /\ (forall (p p' : Parser L) v,
        parseGroup fuel p = Ok (v, p') -> arithmetic v)
  /\ (forall d g (p p' : Parser L) g',
        (forall t, g = Some t -> arithmetic t) ->
        parseGroupLoop fuel d g p = Ok (g', p') ->
        forall t, g' = Some t -> arithmetic t).
Proof.
  induction fuel as [|fuel (IHe & IHg & IHl)]; [repeat split; discriminate|].
  repeat split.
  - intros last p p' v Hl. rewrite parseExpression_S.
    destruct last as [last|]; [|intros [= <- <-]; exact I].
    specialize (Hl last eq_refl).
    destruct (mapGet TokenType.eqb Operations (fst (token p)))
      as [operation|] eqn:Eo; [|discriminate].
    apply Operations_named in Eo. cbv zeta.
    destruct (isGroupStart (snd (token (parserNextToken p)))).
    + destruct (parseGroup fuel (parserNextToken p)) as [[g p1]| |] eqn:E;
        cbn [bind]; try discriminate.
      intros [= <- <-]. cbn [arithmetic]. split; [exact Eo|].
      split; [exact Hl | exact (IHg _ _ _ E)].
    + destruct (parseExpression fuel None (parserNextToken p))
        as [[nextNum p1]| |] eqn:En; cbn [bind]; try discriminate.
      assert (Hn : arithmetic nextNum)
        by (refine (IHe None _ _ _ _ En); intros t [=]).
      destruct (mapGet TokenType.eqb Operations _) as [nextOperation|].
      * destruct (_ <? _)%Z.
        -- destruct (parseExpression fuel (Some nextNum) _)
             as [[r p2]| |] eqn:Er; cbn [bind]; try discriminate.
           intros [= <- <-]. cbn [arithmetic]. split; [exact Eo|].
           split; [exact Hl|].
           refine (IHe (Some nextNum) _ _ _ _ Er).
           intros t [= <-]. exact Hn.
        -- intros [= <- <-]. cbn [arithmetic parseNumber]. auto.
      * intros [= <- <-]. cbn [arithmetic parseNumber]. auto.
  - intros p p' v. rewrite parseGroup_S.
    destruct (mapGet String.eqb GroupDelimiters _) as [d|]; [|discriminate].
    cbv zeta.
    destruct (parseGroupLoop fuel d None _) as [[[g|] p1]| |] eqn:El;
      cbn [bind]; try discriminate.
    intros [= <- <-].
    refine (IHl _ None _ _ _ _ El g eq_refl). intros t [=].
  - intros d g p p' g' Hg. rewrite parseGroupLoop_S.
    destruct (String.eqb _ d); [intros [= <- <-]; exact Hg|].
    destruct (parseExpression fuel g p) as [[g1 p1]| |] eqn:Ee;
      cbn [bind]; try discriminate.
    apply IHl. intros t [= <-]. exact (IHe _ _ _ _ Hg Ee).
Qed.

Lemma parse_arithmetic_any (fuel : nat) (p : Parser L) (t : Number) :
  (forall t0, last p = Some t0 -> arithmetic t0) ->
  parse fuel p = Ok t -> arithmetic t.
Proof.
  unfold parse. intros Hl.
  destruct (parseLoop fuel p) as [q| |] eqn:El; cbn [bind];
    try discriminate.
  assert (Hq : forall t0, last q = Some t0 -> arithmetic t0).
  { revert p Hl El. induction fuel as [|fuel IH]; intros p Hl;
      [discriminate|].
    cbn [parseLoop].
    destruct (TokenType.eqb _ _); [intros [= <-]; exact Hl|].
    destruct (parseValue fuel p) as [[v p1]| |] eqn:Ev; cbn [bind];
      try discriminate.
    apply IH.
    assert (Hv : arithmetic v).
    { unfold parseValue in Ev.
      destruct (parser_arithmetic fuel) as (He & Hg & _).
      destruct (isGroupStart _);
        [exact (Hg _ _ _ Ev) | exact (He _ _ _ _ Hl Ev)]. }
    unfold parserNextToken, setLast. cbn [lexer peekToken last].
    destruct (lexerNextToken (lexer p1)) as [tk lx]. cbn [last].
    intros t1 [= <-]. exact Hv. }
  destruct (last q) as [t0|] eqn:E; [|discriminate].
  intros [= <-]. now apply Hq.
Qed.

End ParserInvariants.

Lemma group_ends_on_closer_witness :
  let p := newParser (newLexer "[1 + 2] * 3") in
  mapGet String.eqb GroupDelimiters (snd (token p)) = Some "]"
  /\ parseGroup 9 p
     = Ok (compoundFromValues 1%float sum 2%float, advance 4 p)
  /\ exists c : nat,
       (2 <= c)%nat /\ advance 4 p = advance c p
       /\ snd (token (advance 4 p)) = "]".
Proof.
  intros p.
  assert (Hd : mapGet String.eqb GroupDelimiters (snd (token p)) = Some "]")
    by reflexivity.
  assert (Hg : parseGroup 9 p
               = Ok (compoundFromValues 1%float sum 2%float, advance 4 p))
    by (vm_compute; reflexivity).
  split; [exact Hd|]. split; [exact Hg|].
  exact (group_ends_on_closer 9 p (advance 4 p) "]" _ Hd Hg).
Defined.

Lemma top_group_forgets_witness :
  let p := parserNextToken
             (setLast (identity 7%float) (newParser (newLexer "7 (2 + 3)"))) in
  isGroupStart (snd (token p)) = true
  /\ TokenType.eqb (fst (token p)) TokenType.EOF = false
  /\ last p = Some (identity 7%float)
  /\ parse 9 p = parse 9 (withLast None p)
  /\ parseText "7 (2 + 3)" = Ok (compoundFromValues 2%float sum 3%float).
Proof.
  intros p.
  assert (Hg : isGroupStart (snd (token p)) = true) by reflexivity.
  assert (Ht : TokenType.eqb (fst (token p)) TokenType.EOF = false)
    by reflexivity.
  split; [exact Hg|]. split; [exact Ht|]. split; [reflexivity|].
  split; [exact (top_group_forgets 9 p Hg Ht)|].
  vm_compute; reflexivity.
Defined.

(** X16.  [parse] builds its trees from the four operations of
    [Operations] and nothing else: every tree it returns is one over
    [sum], [sub], [mul] and [div]. *)
Theorem parse_arithmetic (s : string) (t : Number) :
  parseText s = Ok t -> arithmetic t.
Proof.
  apply parse_arithmetic_any. rewrite newParser_last. discriminate.
Qed.

Lemma parse_arithmetic_witness :
  parseText "2 * (3 + 4)"
  = Ok (compound (identity 2%float) mul (compoundFromValues 3%float sum 4%float))
  /\ arithmetic
       (compound (identity 2%float) mul
          (compoundFromValues 3%float sum 4%float)).
Proof.
  assert (H : parseText "2 * (3 + 4)"
              = Ok (compound (identity 2%float) mul
                      (compoundFromValues 3%float sum 4%float)))
    by (vm_compute; reflexivity).
  split; [exact H | exact (parse_arithmetic _ _ H)].
Defined.

(** ** Parentheses around a whole expression *)

(** X17.  Parentheses around a whole expression change nothing: for a tree
    [t] of the class [Shape (Whole false)] (rendered with no parenthesis at
    its beginning), parsing the rendering of [t] between [(] and [)]
    returns [t]. *)
Theorem parenthesized_alone (t : Number) (ls : list Lexeme) :
  Shape (Whole false) t ls ->
  parseText ("(" ++ numToString t ++ ")") = Ok t
  /\ evaluate ("(" ++ numToString t ++ ")") = Ok (get t).
Proof.
  intros Hs.
  destruct (Shape_rendering _ _ _ Hs) as (Hr & Hl & Hc & Ho).
  cbn [rendered] in Hr.
  set (ls' := (LOpen :: ls ++ [LClose])%list).
  assert (Hsp : "(" ++ numToString t ++ ")" = spell ls').
  { unfold ls'. rewrite spell_cons, (spell_app ls _ Hc), Hr.
    cbn [space spell append]. now rewrite ?app_empty_r. }
  assert (Hl' : lexable ls').
  { unfold ls'. cbn [lexable]. split.
    - destruct ls as [|[] r]; cbn [opens app] in Ho |- *; auto.
    - apply lexable_app; cbn [lexable]; auto. }
  assert (Hp : parseText ("(" ++ numToString t ++ ")") = Ok t).
  { rewrite Hsp. set (p0 := newParser (newLexer (spell ls'))).
    assert (Hu : forall i, upcoming p0 (0 + i)
                           = nth i (lexTokens ls') eofToken).
    { intros i. unfold p0. cbn [Nat.add]. rewrite upcoming_newParser.
      apply lexerToken_lexemes; [|exact Hl'].
      now apply lexReady_newLexer. }
    pose proof (Ahead_lexTokens p0 ls' 0 Hl' Hu) as Ha.
    assert (H0 : withLast None p0 = p0).
    { rewrite <- (withLast_last p0) at 2. unfold p0 at 2.
      now rewrite newParser_last. }
    destruct (group_parsed t ls p0 (withLast None p0) 0
                (Shape_parsedBack _ _ _ Hs)) as [F HF];
      [intros n; apply upcoming_withLast | exact Ha |].
    rewrite advance_withLast in HF.
    destruct Ha as [Hopen _]. cbn [tokenOf] in Hopen.
    change (upcoming p0 0) with (token p0) in Hopen.
    assert (Ht : TopReach None p0 (Some t)
                   (parserNextToken (advance (S (List.length ls)) p0))).
    { apply (TopReach_group F); [now rewrite Hopen | now rewrite Hopen
                                 | exact HF]. }
    rewrite advance_next in Ht.
    destruct (Ht 1%nat
                (Ok (withLast (Some t)
                       (advance (S (S (List.length ls))) p0))))
      as [F' HF'].
    - cbn [parseLoop withLast token].
      rewrite (upcoming_0 (advance _ _)), upcoming_advance.
      replace (S (S (List.length ls))) with (List.length ls')
        by (unfold ls'; cbn [List.length]; rewrite List.length_app;
            cbn [List.length]; lia).
      now rewrite Hu, nth_lexTokens_end.
    - discriminate.
    - apply (parseText_fuel _ F'); [|discriminate].
      unfold parse. fold p0. rewrite <- H0. now rewrite HF'. }
  split; [exact Hp|]. unfold evaluate. now rewrite Hp.
Qed.

Lemma parenthesized_alone_witness :
  let t := compound (compoundFromValues 1%float sum 2%float) sub
             (compound (identity 3%float) mul (identity 4%float)) in
  parseText ("(" ++ numToString t ++ ")") = Ok t
  /\ evaluate "(1 + 2 - 3 * 4)" = Ok (-9)%float.
Proof.
  intros t.
  eassert (Hs : Shape (Whole false) t _).
  { eapply (Shape_step false _ _ OSub).
    - eapply (Shape_step false (identity 1%float) _ OSum).
      + apply Shape_leaf. plain_leaf.
      + exact I.
      + apply (Under_leaf OSum 2%float). plain_leaf.
    - cbn [keepsOrder]. vm_compute. discriminate.
    - eapply (Under_tighter OSub OMul 3%float).
      + vm_compute; reflexivity.
      + plain_leaf.
      + apply (Under_leaf OMul 4%float). plain_leaf. }
  destruct (parenthesized_alone t _ Hs) as [Hp He].
  split; [exact Hp|].
  assert (Hn : "(" ++ numToString t ++ ")" = "(1 + 2 - 3 * 4)")
    by (vm_compute; reflexivity).
  rewrite Hn in He. rewrite He. vm_compute; reflexivity.
Defined.

(** ** A number and what comes after it *)

Section ParserAfterNumber.
Context {L : Type} `{ILexer L}.

(** A first operand and, after it, a token that is no operation. *)
Lemma operand_then_other (fuel : nat) (p : Parser L) :
  last p = None ->
  TokenType.eqb (fst (token p)) TokenType.EOF = false ->
  isGroupStart (snd (token p)) = false ->
  TokenType.eqb (fst (peekToken p)) TokenType.EOF = false ->
  isGroupStart (snd (peekToken p)) = false ->
  mapGet TokenType.eqb Operations (fst (peekToken p)) = None ->
  parse (3 + fuel) p
  = Throw ("expected an operation got: "
             ++ TokenType.value (fst (peekToken p))).
Proof.
  intros Hl Ht Hg Ht' Hg' Ho. unfold parse.
  change (3 + fuel)%nat with (S (S (S fuel))).
  cbn [parseLoop]. rewrite Ht. unfold parseValue at 1. rewrite Hg, Hl.
  cbn [parseExpression bind].
  assert (Et : token (parserNextToken (setLast (parseNumber p) p))
               = peekToken p).
  { unfold parserNextToken, setLast. cbn [lexer peekToken].
    now destruct (lexerNextToken (lexer p)). }
  assert (El : last (parserNextToken (setLast (parseNumber p) p))
               = Some (parseNumber p)).
  { unfold parserNextToken, setLast. cbn [lexer peekToken last].
    now destruct (lexerNextToken (lexer p)). }
  rewrite Et, Ht'. unfold parseValue. rewrite Et, Hg', El.
  rewrite parseExpression_S, Et, Ho. reflexivity.
Qed.

(** Two operands and the operation between them, and nothing more. *)
Lemma operands_and_operation (p : Parser L) (a b : string) (k : OpName) :
  last p = None ->
  tokenOf (LNum a) (upcoming p 0) -> tokenOf (LOp k) (upcoming p 1) ->
  tokenOf (LNum b) (upcoming p 2) -> upcoming p 3 = eofToken ->
  exists F : nat,
    parse F p
    = Ok (compound (identity (JS.Number a)) (operationOf k)
            (identity (JS.Number b))).
Proof.
  intros Hl Ha Hk Hb He.
  set (A := identity (JS.Number a)).
  set (C := compound A (operationOf k) (identity (JS.Number b))).
  destruct (numToken_facts a _ Ha) as (Hv & Hg & _ & Ht).
  change (upcoming p 0) with (token p) in Hv, Hg, Ht.
  assert (H1 : TopReach None p (Some A) (parserNextToken p)).
  { apply (TopReach_step 1 None p p A Ht Hg).
    cbn [parseExpression]. unfold parseNumber. cbn [withLast token].
    now rewrite Hv. }
  set (p1 := parserNextToken p) in *.
  assert (Hu : forall i, upcoming p1 i = upcoming p (S i))
    by (intros i; apply upcoming_next).
  assert (H2 : TopReach (Some A) p1 (Some C)
                 (parserNextToken (advance 1 p1))).
  { destruct (opToken_facts k) as (Ht1 & Hg1 & _).
    cbn [tokenOf] in Hk.
    apply (TopReach_step 2 (Some A) p1 (advance 1 p1) C).
    - rewrite (upcoming_0 p1), Hu, Hk. exact Ht1.
    - rewrite (upcoming_0 p1), Hu, Hk. exact Hg1.
    - rewrite <- advance_withLast.
      apply step_operand; rewrite upcoming_withLast, Hu;
        [exact Hk | exact Hb |].
      rewrite He. exact I. }
  destruct (TopReach_trans _ _ _ _ _ _ H1 H2 1%nat
              (Ok (withLast (Some C) (parserNextToken (advance 1 p1)))))
    as [F HF].
  - cbn [parseLoop withLast token].
    rewrite (upcoming_0 (parserNextToken _)), upcoming_next,
      upcoming_advance, Hu. cbn [Nat.add]. now rewrite He.
  - discriminate.
  - exists F. unfold parse.
    rewrite <- Hl, withLast_last in HF. now rewrite HF.
Qed.

End ParserAfterNumber.

Lemma unknown_char_facts (c : ascii) :
  mapGet String.eqb TokenString (String c "") = None ->
  isNumber (String c "") = false ->
  isSkipped (String c "") = false /\ isComparation (String c "") = false
  /\ isSign (String c "") = false /\ isGroupStart (String c "") = false.
Proof.
  intros Hk Hn. unfold isComparation. rewrite Hk.
  repeat split.
  - unfold isSkipped.
    repeat match goal with
           | |- context [String.eqb (String c "") ?k] =>
               destruct (String.eqb_spec (String c "") k) as [E | _];
               [rewrite E in Hn; vm_compute in Hn; discriminate Hn|]
           end.
    reflexivity.
  - unfold isSign.
    repeat match goal with
           | |- context [String.eqb (String c "") ?k] =>
               destruct (String.eqb_spec (String c "") k) as [E | _];
               [rewrite E in Hk; discriminate Hk|]
           end.
    reflexivity.
  - unfold isGroupStart, GroupDelimiters. cbn [map fst existsb].
    repeat match goal with
           | |- context [String.eqb (String c "") ?k] =>
               destruct (String.eqb_spec (String c "") k) as [E | _];
               [rewrite E in Hk; discriminate Hk|]
           end.
    reflexivity.
Qed.

(** X18.  No decimal point, no letter: digits directly followed by a
    character the lexer has no token for and [isNumber] refuses make
    [parse] throw, whatever comes after.  The digits are a number
    literal, the character is a token of type [Illegal], and an operation
    is expected there. *)
Theorem number_then_unknown (ds rest : string) (c : ascii) :
  isDigits ds = true ->
  mapGet String.eqb TokenString (String c "") = None ->
  isNumber (String c "") = false ->
  parseText (ds ++ String c rest)
  = Throw "expected an operation got: Illegal".
Proof.
  intros Hd Hk Hn.
  destruct (unknown_char_facts c Hk Hn) as (Hsk & Hcmp & Hsg & Hgs).
  destruct (isDigits_cons ds Hd) as (d & ds' & -> & Hd0 & Hds).
  set (s := String d ds' ++ String c rest).
  assert (Hat : lexAt (newLexer s) "" (String d (ds' ++ "" ++ String c rest)))
    by apply (lexAt_newLexer s).
  destruct (nextToken_number _ _ _ "" _ _ Hat Hd0 Hds (or_introl eq_refl) Hn)
    as [Ht0 Hat1].
  rewrite app_empty_r in Ht0, Hat1.
  pose proof (lexAt_char _ _ _ Hat1) as Hc1. cbn [headChar] in Hc1.
  assert (Ht1 : fst (nextToken (snd (nextToken (newLexer s))))
                = newToken TokenType.Illegal (String c "")).
  { rewrite (proj1 (other_characters_alone_any _
                       ltac:(now rewrite Hc1) ltac:(now rewrite Hc1)
                       ltac:(now rewrite Hc1) ltac:(now rewrite Hc1))).
    now rewrite Hc1, Hk. }
  set (p0 := newParser (newLexer s)).
  assert (E0 : token p0 = newToken TokenType.Number (String d ds'))
    by (rewrite <- Ht0; change (upcoming p0 0 = lexerToken 0 (newLexer s));
        apply upcoming_newParser).
  assert (E1 : peekToken p0 = newToken TokenType.Illegal (String c ""))
    by (rewrite <- Ht1; change (upcoming p0 1 = lexerToken 1 (newLexer s));
        apply upcoming_newParser).
  apply (parseText_fuel s (3 + 0)); [|discriminate].
  fold p0. rewrite (operand_then_other 0 p0).
  - now rewrite E1.
  - apply newParser_last.
  - now rewrite E0.
  - rewrite E0. apply (digits_text (String d ds') _ Hd). now left.
  - now rewrite E1.
  - now rewrite E1.
  - now rewrite E1.
Qed.

Lemma number_then_unknown_witness :
  isDigits "14" = true
  /\ mapGet String.eqb TokenString "." = None
  /\ isNumber "." = false
  /\ isNumber "14.742" = true
  /\ parseText "14.742" = Throw "expected an operation got: Illegal".
Proof.
  assert (Hn : isNumber "." = false) by (vm_compute; reflexivity).
  split; [reflexivity|]. split; [reflexivity|]. split; [exact Hn|].
  split; [vm_compute; reflexivity|].
  exact (number_then_unknown "14" "742" "." eq_refl eq_refl Hn).
Defined.

(** ** Two numbers and an operator *)

Lemma nextToken_operator_after (l : Lexer) (pre suf : string) (x : ascii)
    (k : OpName) :
  lexAt l (pre ++ String x "") (String (opChar k) suf) ->
  isNumber (String x "") = true ->
  fst (nextToken l) = opToken k
  /\ lexAt (snd (nextToken l))
       ((pre ++ String x "") ++ String (opChar k) "") suf.
Proof.
  intros Hat Hx.
  pose proof (lexAt_char _ _ _ Hat) as Hc. cbn [headChar] in Hc.
  pose proof (lexAt_lastChar _ _ _ _ Hat) as Hl.
  apply lexAt_readChar in Hat.
  assert (Hn : nextToken l = (opToken k, readChar l)).
  { destruct k; cbn [opChar] in Hc.
    - rewrite nextToken_sign by now rewrite Hc.
      rewrite Hl, Hc, Hx. now rewrite andb_false_r.
    - rewrite nextToken_sign by now rewrite Hc.
      rewrite Hl, Hc, Hx. now rewrite andb_false_r.
    - unfold nextToken, skipWhitespace, readTokenType, isSignedNumber.
      rewrite skipWhitespaceLoop_stable by now rewrite Hc.
      rewrite Hc. reflexivity.
    - unfold nextToken, skipWhitespace, readTokenType, isSignedNumber.
      rewrite skipWhitespaceLoop_stable by now rewrite Hc.
      rewrite Hc. reflexivity. }
  rewrite Hn. split; [reflexivity | exact Hat].
Qed.

Lemma digits_last (d : ascii) (ds : string) :
  isDigitChar (String d "") = true ->
  forallb (fun c => isDigitChar (String c "")) (list_ascii_of_string ds)
  = true ->
  exists (init : string) (x : ascii),
    String d ds = init ++ String x "" /\ isNumber (String x "") = true.
Proof.
  revert d; induction ds as [|e ds IH]; intros d Hd Hds.
  - exists "", d. split; [reflexivity | apply (digit_facts d Hd)].
  - cbn [list_ascii_of_string forallb] in Hds.
    apply andb_prop in Hds as [He Hds].
    destruct (IH e He Hds) as (init & x & E & Hx).
    exists (String d init), x. split; [|exact Hx].
    cbn [append]. now rewrite <- E.
Qed.

(** X19.  The spaces around an operator do not matter: two strings of
    digits with one of [+], [-], [*], [/] between them, a space or none
    before the operator and a space or none after it, are parsed as the
    operation on the two numbers. *)
Theorem binary_expression (a b sp1 sp2 : string) (k : OpName) :
  isDigits a = true -> isDigits b = true ->
  sp1 = "" \/ sp1 = " " -> sp2 = "" \/ sp2 = " " ->
  parseText (a ++ sp1 ++ String (opChar k) (sp2 ++ b))
  = Ok (compound (identity (JS.Number a)) (operationOf k)
          (identity (JS.Number b))).
Proof.
  intros Ha Hb H1 H2.
  destruct (isDigits_cons a Ha) as (d & a' & Ea & Hd & Hds).
  destruct (isDigits_cons b Hb) as (e & b' & Eb & He & Hes).
  set (s := a ++ sp1 ++ String (opChar k) (sp2 ++ b)).
  (* the first number *)
  assert (Hat0 : lexAt (newLexer s) ""
                   (String d (a' ++ sp1 ++ String (opChar k) (sp2 ++ b)))).
  { pose proof (lexAt_newLexer s) as H0. unfold s in H0 at 2.
    now rewrite Ea in H0. }
  destruct (nextToken_number _ _ _ sp1 _ _ Hat0 Hd Hds H1
              (opChar_not_number k)) as [T0 Hat1].
  cbn [append] in Hat1.
  (* the operator *)
  assert (Hlast : exists (init : string) (x : ascii),
             String d (a' ++ sp1) = init ++ String x ""
             /\ isNumber (String x "") = true).
  { destruct H1 as [-> | ->].
    - rewrite app_empty_r. now apply digits_last.
    - exists (String d a'), " "%char. split; [reflexivity|].
      vm_compute; reflexivity. }
  destruct Hlast as (init & x & El & Hx).
  rewrite El in Hat1.
  destruct (nextToken_operator_after _ _ _ _ _ Hat1 Hx) as [T1 Hat2].
  (* the second number *)
  assert (T2 : fst (nextToken (snd (nextToken (snd (nextToken (newLexer s))))))
               = newToken TokenType.Number b
               /\ exists pre,
                    lexAt (snd (nextToken
                                  (snd (nextToken
                                          (snd (nextToken (newLexer s)))))))
                      pre "").
  { rewrite Eb in Hat2 |- *.
    assert (Hn : forall l pre,
               lexAt l pre (String e b') ->
               fst (nextToken l) = newToken TokenType.Number (String e b')
               /\ exists pre', lexAt (snd (nextToken l)) pre' "").
    { intros l pre Hat.
      assert (Hat' : lexAt l pre (String e (b' ++ "" ++ "")))
        by (cbn [append]; now rewrite app_empty_r).
      destruct (nextToken_number _ _ _ "" _ _ Hat' He Hes
                  (or_introl eq_refl) ltac:(vm_compute; reflexivity))
        as [T Hend].
      rewrite app_empty_r in T, Hend.
      split; [exact T | eexists; exact Hend]. }
    destruct H2 as [-> | ->]; [exact (Hn _ _ Hat2)|].
    cbn [append] in Hat2.
    rewrite (nextToken_space _ _ _ Hat2)
      by (cbn [headChar]; apply (digit_facts e He)).
    exact (Hn _ _ (lexAt_readChar _ _ _ _ Hat2)). }
  destruct T2 as [T2 [pre3 Hat3]].
  (* the parser *)
  set (p0 := newParser (newLexer s)).
  assert (U0 : upcoming p0 0 = newToken TokenType.Number (a ++ sp1)).
  { unfold p0. rewrite upcoming_newParser, lexerToken_0, Ea. exact T0. }
  assert (U1 : upcoming p0 1 = opToken k).
  { unfold p0. rewrite upcoming_newParser, lexerToken_S, lexerToken_0.
    exact T1. }
  assert (U2 : upcoming p0 2 = newToken TokenType.Number b).
  { unfold p0. rewrite upcoming_newParser, !lexerToken_S, lexerToken_0.
    exact T2. }
  assert (U3 : upcoming p0 3 = eofToken).
  { unfold p0. rewrite upcoming_newParser, !lexerToken_S.
    exact (lexAt_atEnd _ _ 0 Hat3). }
  destruct (operands_and_operation p0 a b k) as [F HF].
  - apply newParser_last.
  - rewrite U0. cbn [tokenOf newToken fst snd]. split; [exact Ha|].
    split; [reflexivity|]. destruct H1 as [-> | ->];
      [left; now rewrite app_empty_r | now right].
  - rewrite U1. reflexivity.
  - rewrite U2. cbn [tokenOf newToken fst snd]. auto.
  - exact U3.
  - apply (parseText_fuel s F); [exact HF | discriminate].
Qed.

Lemma binary_expression_witness :
  isDigits "012" = true /\ isDigits "3" = true
  /\ (" " = "" \/ " " = " ") /\ ("" = "" \/ "" = "")
  /\ parseText "012 -3"
     = Ok (compound (identity 12%float) sub (identity 3%float)).
Proof.
  split; [reflexivity|]. split; [reflexivity|].
  split; [now right|]. split; [now left|].
  assert (H : parseText ("012" ++ " " ++ String (opChar OSub) ("" ++ "3"))
              = Ok (compound (identity (JS.Number "012")) (operationOf OSub)
                      (identity (JS.Number "3"))))
    by (apply (binary_expression "012" "3" " " "" OSub);
        [reflexivity | reflexivity | now right | now left]).
  assert (E1 : JS.Number "012" = 12%float) by (vm_compute; reflexivity).
  assert (E2 : JS.Number "3" = 3%float) by (vm_compute; reflexivity).
  rewrite E1, E2 in H. exact H.
Defined.

(** ** Every token is a piece of the input *)

(** The longest prefix of a string whose characters satisfy [P]. *)
Lemma span_prefix (P : ascii -> bool) (s : string) :
  exists a b : string,
    s = a ++ b
    /\ forallb P (list_ascii_of_string a) = true
    /\ match b with String c _ => P c = false | EmptyString => True end.
Proof.
  induction s as [|c s (a & b & E & Ha & Hb)].
  - exists "", "". repeat split.
  - destruct (P c) eqn:Ec.
    + exists (String c a), b. split; [cbn [append]; now rewrite <- E|].
      split; [cbn [list_ascii_of_string forallb]; now rewrite Ec | exact Hb].
    + exists "", (String c s). repeat split. exact Ec.
Qed.

Lemma nextToken_skip (l : Lexer) :
  wfLexer l -> nextToken l = nextToken (skipWhitespace l).
Proof.
  intros Hw.
  assert (Hs : skipWhitespace (skipWhitespace l) = skipWhitespace l).
  { unfold skipWhitespace at 1. apply skipWhitespaceLoop_stable.
    unfold skipWhitespace. apply skipWhitespaceLoop_done; [exact Hw | lia]. }
  unfold nextToken. now rewrite Hs.
Qed.

(** X20.  Every token is a piece of the input, and nothing is lost between
    the tokens but white space: wherever the lexer stands, what is left of
    the input is white space that is skipped, then the text of the next
    token, then what the lexer goes on with; or it is white space only,
    and the token is the end-of-input token. *)
Theorem token_is_slice (l : Lexer) (pre suf : string) :
  lexAt l pre suf ->
  exists ws v rest : string,
    suf = ws ++ v ++ rest
    /\ forallb isBlank (list_ascii_of_string ws) = true
    /\ ((v = "" /\ rest = "" /\ fst (nextToken l) = eofToken)
        \/ (v <> "" /\ snd (fst (nextToken l)) = v
            /\ lexAt (snd (nextToken l)) (pre ++ ws ++ v) rest)).
Proof.
  intros Hat.
  destruct (span_prefix isBlank suf) as (ws & s1 & -> & Hws & Hs1).
  exists ws.
  assert (Hsk : isSkipped (headChar s1) = false)
    by (destruct s1; [reflexivity | exact Hs1]).
  destruct (skipWhitespaceLoop_run ws (String.length (input l)) l pre s1
              Hat Hws Hsk) as [Hat1 _].
  { destruct Hat as (_ & -> & _). rewrite !length_app. lia. }
  change (skipWhitespaceLoop (String.length (input l)) l)
    with (skipWhitespace l) in Hat1.
  rewrite nextToken_skip by apply Hat. set (l1 := skipWhitespace l) in *.
  pose proof (lexAt_char _ _ _ Hat1) as Hc.
  destruct s1 as [|c s2].
  - (* the end of the input *)
    exists "", "". split; [reflexivity|]. split; [exact Hws|]. left.
    split; [reflexivity|]. split; [reflexivity|].
    destruct Hat1 as (Hw & Hi & Hp).
    apply nextToken_atEnd; [exact Hw|].
    rewrite Hi, Hp, !length_app. cbn [String.length]. lia.
  - cbn [headChar] in Hc, Hsk.
    assert (Hone : lexAt (readChar l1) (pre ++ ws ++ String c "") s2).
    { rewrite <- app_assoc. apply lexAt_readChar. exact Hat1. }
    destruct (isComparation (String c "")) eqn:Ecmp.
    { (* a run of comparison symbols *)
      destruct (span_prefix (fun x => isComparation (String x "")) s2)
        as (cs & rest & -> & Hcs & Hrest).
      exists (String c cs), rest. split; [reflexivity|].
      split; [exact Hws|]. right.
      rewrite <- app_assoc.
      destruct (nextToken_comparison_run l1 _ cs rest c Hat1 Ecmp Hcs)
        as (T & Hat2 & _).
      { destruct rest; [reflexivity | exact Hrest]. }
      split; [discriminate|]. split; [now rewrite T | exact Hat2]. }
    destruct (isSign (String c "")) eqn:Esg.
    { (* a sign *)
      rewrite nextToken_sign by now rewrite Hc.
      destruct (isNumber (peekChar l1) && negb (isNumber (lastChar l1))).
      - destruct (span_prefix (fun x => isNumber (String x "")) s2)
          as (ns & rest & -> & Hns & Hrest).
        exists (String c ns), rest. split; [reflexivity|].
        split; [exact Hws|]. right.
        rewrite <- app_assoc.
        destruct (readNumber_run l1 _ ns rest c Hat1 Hns) as [T Hat2].
        { destruct rest; [vm_compute; reflexivity | exact Hrest]. }
        split; [discriminate|]. split; [exact T | exact Hat2].
      - exists (String c ""), s2. split; [reflexivity|].
        split; [exact Hws|]. right.
        split; [discriminate|]. split; [exact Hc | exact Hone]. }
    destruct (isNumber (String c "")) eqn:En.
    { (* a number literal *)
      destruct (span_prefix (fun x => isNumber (String x "")) s2)
        as (ns & rest & -> & Hns & Hrest).
      exists (String c ns), rest. split; [reflexivity|].
      split; [exact Hws|]. right.
      rewrite <- app_assoc.
      destruct (nextToken_numeric_run l1 _ ns rest c Hat1 En Hsk Hns)
        as (T & Hat2 & _).
      { destruct rest; [vm_compute; reflexivity | exact Hrest]. }
      split; [discriminate|]. split; [now rewrite T | exact Hat2]. }
    (* any other character *)
    exists (String c ""), s2. split; [reflexivity|].
    split; [exact Hws|]. right.
    destruct (other_characters_alone_any l1) as [T1 T2];
      try (rewrite Hc; assumption).
    split; [discriminate|]. rewrite T1, T2.
    split; [exact Hc | exact Hone].
Qed.

Lemma token_is_slice_witness :
  lexAt (newLexer " 12+3") "" " 12+3"
  /\ exists ws v rest : string,
       " 12+3" = ws ++ v ++ rest
       /\ forallb isBlank (list_ascii_of_string ws) = true
       /\ ((v = "" /\ rest = ""
            /\ fst (nextToken (newLexer " 12+3")) = eofToken)
           \/ (v <> "" /\ snd (fst (nextToken (newLexer " 12+3"))) = v
               /\ lexAt (snd (nextToken (newLexer " 12+3")))
                    ("" ++ ws ++ v) rest)).
Proof.
  assert (Hat : lexAt (newLexer " 12+3") "" " 12+3")
    by apply lexAt_newLexer.
  split; [exact Hat | exact (token_is_slice _ _ _ Hat)].
Defined.

(** ** White space that is a number *)

Lemma dropWhile_all {A} (p : A -> bool) (l : list A) :
  forallb p l = true -> JS.dropWhile p l = []%list.
Proof.
  induction l as [|x l IH]; [reflexivity|].
  cbn [forallb JS.dropWhile]. intros [-> Hl]%andb_prop. now apply IH.
Qed.

(** X21.  [isNumber] takes white space for a number: it accepts every
    string, but the empty one, of the characters [Number] trims (tab, line
    feed, vertical tab, form feed, carriage return, space, no-break
    space), [Number] of such a string being 0. *)
Theorem isNumber_white_space (ws : string) :
  ws <> "" ->
  forallb JS.isWhiteSpace (list_ascii_of_string ws) = true ->
  JS.Number ws = 0%float /\ isNumber ws = true.
Proof.
  intros Hne Hws.
  assert (Hn : JS.Number ws = 0%float).
  { unfold JS.Number, JS.trim. now rewrite (dropWhile_all _ _ Hws). }
  split; [exact Hn|]. unfold isNumber. rewrite Hn.
  destruct ws; [now contradiction Hne | reflexivity].
Qed.

Lemma isNumber_white_space_witness :
  let ws := String "009" (" " ++ String "010" "") in
  ws <> ""
  /\ forallb JS.isWhiteSpace (list_ascii_of_string ws) = true
  /\ JS.Number ws = 0%float /\ isNumber ws = true.
Proof.
  intros ws.
  assert (Hne : ws <> "") by discriminate.
  split; [exact Hne|]. split; [reflexivity|].
  exact (isNumber_white_space ws Hne eq_refl).
Defined.

(** ** Numbers with white space inside *)

Lemma numeric_char_facts (c : ascii) :
  isDigitChar (String c "") || JS.isWhiteSpace c = true ->
  JS.isChar c "x" || JS.isChar c "X" || JS.isChar c "o" || JS.isChar c "O"
  || JS.isChar c "b" || JS.isChar c "B" = false.
Proof.
  destruct c as [[] [] [] [] [] [] [] []]; intros H; vm_compute in H;
    try discriminate H; reflexivity.
Qed.

Lemma digit_char_facts (c : ascii) :
  isDigitChar (String c "") = true ->
  JS.isWhiteSpace c = false /\ JS.isChar c "0" = Ascii.eqb c "0"
  /\ JS.isChar c "-" = false /\ JS.isChar c "+" = false
  /\ Ascii.eqb c "I" = false
  /\ exists v : Z, JS.digitValue 10 c = Some v.
Proof.
  destruct c as [[] [] [] [] [] [] [] []]; intros H; vm_compute in H;
    try discriminate H; repeat split; eexists; reflexivity.
Qed.

Lemma white_char_facts (c : ascii) :
  JS.isWhiteSpace c = true ->
  JS.digitValue 10 c = None /\ JS.isChar c "." = false
  /\ JS.isChar c "e" || JS.isChar c "E" = false.
Proof.
  destruct c as [[] [] [] [] [] [] [] []]; intros H; vm_compute in H;
    try discriminate H; repeat split.
Qed.

Lemma spanDigits_digits (la : list ascii) :
  forall (acc : Z) (len : nat) (w : ascii) (rest : list ascii),
    forallb (fun c => isDigitChar (String c "")) la = true ->
    JS.digitValue 10 w = None ->
    exists acc' : Z,
      JS.spanDigits 10 acc len (la ++ w :: rest)
      = (acc', (len + List.length la)%nat, (w :: rest)%list).
Proof.
  induction la as [|c la IH]; intros acc len w rest Hla Hw.
  - exists acc. cbn [app JS.spanDigits List.length]. rewrite Hw.
    now rewrite Nat.add_0_r.
  - cbn [forallb] in Hla. apply andb_prop in Hla as [Hc Hla].
    destruct (digit_char_facts c Hc) as (_ & _ & _ & _ & _ & [v Hv]).
    cbn [app JS.spanDigits]. rewrite Hv.
    destruct (IH (acc * 10 + v) (S len) w rest Hla Hw) as [acc' E].
    exists acc'. rewrite E. cbn [List.length]. do 2 f_equal. lia.
Qed.

Lemma trim_ends (d x : ascii) (m : list ascii) :
  JS.isWhiteSpace d = false -> JS.isWhiteSpace x = false ->
  JS.trim (d :: m ++ [x]) = (d :: m ++ [x])%list.
Proof.
  intros Hd Hx. unfold JS.trim. cbn [JS.dropWhile]. rewrite Hd.
  change (d :: m ++ [x])%list with ((d :: m) ++ [x])%list.
  rewrite rev_app_distr. cbn [rev app JS.dropWhile]. rewrite Hx.
  change (x :: rev m ++ [d])%list with (rev [x] ++ rev (d :: m))%list.
  now rewrite <- rev_app_distr, rev_involutive.
Qed.

Lemma last_digit (d : ascii) (ds : list ascii) :
  forallb (fun c => isDigitChar (String c "")) (d :: ds) = true ->
  exists (init : list ascii) (x : ascii),
    (d :: ds = init ++ [x])%list /\ isDigitChar (String x "") = true.
Proof.
  revert d; induction ds as [|e ds IH]; intros d Hd.
  - exists []%list, d. split; [reflexivity|].
    cbn [forallb] in Hd. now apply andb_prop in Hd.
  - cbn [forallb] in Hd. apply andb_prop in Hd as [Hd0 Hd].
    destruct (IH e Hd) as (init & x & E & Hx).
    exists (d :: init)%list, x. split; [|exact Hx].
    cbn [app]. now rewrite <- E.
Qed.

(** [Number] of digits, a white-space character, and digits. *)
Lemma Number_inner_space (a b : string) (w : ascii) :
  isDigits a = true -> isDigits b = true -> JS.isWhiteSpace w = true ->
  JS.Number (a ++ String w b) = nan.
Proof.
  intros Ha Hb Hw.
  destruct (isDigits_cons a Ha) as (d & a' & -> & Hd & Hds).
  destruct (isDigits_cons b Hb) as (e & b' & -> & He & Hes).
  destruct (digit_char_facts d Hd) as (Hdw & Hd0 & Hdm & Hdp & HdI & _).
  destruct (white_char_facts w Hw) as (Hwv & Hwdot & Hwe).
  destruct (last_digit e (list_ascii_of_string b')) as (init & x & Eb & Hx).
  { cbn [forallb]. now rewrite He, Hes. }
  destruct (digit_char_facts x Hx) as (Hxw & _).
  remember (list_ascii_of_string a') as la eqn:Ela.
  assert (Ecs : list_ascii_of_string (String d a' ++ String w (String e b'))
                = (d :: (la ++ w :: init) ++ [x])%list).
  { cbn [append list_ascii_of_string]. rewrite list_ascii_app.
    cbn [list_ascii_of_string]. rewrite <- Ela, Eb.
    now rewrite <- List.app_assoc. }
  unfold JS.Number. rewrite Ecs, (trim_ends d x _ Hdw Hxw).
  rewrite <- List.app_assoc. cbn [app].
  set (tl := (w :: init ++ [x])%list).
  (* no prefix of a radix *)
  assert (Hnd : JS.nonDecimal (d :: la ++ tl) = None).
  { unfold JS.nonDecimal.
    destruct (la ++ tl)%list as [|p r] eqn:E; [reflexivity|].
    destruct (JS.isChar d "0"); [|reflexivity].
    assert (Hp : isDigitChar (String p "") || JS.isWhiteSpace p = true).
    { destruct la as [|c la']; cbn [app] in E.
      - unfold tl in E. injection E as <- _. now rewrite Hw, orb_true_r.
      - injection E as <- _. cbn [forallb] in Hds.
        apply andb_prop in Hds as [-> _]. reflexivity. }
    pose proof (numeric_char_facts p Hp) as Hr.
    apply orb_false_elim in Hr as [Hr HB].
    apply orb_false_elim in Hr as [Hr Hb'].
    apply orb_false_elim in Hr as [Hr HO].
    apply orb_false_elim in Hr as [Hr Ho].
    apply orb_false_elim in Hr as [Hx' HX].
    rewrite Hx', HX, Ho, HO, Hb', HB. cbn [orb].
    now destruct (JS.spanDigits 0 0 0 r) as [[v [|n]] [|y r']]. }
  rewrite Hnd, Hdm, Hdp.
  unfold JS.unsignedDecimal.
  assert (HI : String.eqb (string_of_list_ascii (d :: la ++ tl)) "Infinity"
               = false)
    by (cbn [string_of_list_ascii String.eqb]; now rewrite HdI).
  rewrite HI.
  destruct (spanDigits_digits (d :: la) 0 0 w (init ++ [x])%list)
    as [ip Esp].
  { cbn [forallb]. now rewrite Hd, Hds. }
  { exact Hwv. }
  change ((d :: la) ++ w :: init ++ [x])%list with (d :: la ++ tl)%list in Esp.
  rewrite Esp. unfold tl. rewrite Hwdot.
  cbn [Nat.add List.length Nat.eqb]. rewrite Hwe. reflexivity.
Qed.

Section ParserOneToken.
Context {L : Type} `{ILexer L}.

(** A single token and the end of the input. *)
Lemma one_token (fuel : nat) (p : Parser L) :
  last p = None ->
  TokenType.eqb (fst (token p)) TokenType.EOF = false ->
  isGroupStart (snd (token p)) = false ->
  TokenType.eqb (fst (peekToken p)) TokenType.EOF = true ->
  parse (2 + fuel) p = Ok (identity (JS.Number (snd (token p)))).
Proof.
  intros Hl Ht Hg Ht'. unfold parse.
  change (2 + fuel)%nat with (S (S fuel)).
  cbn [parseLoop]. rewrite Ht. unfold parseValue at 1. rewrite Hg, Hl.
  cbn [parseExpression bind].
  assert (Et : token (parserNextToken (setLast (parseNumber p) p))
               = peekToken p).
  { unfold parserNextToken, setLast. cbn [lexer peekToken].
    now destruct (lexerNextToken (lexer p)). }
  assert (El : last (parserNextToken (setLast (parseNumber p) p))
               = Some (parseNumber p)).
  { unfold parserNextToken, setLast. cbn [lexer peekToken last].
    now destruct (lexerNextToken (lexer p)). }
  rewrite Et, Ht'. cbn [bind]. now rewrite El.
Qed.

End ParserOneToken.

(** X22.  Two numbers with nothing but a white-space character between
    them are one number literal, and no number: [parse] returns the leaf
    [Number] makes of the whole text, which is NaN, and raises no
    error. *)
Theorem spaced_numbers_are_one (a b : string) (w : ascii) :
  isDigits a = true -> isDigits b = true -> JS.isWhiteSpace w = true ->
  fst (nextToken (newLexer (a ++ String w b)))
  = newToken TokenType.Number (a ++ String w b)
  /\ parseText (a ++ String w b) = Ok (identity nan).
Proof.
  intros Ha Hb Hw.
  pose proof (Number_inner_space a b w Ha Hb Hw) as Hnan.
  destruct (isDigits_cons a Ha) as (d & a' & Ea & Hd & Hds).
  destruct (isDigits_cons b Hb) as (e & b' & Eb & He & Hes).
  set (s := a ++ String w b) in *.
  assert (Es : s = String d (a' ++ String w b))
    by (unfold s; now rewrite Ea).
  assert (Hat : lexAt (newLexer s) "" (String d ((a' ++ String w b) ++ "")))
    by (rewrite app_empty_r, <- Es; apply lexAt_newLexer).
  destruct (digit_facts d Hd) as (Hdn & _ & Hdsk & _ & Hdg).
  destruct (nextToken_numeric_run _ _ _ _ _ Hat Hdn Hdsk) as (T & Hat1 & _).
  { unfold allNumeric. rewrite list_ascii_app, forallb_app.
    cbn [list_ascii_of_string forallb].
    assert (Hnum : forall l,
               forallb (fun c => isDigitChar (String c "")) l = true ->
               forallb (fun c => isNumber (String c "")) l = true).
    { induction l as [|c l IH]; [reflexivity|]. cbn [forallb].
      intros [Hc Hl]%andb_prop.
      now rewrite (proj1 (digit_facts c Hc)), IH. }
    rewrite (Hnum _ Hds). rewrite Eb. cbn [list_ascii_of_string forallb].
    rewrite (proj1 (digit_facts e He)), (Hnum _ Hes).
    rewrite isNumber_char. cbn [isWhiteSpaceChar]. rewrite Hw.
    now rewrite orb_true_r. }
  { vm_compute; reflexivity. }
  rewrite <- Es in T. split; [exact T|].
  set (p0 := newParser (newLexer s)).
  assert (E0 : token p0 = newToken TokenType.Number s)
    by (rewrite <- T; change (upcoming p0 0 = lexerToken 0 (newLexer s));
        apply upcoming_newParser).
  assert (E1 : peekToken p0 = eofToken).
  { change (upcoming p0 1 = eofToken). unfold p0.
    rewrite upcoming_newParser.
    exact (lexAt_atEnd _ _ 0 Hat1). }
  apply (parseText_fuel s (2 + 0)); [|discriminate].
  fold p0. rewrite (one_token 0 p0).
  - now rewrite E0, <- Hnan.
  - apply newParser_last.
  - now rewrite E0.
  - rewrite E0. rewrite Es. apply Hdg.
  - now rewrite E1.
Qed.

Lemma spaced_numbers_are_one_witness :
  isDigits "12" = true /\ isDigits "34" = true
  /\ JS.isWhiteSpace " " = true
  /\ fst (nextToken (newLexer "12 34")) = newToken TokenType.Number "12 34"
  /\ parseText "12 34" = Ok (identity nan).
Proof.
  do 3 (split; [reflexivity|]).
  exact (spaced_numbers_are_one "12" "34" " " eq_refl eq_refl eq_refl).
Defined.

(** ** The delimiters of [Group] *)

(** X23.  What [Group] writes, the parser reads as a group: a group that
    is not active adds nothing to its children, and an active one puts
    them between an opening delimiter and the closing delimiter
    [GroupDelimiters] pairs with it, which the lexer reads as one-character
    tokens. *)
Theorem Group_delimiters (children : string) (delimiter : Delimiter.t) :
  Group children delimiter false = children
  /\ exists opener closer : ascii,
       Group children delimiter true
       = String opener (children ++ String closer "")
       /\ mapGet String.eqb GroupDelimiters (String opener "")
          = Some (String closer "")
       /\ isGroupStart (String opener "") = true
       /\ (forall l : Lexer,
              char l = String opener "" \/ char l = String closer "" ->
              snd (fst (nextToken l)) = char l
              /\ snd (nextToken l) = readChar l).
Proof.
  split.
  - unfold Group. cbn [rendersAs append]. apply app_empty_r.
  - assert (Hl : forall (l : Lexer) (c : ascii),
               isSkipped (String c "") = false ->
               isComparation (String c "") = false ->
               isSign (String c "") = false ->
               isNumber (String c "") = false ->
               char l = String c "" ->
               snd (fst (nextToken l)) = char l
               /\ snd (nextToken l) = readChar l).
    { intros l c H1 H2 H3 H4 Hc. rewrite <- Hc in H1, H2, H3, H4.
      destruct (other_characters_alone_any l H1 H2 H3 H4) as [T1 T2].
      now rewrite T1, T2. }
    destruct delimiter;
      [exists "("%char, ")"%char | exists "["%char, "]"%char
       | exists "{"%char, "}"%char];
      (split; [reflexivity|]); (split; [reflexivity|]);
      (split; [reflexivity|]);
      intros l [Hc | Hc]; apply (Hl l _) in Hc; auto; vm_compute;
      reflexivity.
Qed.

(** ** A sign before the first number *)

Lemma ofDecimal_neg (m e : Z) :
  JS.ofDecimal true m e = (- JS.ofDecimal false m e)%float.
Proof.
  unfold JS.ofDecimal, JS.signed.
  repeat match goal with
         | |- context [if ?b then _ else _] => destruct b
         end; reflexivity.
Qed.

Lemma unsignedDecimal_neg (cs : list ascii) :
  JS.unsignedDecimal true cs
  = option_map PrimFloat.opp (JS.unsignedDecimal false cs).
Proof.
  unfold JS.unsignedDecimal.
  destruct (String.eqb _ "Infinity"); [reflexivity|].
  destruct (JS.spanDigits 10 0 0 cs) as [[ip ilen] r1].
  assert (H : forall (m : Z) (flen : nat) (r2 : list ascii),
             (if Nat.eqb (ilen + flen) 0 then None
              else
                match r2 with
                | []%list => Some (JS.ofDecimal true m (- Z.of_nat flen))
                | (c :: r3)%list =>
                    if JS.isChar c "e" || JS.isChar c "E" then
                      let '(eneg, r4) :=
                        match r3 with
                        | (s :: r)%list =>
                            if JS.isChar s "-" then (true, r)
                            else if JS.isChar s "+" then (false, r)
                            else (false, r3)
                        | []%list => (false, r3)
                        end in
                      match JS.spanDigits 10 0 0 r4 with
                      | (ev, S _, []%list) =>
                          Some (JS.ofDecimal true m
                                  ((if eneg then - ev else ev)
                                   - Z.of_nat flen))
                      | _ => None
                      end
                    else None
                end)
             = option_map PrimFloat.opp
                 (if Nat.eqb (ilen + flen) 0 then None
                  else
                    match r2 with
                    | []%list => Some (JS.ofDecimal false m (- Z.of_nat flen))
                    | (c :: r3)%list =>
                        if JS.isChar c "e" || JS.isChar c "E" then
                          let '(eneg, r4) :=
                            match r3 with
                            | (s :: r)%list =>
                                if JS.isChar s "-" then (true, r)
                                else if JS.isChar s "+" then (false, r)
                                else (false, r3)
                            | []%list => (false, r3)
                            end in
                          match JS.spanDigits 10 0 0 r4 with
                          | (ev, S _, []%list) =>
                              Some (JS.ofDecimal false m
                                      ((if eneg then - ev else ev)
                                       - Z.of_nat flen))
                          | _ => None
                          end
                        else None
                    end)).
  { intros m flen r2. destruct (Nat.eqb (ilen + flen) 0); [reflexivity|].
    destruct r2 as [|c r3]; [cbn [option_map]; now rewrite ofDecimal_neg|].
    destruct (JS.isChar c "e" || JS.isChar c "E"); [|reflexivity].
    destruct (match r3 with
              | (s :: r)%list =>
                  if JS.isChar s "-" then (true, r)
                  else if JS.isChar s "+" then (false, r) else (false, r3)
              | []%list => (false, r3)
              end) as [eneg r4].
    destruct (JS.spanDigits 10 0 0 r4) as [[ev [|n]] [|y r']];
      try reflexivity.
    cbn [option_map]. now rewrite ofDecimal_neg. }
  destruct r1 as [|c r]; [exact (H ip 0%nat []%list)|].
  destruct (JS.isChar c "."); [|exact (H ip 0%nat (c :: r)%list)].
  destruct (JS.spanDigits 10 ip 0 r) as [[m flen] r2].
  exact (H m flen r2).
Qed.

Lemma trim_digits (cs : list ascii) (d : ascii) (la : list ascii) :
  cs = (d :: la)%list ->
  forallb (fun c => isDigitChar (String c "")) cs = true ->
  JS.trim cs = cs
  /\ forall sg : ascii, JS.isWhiteSpace sg = false ->
       JS.trim (sg :: cs) = (sg :: cs)%list.
Proof.
  intros -> Hd.
  destruct (last_digit d la Hd) as (init & x & E & Hx).
  destruct (digit_char_facts x Hx) as (Hxw & _).
  rewrite E. split.
  - destruct init as [|y m].
    + unfold JS.trim. cbn [app JS.dropWhile rev]. rewrite Hxw.
      cbn [rev app JS.dropWhile]. now rewrite Hxw.
    + cbn [app] in E |- *. injection E as <- _.
      cbn [forallb] in Hd. apply andb_prop in Hd as [Hd _].
      apply trim_ends; [apply (digit_char_facts d Hd) | exact Hxw].
  - intros sg Hsg. now apply trim_ends.
Qed.

Lemma nonDecimal_digits (d : ascii) (la : list ascii) :
  forallb (fun c => isDigitChar (String c "")) (d :: la) = true ->
  JS.nonDecimal (d :: la) = None.
Proof.
  cbn [forallb]. intros [Hd Hla]%andb_prop. unfold JS.nonDecimal.
  destruct la as [|p r]; [reflexivity|].
  destruct (JS.isChar d "0"); [|reflexivity].
  cbn [forallb] in Hla. apply andb_prop in Hla as [Hp _].
  assert (Hp' : isDigitChar (String p "") || JS.isWhiteSpace p = true)
    by now rewrite Hp.
  pose proof (numeric_char_facts p Hp') as Hr.
  apply orb_false_elim in Hr as [Hr HB].
  apply orb_false_elim in Hr as [Hr Hb'].
  apply orb_false_elim in Hr as [Hr HO].
  apply orb_false_elim in Hr as [Hr Ho].
  apply orb_false_elim in Hr as [Hx' HX].
  rewrite Hx', HX, Ho, HO, Hb', HB. cbn [orb].
  now destruct (JS.spanDigits 0 0 0 r) as [[v [|n]] [|y r']].
Qed.

(** [Number] of a sign and digits. *)
Lemma Number_signed (ds : string) :
  isDigits ds = true ->
  JS.Number (String "-" ds) = (- JS.Number ds)%float
  /\ JS.Number (String "+" ds) = JS.Number ds.
Proof.
  intros Hd.
  destruct (isDigits_cons ds Hd) as (d & ds' & -> & Hd0 & Hds).
  unfold JS.Number. cbn [list_ascii_of_string].
  remember (list_ascii_of_string ds') as la eqn:Ela. clear Ela Hd ds'.
  assert (Hcs : forallb (fun c => isDigitChar (String c "")) (d :: la)
                = true)
    by (cbn [forallb]; now rewrite Hd0, Hds).
  destruct (trim_digits (d :: la) d la eq_refl Hcs) as [Ht Hts].
  destruct (digit_char_facts d Hd0) as (_ & _ & Hdm & Hdp & _).
  pose proof (nonDecimal_digits d _ Hcs) as Hnd.
  rewrite Ht, (Hts "-"%char eq_refl), (Hts "+"%char eq_refl).
  rewrite Hnd, Hdm, Hdp.
  change (JS.nonDecimal ("-"%char :: d :: la)) with (@None float).
  change (JS.nonDecimal ("+"%char :: d :: la)) with (@None float).
  change (JS.isChar "-" "-") with true.
  change (JS.isChar "+" "-") with false.
  change (JS.isChar "+" "+") with true. cbv iota.
  split; [|reflexivity].
  rewrite unsignedDecimal_neg.
  destruct (JS.unsignedDecimal false (d :: la)); reflexivity.
Qed.

(** X24.  A sign at the very beginning of the input belongs to the
    number: before digits, [-] and [+] are read with them as one number
    literal, and [parse] returns the leaf of the negated number, or of the
    number. *)
Theorem leading_sign (ds : string) :
  isDigits ds = true ->
  parseText (String "-" ds) = Ok (identity (- JS.Number ds)%float)
  /\ parseText (String "+" ds) = Ok (identity (JS.Number ds)).
Proof.
  intros Hd.
  destruct (Number_signed ds Hd) as [Nm Np].
  destruct (isDigits_cons ds Hd) as (d & ds' & Eds & Hd0 & Hds).
  assert (Hall : allNumeric ds = true).
  { rewrite <- (app_empty_r ds), Eds.
    apply (digits_allNumeric (String d ds') "");
      [cbn [list_ascii_of_string forallb]; now rewrite Hd0, Hds | now left]. }
  assert (Hone : forall sg : ascii,
             isSign (String sg "") = true ->
             isGroupStart (String sg ds) = false ->
             parseText (String sg ds)
             = Ok (identity (JS.Number (String sg ds)))).
  { intros sg Hsg Hgs. set (s := String sg ds).
    assert (Hat : lexAt (newLexer s) "" (String sg (ds ++ "")))
      by (rewrite app_empty_r; apply lexAt_newLexer).
    pose proof (lexAt_char _ _ _ Hat) as Hc. cbn [headChar] in Hc.
    pose proof (lexAt_peekChar _ _ _ Hat) as Hp.
    cbn [tail] in Hp. rewrite app_empty_r, Eds in Hp. cbn [headChar] in Hp.
    destruct (readNumber_run _ _ ds "" sg Hat Hall
                ltac:(vm_compute; reflexivity)) as [Hv Hat1].
    assert (T : nextToken (newLexer s)
                = (newToken TokenType.Number s,
                   readChar (snd (readNumber (newLexer s))))).
    { rewrite nextToken_sign by now rewrite Hc.
      rewrite Hp, (proj1 (digit_facts d Hd0)).
      change (lastChar (newLexer s)) with NUL.
      change (isNumber NUL) with (isNumber (String Ascii.zero "")).
      replace (isNumber (String Ascii.zero "")) with false
        by (vm_compute; reflexivity).
      cbn [andb negb]. now rewrite Hv. }
    set (p0 := newParser (newLexer s)).
    assert (E0 : token p0 = newToken TokenType.Number s).
    { change (upcoming p0 0 = newToken TokenType.Number s). unfold p0.
      now rewrite upcoming_newParser, lexerToken_0, T. }
    assert (E1 : peekToken p0 = eofToken).
    { change (upcoming p0 1 = eofToken). unfold p0.
      rewrite upcoming_newParser, lexerToken_S, T. cbn [snd].
      exact (lexAt_atEnd _ _ 0 Hat1). }
    apply (parseText_fuel s (2 + 0)); [|discriminate].
    fold p0. rewrite (one_token 0 p0).
    - now rewrite E0.
    - apply newParser_last.
    - now rewrite E0.
    - now rewrite E0.
    - now rewrite E1. }
  split.
  - rewrite (Hone "-"%char eq_refl eq_refl). now rewrite Nm.
  - rewrite (Hone "+"%char eq_refl eq_refl). now rewrite Np.
Qed.

Lemma leading_sign_witness :
  isDigits "10" = true
  /\ parseText "-10" = Ok (identity (-10)%float)
  /\ parseText "+10" = Ok (identity 10%float).
Proof.
  split; [reflexivity|].
  destruct (leading_sign "10" eq_refl) as [Hm Hp].
  assert (E : JS.Number "10" = 10%float) by (vm_compute; reflexivity).
  rewrite E in Hm, Hp. split; [exact Hm | exact Hp].
Defined.

(** ** Groups that are never closed *)

















Section ParserWindowFacts.
Context {L : Type} `{ILexer L}.










End ParserWindowFacts.















(** ** Operands that are not number literals *)

(** C3, as the code has it.  Where the parser needs an operand it does not
    look at the kind of the current token: [parseNumber] makes a leaf of
    [Number] of its text, whatever the token is, and nothing is thrown.  So
    an input that is one token other than an opening delimiter parses to a
    leaf, which holds NaN for "+" and for "@", and "1 + *" parses to a sum
    with such a leaf.  The errors of [parse] are raised elsewhere, and are
    its result: where an operator is needed and the current token is not
    one, as in "1 @", for a group with nothing in it, and for an input with
    nothing in it; there is no other. *)
Theorem operand_is_never_checked :
  (forall (L : Type) (IL : ILexer L) (p : Parser L) (fuel : nat),
      parseExpression (S fuel) None p
      = Ok (identity (JS.Number (snd (token p))), p))
  /\ (forall s : string,
        TokenType.eqb (fst (lexerToken 0 (newLexer s))) TokenType.EOF
        = false ->
        isGroupStart (snd (lexerToken 0 (newLexer s))) = false ->
        TokenType.eqb (fst (lexerToken 1 (newLexer s))) TokenType.EOF
        = true ->
        parseText s
        = Ok (identity (JS.Number (snd (lexerToken 0 (newLexer s))))))
  /\ parseText "+" = Ok (identity nan)
  /\ parseText "@" = Ok (identity nan)
  /\ parseText "1 + *" = Ok (compound (identity 1%float) sum (identity nan))
  /\ (forall (L : Type) (IL : ILexer L) (p : Parser L) (fuel : nat)
             (left : Number),
         mapGet TokenType.eqb Operations (fst (token p)) = None ->
         parseExpression (S fuel) (Some left) p
         = Throw ("expected an operation got: "
                    ++ TokenType.value (fst (token p))))
  /\ (forall (L : Type) (IL : ILexer L) (p : Parser L) (fuel : nat)
             (msg : string),
         TokenType.eqb (fst (token p)) TokenType.EOF = false ->
         parseValue fuel p = Throw msg ->
         parse (S fuel) p = Throw msg)
  /\ parseText "1 @" = Throw "expected an operation got: Illegal"
  /\ (forall s msg : string, parseText s = Throw msg -> parseError msg).
Proof.
  split; [reflexivity|]. split.
  { intros s H0 Hg H1. unfold parseText.
    set (p := newParser (newLexer s)).
    assert (Hup : forall j, upcoming p j = lexerToken j (newLexer s))
      by (intros j; apply upcoming_newParser).
    rewrite <- (Hup 0%nat) in H0, Hg |- *. rewrite <- (Hup 1%nat) in H1.
    replace (2 * String.length s + 3)%nat
      with (2 + (2 * String.length s + 1))%nat by lia.
    apply one_token; try assumption.
    unfold p, newParser.
    destruct (lexerNextToken (newLexer s)) as [t0 l1].
    destruct (lexerNextToken l1) as [t1 l2]. reflexivity. }
  split; [vm_compute; reflexivity|].
  split; [vm_compute; reflexivity|]. split; [vm_compute; reflexivity|].
  split.
  { intros L IL p fuel left Ho. rewrite parseExpression_S, Ho.
    reflexivity. }
  split.
  { intros L IL p fuel msg He Hv. unfold parse. cbn [parseLoop].
    rewrite He, Hv. reflexivity. }
  split; [vm_compute; reflexivity|].
  intros s msg. apply parse_errors_any.
Qed.

Lemma operand_is_never_checked_witness :
  (TokenType.eqb (fst (lexerToken 0 (newLexer "+"))) TokenType.EOF = false
   /\ isGroupStart (snd (lexerToken 0 (newLexer "+"))) = false
   /\ TokenType.eqb (fst (lexerToken 1 (newLexer "+"))) TokenType.EOF = true
   /\ parseText "+"
      = Ok (identity (JS.Number (snd (lexerToken 0 (newLexer "+"))))))
  /\ (mapGet TokenType.eqb Operations
        (fst (token (parserNextToken (newParser (newLexer "1 @"))))) = None
      /\ parseExpression 1 (Some (identity 1%float))
           (parserNextToken (newParser (newLexer "1 @")))
         = Throw "expected an operation got: Illegal").
Proof.
  split.
  - do 3 (split; [reflexivity|]).
    apply (proj1 (proj2 operand_is_never_checked)); reflexivity.
  - split; [reflexivity|].
    apply (proj1 (proj2 (proj2 (proj2 (proj2 (proj2
             operand_is_never_checked)))))).
    reflexivity.
Defined.

(** C3, as the claim has it, fails on its own examples: the lone operator
    "+" and the illegal character "@" are tokens that are not number
    literals, and [parse] returns a tree for each. *)
Lemma lone_operator_parses :
  tokens 1 (newLexer "+") = [newToken TokenType.Sum "+"]
  /\ tokens 1 (newLexer "@") = [newToken TokenType.Illegal "@"]
  /\ parseText "+" = Ok (identity nan)
  /\ parseText "@" = Ok (identity nan)
  /\ (forall msg : string, parseText "+" <> Throw msg)
  /\ (forall msg : string, parseText "@" <> Throw msg).
Proof.
  vm_compute. repeat split; intros msg; discriminate.
Qed.
